(** * Force-directed fraud graph: layout tick, scheduler and selection model

    Shallow embedding of [GraphView] (the relationship-graph view of the
    fraud-detection frontend): the synthetic graph generator's topology,
    the force simulation step [tick] run inside [useEffect], the
    [requestAnimationFrame] / [setTimeout] scheduling around it, and the
    selection logic ([selected], [selNeighbors], [dim], [dimmed]).

    JavaScript numbers are IEEE-754 binary64 values.  The simulation is
    written over a small interface of number operations, instantiated
    with Rocq's primitive binary64 floats (what the program computes).
    Statements that do not depend on the arithmetic are proved for every
    instance of the interface; statements about forces and positions are
    proved for binary64. *)

From Stdlib Require Import ZArith Floats Lia.
From Stdlib Require Import DecimalString DecimalPos DecimalZ.
From stdpp Require Import base decidable option list strings gmap sets sorting.


(** ** Numbers *)

Class JsNumber (num : Type) : Type := {
  num_of_Z : Z -> num;
  num_add : num -> num -> num;
  num_sub : num -> num -> num;
  num_mul : num -> num -> num;
  num_div : num -> num -> num;
  Math_sqrt : num -> num;
  Math_max : num -> num -> num;
  Math_min : num -> num -> num;
  (** ToBoolean on a number: false exactly for +0, -0 and NaN. *)
  truthy : num -> bool
}.

Declare Scope js_scope.
Delimit Scope js_scope with js.
Notation "a + b" := (num_add a b) : js_scope.
Notation "a - b" := (num_sub a b) : js_scope.
Notation "a * b" := (num_mul a b) : js_scope.
Notation "a / b" := (num_div a b) : js_scope.

(** [a || b] on numbers. *)
Definition num_or {num} `{JsNumber num} (a b : num) : num :=
  if truthy a then a else b.

(** A decimal literal [m / d] with [d] a power of ten, e.g. [0.04] is
    [dec 4 100]: the literal denotes the binary64 value nearest to the
    quotient, which is what the correctly rounded division returns. *)
Definition dec {num} `{JsNumber num} (m d : Z) : num :=
  (num_of_Z m / num_of_Z d)%js.

(** *** binary64 *)

Module F64.

Definition of_Z (z : Z) : float :=
  match z with
  | Z0 => PrimFloat.zero
  | Zpos _ => PrimFloat.of_uint63 (Uint63.of_Z z)
  | Zneg p => PrimFloat.opp (PrimFloat.of_uint63 (Uint63.of_Z (Zpos p)))
  end.

Definition is_zero (a : float) : bool := PrimFloat.eqb a PrimFloat.zero.

(** Sign bit of a zero: [1 / -0 = -Infinity]. *)
Definition is_neg_zero (a : float) : bool :=
  is_zero a && PrimFloat.ltb (PrimFloat.div PrimFloat.one a) PrimFloat.zero.

(** [Math.max]: NaN if either argument is NaN; [+0] is larger than [-0]. *)
Definition max (a b : float) : float :=
  if PrimFloat.is_nan a || PrimFloat.is_nan b then PrimFloat.nan
  else if PrimFloat.ltb a b then b
  else if PrimFloat.ltb b a then a
  else if is_neg_zero a then b else a.

(** [Math.min]: NaN if either argument is NaN; [-0] is smaller than [+0]. *)
Definition min (a b : float) : float :=
  if PrimFloat.is_nan a || PrimFloat.is_nan b then PrimFloat.nan
  else if PrimFloat.ltb a b then a
  else if PrimFloat.ltb b a then b
  else if is_neg_zero b then b else a.

Definition to_boolean (a : float) : bool :=
  negb (is_zero a || PrimFloat.is_nan a).

End F64.

#[export] Instance float_number : JsNumber float := {
  num_of_Z := F64.of_Z;
  num_add := PrimFloat.add;
  num_sub := PrimFloat.sub;
  num_mul := PrimFloat.mul;
  num_div := PrimFloat.div;
  Math_sqrt := PrimFloat.sqrt;
  Math_max := F64.max;
  Math_min := F64.min;
  truthy := F64.to_boolean
}.

(** ** Graph model (types.ts) *)

Inductive NodeType := account | device | ip | merchant.
Inductive EdgeType := shared_device | shared_ip | transaction | shared_merchant.

#[export] Instance NodeType_eq_dec : EqDecision NodeType.
Proof. solve_decision. Defined.
#[export] Instance EdgeType_eq_dec : EqDecision EdgeType.
Proof. solve_decision. Defined.

(** [GraphNode] carries optional [vx], [vy].  The nodes [buildGraph]
    returns never have them; the simulation's [localNodes] always do
    (they are created by [{ ...n, vx: 0, vy: 0 }]), so the two shapes
    are kept apart: [GraphNode] without and [SimNode] with velocities.
    On a [SimNode] the [!] assertions and [?? 0] of the source are
    identities. *)
Record GraphNode (num : Type) := mkNode {
  id : string;
  type : NodeType;
  risk : num;
  label : string;
  x : num;
  y : num
}.
Arguments mkNode {num}.
Arguments id {num}.
Arguments type {num}.
Arguments risk {num}.
Arguments label {num}.
Arguments x {num}.
Arguments y {num}.

Record SimNode (num : Type) := mkSim {
  node : GraphNode num;
  vx : num;
  vy : num
}.
Arguments mkSim {num}.
Arguments node {num}.
Arguments vx {num}.
Arguments vy {num}.

Record GraphEdge (num : Type) := mkEdge {
  source : string;
  target : string;
  weight : num;
  etype : EdgeType
}.
Arguments mkEdge {num}.
Arguments source {num}.
Arguments target {num}.
Arguments weight {num}.
Arguments etype {num}.

(** ** The force simulation ([useEffect] body of [GraphView]) *)

Section Simulation.
Context {num : Type} {JN : JsNumber num}.
Local Open Scope js_scope.

Definition W : num := num_of_Z 700.
Definition H : num := num_of_Z 440.
Definition ideal : num := num_of_Z 120.

(** In-place updates of one node object. *)
Definition add_velocity (fx fy : num) (n : SimNode num) : SimNode num :=
  mkSim (node n) (vx n + fx) (vy n + fy).
Definition sub_velocity (fx fy : num) (n : SimNode num) : SimNode num :=
  mkSim (node n) (vx n - fx) (vy n - fy).

(** [initNodes.map(n => ({ ...n, vx: 0, vy: 0 }))] *)
Definition init_local (initNodes : list (GraphNode num)) : list (SimNode num) :=
  map (fun n => mkSim n (num_of_Z 0) (num_of_Z 0)) initNodes.

(** Body of the inner repulsion loop for one pair [(i, j)]. *)
Definition repel_pair (i j : nat) (localNodes : list (SimNode num))
  : list (SimNode num) :=
  match localNodes !! i, localNodes !! j with
  | Some a, Some b =>
      let dx := x (node a) - x (node b) in
      let dy := y (node a) - y (node b) in
      let dist := num_or (Math_sqrt (dx * dx + dy * dy)) (num_of_Z 1) in
      let force := num_of_Z 1200 / (dist * dist) in
      let fx := (dx / dist) * force in
      let fy := (dy / dist) * force in
      alter (sub_velocity fx fy) j (alter (add_velocity fx fy) i localNodes)
  | _, _ => localNodes
  end.

(** [for (let j = i + 1; j < localNodes.length; j++)] *)
Definition repel_row (i : nat) (localNodes : list (SimNode num))
  : list (SimNode num) :=
  foldl (fun acc j => repel_pair i j acc) localNodes
        (seq (S i) (length localNodes - S i)).

(** [for (let i = 0; i < localNodes.length; i++)] *)
Definition repulsion (localNodes : list (SimNode num)) : list (SimNode num) :=
  foldl (fun acc i => repel_row i acc) localNodes (seq 0 (length localNodes)).

(** [localNodes.find(n => n.id === key)]: the first node with that id,
    as a reference (its index) together with its current contents. *)
Definition find_node (key : string) (localNodes : list (SimNode num))
  : option (nat * SimNode num) :=
  list_find (fun n => id (node n) = key) localNodes.

(** Body of the attraction loop for one edge. *)
Definition attract_edge (localNodes : list (SimNode num)) (e : GraphEdge num)
  : list (SimNode num) :=
  match find_node (source e) localNodes, find_node (target e) localNodes with
  | Some (i, s), Some (j, t) =>
      let dx := x (node t) - x (node s) in
      let dy := y (node t) - y (node s) in
      let dist := num_or (Math_sqrt (dx * dx + dy * dy)) (num_of_Z 1) in
      let force := (dist - ideal) * dec 4 100 in
      let fx := (dx / dist) * force in
      let fy := (dy / dist) * force in
      alter (sub_velocity fx fy) j (alter (add_velocity fx fy) i localNodes)
  | _, _ => localNodes (* [if (!s || !t) continue;] *)
  end.

(** The distance [Math.sqrt(dx * dx + dy * dy)] between two nodes, before
    the [|| 1]. *)
Definition separation (s t : SimNode num) : num :=
  let dx := x (node t) - x (node s) in
  let dy := y (node t) - y (node s) in
  Math_sqrt (dx * dx + dy * dy).

(** [for (const e of edgeMap)] *)
Definition attraction (edgeMap : list (GraphEdge num))
  (localNodes : list (SimNode num)) : list (SimNode num) :=
  foldl attract_edge localNodes edgeMap.

Definition gravity_node (n : SimNode num) : SimNode num :=
  mkSim (node n)
        (vx n + (W / num_of_Z 2 - x (node n)) * dec 5 1000)
        (vy n + (H / num_of_Z 2 - y (node n)) * dec 5 1000).

Definition gravity (localNodes : list (SimNode num)) : list (SimNode num) :=
  map gravity_node localNodes.

Definition clamp (lo hi v : num) : num := Math_max lo (Math_min hi v).

(** "Dampen + clamp": the velocity is damped first and the damped value
    is the one added to the position. *)
Definition integrate_node (n : SimNode num) : SimNode num :=
  let vx' := vx n * dec 85 100 in
  let vy' := vy n * dec 85 100 in
  let g := node n in
  mkSim (mkNode (id g) (type g) (risk g) (label g)
                (clamp (num_of_Z 20) (W - num_of_Z 20) (x g + vx'))
                (clamp (num_of_Z 20) (H - num_of_Z 20) (y g + vy')))
        vx' vy'.

Definition integrate (localNodes : list (SimNode num)) : list (SimNode num) :=
  map integrate_node localNodes.

(** One call of [tick], as far as [localNodes] is concerned. *)
Definition tick (edgeMap : list (GraphEdge num))
  (localNodes : list (SimNode num)) : list (SimNode num) :=
  integrate (gravity (attraction edgeMap (repulsion localNodes))).

End Simulation.

(** ** The synthetic graph ([buildGraph]) *)

(** [`${n}`] for an integer-valued number. *)
Definition string_of_Z (z : Z) : string := NilZero.string_of_int (Z.to_int z).

Section BuildGraph.
Context {num : Type} {JN : JsNumber num}.
Local Open Scope js_scope.

Record Cluster := mkCluster { cx : num; cy : num; color : num; count : Z }.

Definition clusters : list Cluster :=
  [ mkCluster (num_of_Z 180) (num_of_Z 160) (dec 85 100) 5;
    mkCluster (num_of_Z 500) (num_of_Z 280) (dec 72 100) 4;
    mkCluster (num_of_Z 340) (num_of_Z 380) (dec 2 10) 3 ].

(** Everything [buildGraph] derives from [Math.random], [Math.cos] and
    [Math.sin] (labels, satellite positions, satellite risks) is supplied
    by an oracle indexed by the node counter [nid]; ids, node types and
    the whole edge list do not depend on it. *)
Record Drawn := mkDrawn {
  d_risk : num; d_label : string; d_x : num; d_y : num
}.
Variable drawn : Z -> Drawn.

Record Builder := mkBuilder {
  b_nodes : list (GraphNode num);
  b_edges : list (GraphEdge num);
  b_nid : Z
}.

Definition push_node (n : GraphNode num) (b : Builder) : Builder :=
  mkBuilder (b_nodes b ++ [n]) (b_edges b) (b_nid b + 1)%Z.
Definition push_edge (e : GraphEdge num) (b : Builder) : Builder :=
  mkBuilder (b_nodes b) (b_edges b ++ [e]) (b_nid b).

Definition drawn_node (prefix : string) (t : NodeType) (nid : Z)
  : GraphNode num :=
  let d := drawn nid in
  mkNode (prefix +:+ string_of_Z nid) t (d_risk d) (d_label d) (d_x d) (d_y d).

(** Body of [for (let i = 0; i < cl.count; i++)]. *)
Definition add_account (hub : GraphNode num) (b : Builder) (i : Z) : Builder :=
  let acc := drawn_node "A" account (b_nid b) in
  let b := push_node acc b in
  let b := push_edge (mkEdge (id hub) (id acc) (num_of_Z 2) shared_device) b in
  if decide (i = 0%Z) then
    let merch := drawn_node "M" merchant (b_nid b) in
    let b := push_node merch b in
    push_edge (mkEdge (id acc) (id merch) (num_of_Z 1) transaction) b
  else b.

(** Body of [clusters.forEach((cl, ci) => ...)]. *)
Definition add_cluster (b : Builder) (entry : nat * Cluster) : Builder :=
  let '(ci, cl) := entry in
  let hub := mkNode ("D" +:+ string_of_Z (b_nid b)) device (color cl)
                    (d_label (drawn (b_nid b))) (cx cl) (cy cl) in
  let b := push_node hub b in
  let b := foldl (add_account hub) b (Z.of_nat <$> seq 0 (Z.to_nat (count cl))) in
  if decide (ci < length clusters - 1)%nat then
    let ipn := drawn_node "IP" ip (b_nid b) in
    let b := push_node ipn b in
    let b := push_edge (mkEdge (id hub) (id ipn) (dec 15 10) shared_ip) b in
    push_edge (mkEdge ("D" +:+ string_of_Z (b_nid b - 1 - count cl * 2))
                      (id ipn) (dec 15 10) shared_ip) b
  else b.

Definition buildGraph : list (GraphNode num) * list (GraphEdge num) :=
  let b := foldl add_cluster (mkBuilder [] [] 0) (imap pair clusters) in
  (b_nodes b, b_edges b).

End BuildGraph.

(** ** Selection and dimming (render part of [GraphView]) *)

(** The property names every plain object inherits from
    [Object.prototype] (ECMAScript, Object.prototype and Annex B).  Read
    on an object without an own property of that name, each yields the
    inherited member: a function, or for ["__proto__"] the prototype
    object itself. *)
Definition Object_prototype_keys : list string :=
  [ "constructor"; "hasOwnProperty"; "isPrototypeOf"; "propertyIsEnumerable";
    "toLocaleString"; "toString"; "valueOf"; "__proto__";
    "__defineGetter__"; "__defineSetter__";
    "__lookupGetter__"; "__lookupSetter__" ].

Section Interaction.
Context {num : Type}.

Definition touches (key : string) (e : GraphEdge num) : Prop :=
  source e = key \/ target e = key.

#[export] Instance touches_dec key e : Decision (touches key e).
Proof. unfold touches. apply _. Defined.

(** [new Set(edges.filter(...).flatMap(e => [e.source, e.target]))], or
    the empty set when nothing is selected. *)
Definition selNeighbors (edges : list (GraphEdge num))
  (selected : option (GraphNode num)) : gset string :=
  match selected with
  | Some sel =>
      list_to_set
        (flat_map (fun e => [source e; target e])
                  (filter (touches (id sel)) edges))
  | None => ∅
  end.

(** A plain object holding nodes, as [Object.fromEntries] builds it: its
    own properties, and [Object.prototype] as its prototype. *)
Record PlainObject := mkObject { obj_own : gmap string (GraphNode num) }.

(** [Object.fromEntries(entries)]: every entry becomes an own data
    property (also one keyed ["__proto__"]); a later entry replaces an
    earlier one with the same key. *)
Definition fromEntries (entries : list (string * GraphNode num)) : PlainObject :=
  mkObject (foldl (fun m kv => <[kv.1 := kv.2]> m) ∅ entries).

(** [Object.fromEntries(nodes.map(n => [n.id, n]))] *)
Definition nodeMap (nodes : list (GraphNode num)) : PlainObject :=
  fromEntries ((fun n => (id n, n)) <$> nodes).

(** What [o[key]] evaluates to: the own property if there is one,
    otherwise the member inherited from [Object.prototype] if [key] names
    one, otherwise [undefined]. *)
Inductive Member :=
| is_node (n : GraphNode num)
| is_inherited (key : string)
| is_undefined.

Definition obj_get (o : PlainObject) (key : string) : Member :=
  match obj_own o !! key with
  | Some n => is_node n
  | None =>
      if bool_decide (key ∈ Object_prototype_keys) then is_inherited key
      else is_undefined
  end.

(** ToBoolean: objects and functions are truthy, [undefined] is not. *)
Definition member_truthy (v : Member) : bool :=
  match v with
  | is_undefined => false
  | _ => true
  end.

(** [v.x] and [v.y] for a truthy [v]: the node's coordinate, and
    [undefined] on an inherited member (no member of [Object.prototype]
    has a property [x] or [y]). *)
Definition coordinate (f : GraphNode num -> num) (v : Member) : option num :=
  match v with
  | is_node n => Some (f n)
  | _ => None
  end.

(** [selected && !selNeighbors.has(e.source) && !selNeighbors.has(e.target)] *)
Definition dim (edges : list (GraphEdge num)) (selected : option (GraphNode num))
  (e : GraphEdge num) : bool :=
  match selected with
  | Some _ =>
      bool_decide (source e ∉ selNeighbors edges selected)
      && bool_decide (target e ∉ selNeighbors edges selected)
  | None => false
  end.

(** What the edge callback returns: nothing when [nodeMap[e.source]] or
    [nodeMap[e.target]] is falsy, otherwise the line with its endpoints
    ([None] is an [undefined] attribute), stroke width and dim flag. *)
Record Line := mkLine {
  x1 : option num; y1 : option num; x2 : option num; y2 : option num;
  strokeWidth : num;
  line_dim : bool
}.

Definition render_edge (nodes : list (GraphNode num))
  (edges : list (GraphEdge num)) (selected : option (GraphNode num))
  (e : GraphEdge num) : option Line :=
  let s := obj_get (nodeMap nodes) (source e) in
  let t := obj_get (nodeMap nodes) (target e) in
  if negb (member_truthy s) || negb (member_truthy t) then None
  else Some (mkLine (coordinate x s) (coordinate y s)
                    (coordinate x t) (coordinate y t)
                    (weight e) (dim edges selected e)).

(** [selected?.id === n.id] *)
Definition isSelected (selected : option (GraphNode num)) (n : GraphNode num)
  : bool :=
  match selected with
  | Some sel => bool_decide (id sel = id n)
  | None => false
  end.

(** [selected && !selNeighbors.has(n.id) && selected.id !== n.id] *)
Definition dimmed (edges : list (GraphEdge num))
  (selected : option (GraphNode num)) (n : GraphNode num) : bool :=
  match selected with
  | Some sel =>
      bool_decide (id n ∉ selNeighbors edges selected)
      && bool_decide (id sel ≠ id n)
  | None => false
  end.

(** The two independent pieces of interaction state and the three
    handlers attached to every node. *)
Record Ui := mkUi {
  hovered : option (GraphNode num);
  selected : option (GraphNode num)
}.

Inductive UiEvent :=
| onClick (n : GraphNode num)
| onMouseEnter (n : GraphNode num)
| onMouseLeave.

Definition ui_step (u : Ui) (ev : UiEvent) : Ui :=
  match ev with
  | onClick n =>
      mkUi (hovered u) (if isSelected (selected u) n then None else Some n)
  | onMouseEnter n => mkUi (Some n) (selected u)
  | onMouseLeave => mkUi None (selected u)
  end.

Definition ui_init : Ui := mkUi None None.

End Interaction.

(** ** Scheduling ([requestAnimationFrame], [setTimeout], effect cleanup) *)

Section Scheduler.
Context {num : Type} {JN : JsNumber num}.

(** The effect's private data together with the host's queue of frame
    requests and the 3 s timer.  Every frame request made by this effect
    carries [tick] as its callback, so a request is represented by its
    handle alone.

    What is assumed of the host: [requestAnimationFrame] queues the
    callback under a fresh handle and returns the handle; an animation
    frame runs, once each, the callbacks queued before it, and requests
    made meanwhile wait for the next frame; [cancelAnimationFrame]
    removes the handle from the queue and does nothing when it is not
    there; a timeout fires at most once and not after [clearTimeout];
    callbacks run one at a time.  [nodes] starts as the nodes
    [buildGraph] returned (shown with zero velocities). *)
Record Sched := mkSched {
  localNodes : list (SimNode num);
  nodes : list (SimNode num);       (* React state, set by [setNodes] *)
  animRef : nat;                    (* [animRef.current] *)
  frame_queue : list nat;           (* requested, neither run nor cancelled *)
  next_handle : nat;
  stop_armed : bool                 (* the [stop] timeout is pending *)
}.

(** [animRef.current = requestAnimationFrame(tick)] *)
Definition request_frame (s : Sched) : Sched :=
  mkSched (localNodes s) (nodes s) (next_handle s)
          (frame_queue s ++ [next_handle s]) (S (next_handle s)) (stop_armed s).

(** [cancelAnimationFrame(animRef.current)] *)
Definition cancel_frame (s : Sched) : Sched :=
  mkSched (localNodes s) (nodes s) (animRef s)
          (filter (fun h => h ≠ animRef s) (frame_queue s))
          (next_handle s) (stop_armed s).

(** One run of the [tick] callback. *)
Definition run_tick (edges : list (GraphEdge num)) (s : Sched) : Sched :=
  let moved := tick edges (localNodes s) in
  request_frame
    (mkSched moved moved (animRef s) (frame_queue s) (next_handle s)
             (stop_armed s)).

(** The effect body, run once on mount. *)
Definition mount (initNodes : list (GraphNode num)) : Sched :=
  let s := mkSched (init_local initNodes) (init_local initNodes) 0 [] 1 false in
  let s := request_frame s in
  mkSched (localNodes s) (nodes s) (animRef s) (frame_queue s) (next_handle s)
          true.

Inductive HostEvent :=
| AnimationFrame   (* the host runs the callbacks requested before this frame *)
| StopTimeout      (* the 3000 ms timer fires *)
| Cleanup.         (* the effect's cleanup function runs (unmount) *)

Definition disarm (s : Sched) : Sched :=
  mkSched (localNodes s) (nodes s) (animRef s) (frame_queue s) (next_handle s)
          false.

Definition host_step (edges : list (GraphEdge num)) (s : Sched)
  (ev : HostEvent) : Sched :=
  match ev with
  | AnimationFrame =>
      let due := frame_queue s in
      foldl (fun acc _ => run_tick edges acc)
            (mkSched (localNodes s) (nodes s) (animRef s) [] (next_handle s)
                     (stop_armed s))
            due
  | StopTimeout => if stop_armed s then disarm (cancel_frame s) else s
  | Cleanup => disarm (cancel_frame s)
  end.

Definition host_run (edges : list (GraphEdge num)) (s : Sched)
  (evs : list HostEvent) : Sched :=
  foldl (host_step edges) s evs.

(** The events that cancel the run. *)
Definition cancels (ev : HostEvent) : bool :=
  match ev with AnimationFrame => false | _ => true end.

End Scheduler.

(** ** Side panel of [GraphView] *)

Section SidePanel.
Context {num : Type}.

(** "Connections": [edges.filter(e => e.source === selected.id ||
    e.target === selected.id).length] *)
Definition connections (edges : list (GraphEdge num)) (sel : GraphNode num)
  : nat :=
  length (filter (touches (id sel)) edges).

(** The keys of [EDGE_COLOR], in order. *)
Definition EDGE_COLOR_keys : list EdgeType :=
  [shared_device; shared_ip; transaction; shared_merchant].

(** "Edge Types": [edges.filter(e => e.type === type).length] *)
Definition edge_type_count (edges : list (GraphEdge num)) (t : EdgeType) : nat :=
  length (filter (fun e => etype e = t) edges).

Definition ui_run (u : @Ui num) (evs : list (@UiEvent num)) : Ui :=
  foldl ui_step u evs.

End SidePanel.

(** ** Alert manager ([AlertsView], and [genAlerts] of the mock data) *)

Module Alerts.

Inductive AlertType :=
| fraud_ring | impossible_travel | velocity | tor_exit
| kyc_breach | card_testing | synthetic_id | account_takeover.

Inductive Severity := low | medium | high | critical.

#[export] Instance AlertType_eq_dec : EqDecision AlertType.
Proof. solve_decision. Defined.
#[export] Instance Severity_eq_dec : EqDecision Severity.
Proof. solve_decision. Defined.

Record Alert := mkAlert {
  id : string;
  type : AlertType;
  severity : Severity;
  title : string;
  desc : string;
  user_id : string;
  txn_id : string;
  created_at : string;
  resolved : bool
}.

(** [typeLabel] and [typeDesc] are only ever applied to an alert type,
    for which the table lookup succeeds ([m[t] ?? t] never falls back). *)
Definition typeLabel (t : AlertType) : string :=
  match t with
  | fraud_ring => "Fraud Ring Detected"
  | impossible_travel => "Impossible Travel"
  | velocity => "Velocity Spike"
  | tor_exit => "TOR Exit Node"
  | kyc_breach => "KYC Limit Breach"
  | card_testing => "Card Testing Pattern"
  | synthetic_id => "Synthetic Identity"
  | account_takeover => "Account Takeover"
  end.

Definition typeDesc (t : AlertType) : string :=
  match t with
  | fraud_ring => "Multiple accounts linked via shared device fingerprint"
  | impossible_travel =>
      "Transaction from two locations within impossible timeframe"
  | velocity => "User exceeded 30 transactions per hour"
  | tor_exit => "Transaction routed through TOR exit node"
  | kyc_breach => "Unverified user exceeded transaction limit"
  | card_testing => "Series of small probing transactions detected"
  | synthetic_id => "Identity documents show signs of forgery"
  | account_takeover =>
      "Login from new device + password change + high-value txn"
  end.

(** [Array.prototype.sort] with a comparator: the sort is stable, so for
    a comparator that orders consistently the result is the one
    arrangement that is sorted and keeps ties in their original order.
    It is computed here by inserting from the right: an element goes in
    front of everything it does not have to follow ([cmp a b > 0] means
    [b] comes first). *)
Fixpoint sort_insert {A} (cmp : A -> A -> Z) (a : A) (l : list A) : list A :=
  match l with
  | [] => [a]
  | b :: l' => if (0 <? cmp a b)%Z then b :: sort_insert cmp a l' else a :: l
  end.

Definition sort {A} (cmp : A -> A -> Z) (l : list A) : list A :=
  foldr (sort_insert cmp) [] l.

(** The comparator lets [a] stand in front of [b]. *)
Definition in_order {A} (cmp : A -> A -> Z) (a b : A) : Prop :=
  (cmp a b <= 0)%Z.

Section Component.
(** [new Date(s).getTime()] *)
Variable getTime : string -> Z.

(** What [genAlerts] takes from [Math.random] and [Date.now] for the
    alert of index [i]. *)
Record Draw := mkDraw {
  d_type : AlertType;
  d_severity : Severity;
  d_user_id : string;
  d_txn_id : string;
  d_created_at : string;
  d_resolved : bool
}.

Definition newest_first (a b : Alert) : Z :=
  (getTime (created_at b) - getTime (created_at a))%Z.

Definition gen_alert (draw : nat -> Draw) (i : nat) : Alert :=
  let d := draw i in
  mkAlert ("ALT-" +:+ string_of_Z (Z.of_nat i + 1000))
          (d_type d) (d_severity d)
          (typeLabel (d_type d)) (typeDesc (d_type d))
          (d_user_id d) (d_txn_id d) (d_created_at d) (d_resolved d).

Definition genAlerts (draw : nat -> Draw) (count : nat) : list Alert :=
  sort newest_first (gen_alert draw <$> seq 0 count).

Definition set_resolved (r : bool) (a : Alert) : Alert :=
  mkAlert (id a) (type a) (severity a) (title a) (desc a) (user_id a)
          (txn_id a) (created_at a) r.

(** [prev.map(a => a.id === id ? { ...a, resolved: true } : a)] *)
Definition resolve (key : string) (prev : list Alert) : list Alert :=
  (fun a => if decide (id a = key) then set_resolved true a else a) <$> prev.

(** The interval callback: [[fresh, ...prev].slice(0, 50)] with
    [fresh = genAlerts(1)[0]] and [fresh.resolved = false].  Indexing an
    empty array would make the next line throw; the list is then left
    as it is. *)
Definition arrive (draw : nat -> Draw) (prev : list Alert) : list Alert :=
  match genAlerts draw 1 !! 0%nat with
  | Some fresh => take 50 (set_resolved false fresh :: prev)
  | None => prev
  end.

(** Component state: the list and the three filter controls; the value
    "all" of a select is [None]. *)
Record View := mkView {
  alerts : list Alert;
  sevFilter : option Severity;
  typeFilter : option AlertType;
  showResolved : bool
}.

(** The predicate of [alerts.filter(a => ...)]. *)
Definition shown (v : View) (a : Alert) : bool :=
  if negb (showResolved v) && resolved a then false
  else if match sevFilter v with
          | Some s => bool_decide (severity a <> s)
          | None => false
          end then false
  else if match typeFilter v with
          | Some t => bool_decide (type a <> t)
          | None => false
          end then false
  else true.

Definition filtered (v : View) : list Alert :=
  filter (fun a => shown v a = true) (alerts v).

(** [alerts.filter(a => !a.resolved).length] *)
Definition unresolved (l : list Alert) : nat :=
  length (filter (fun a => resolved a = false) l).

(** [alerts.filter(a => a.severity === s && !a.resolved).length] *)
Definition bySev (l : list Alert) (s : Severity) : nat :=
  length (filter (fun a => severity a = s /\ resolved a = false) l).

Inductive Event :=
| Load (draw : nat -> Draw)        (* mount effect and the Refresh button *)
| TimerFires (draw : nat -> Draw)  (* the 10 s interval *)
| Resolve (key : string)
| SetSevFilter (s : option Severity)
| SetTypeFilter (t : option AlertType)
| SetShowResolved (b : bool).

Definition with_alerts (l : list Alert) (v : View) : View :=
  mkView l (sevFilter v) (typeFilter v) (showResolved v).

Definition step (v : View) (ev : Event) : View :=
  match ev with
  | Load draw => with_alerts (genAlerts draw 30) v
  | TimerFires draw => with_alerts (arrive draw (alerts v)) v
  | Resolve key => with_alerts (resolve key (alerts v)) v
  | SetSevFilter s => mkView (alerts v) s (typeFilter v) (showResolved v)
  | SetTypeFilter t => mkView (alerts v) (sevFilter v) t (showResolved v)
  | SetShowResolved b => mkView (alerts v) (sevFilter v) (typeFilter v) b
  end.

(** [useState] initial values. *)
Definition initial : View := mkView [] None None false.

Definition run (v : View) (evs : list Event) : View := foldl step v evs.

End Component.

End Alerts.

(** ** Transaction monitor ([TransactionsView]): filter and pages *)

Module Transactions.

(** [l.slice(from, to)] for [0 <= from <= to]. *)
Definition slice {A} (from to : nat) (l : list A) : list A :=
  take (to - from) (drop from l).

(** [Math.ceil(n / d)] for a count [n] and a positive [d]. *)
Definition ceil_div (n d : nat) : nat := (n + (d - 1)) / d.

Definition PAGE_SIZE : nat := 12.

Inductive Label := fraud | legitimate.

Section View.
Context {num : Type}.
(** [hay.toLowerCase().includes(needle.toLowerCase())] *)
Variable includes_lower : string -> string -> bool.

Record Transaction := mkTransaction {
  id : string;
  user_id : string;
  amount : num;
  currency : string;
  merchant : string;
  decision : string;
  risk : num;
  country : string;
  is_vpn : bool;
  latency_ms : num;
  created_at : string;
  label : option Label
}.

Record View := mkView {
  txns : list Transaction;
  search : string;
  decisionFilter : string;
  page : nat
}.

Definition matches (v : View) (t : Transaction) : bool :=
  let matchSearch :=
    bool_decide (search v = "")
    || includes_lower (id t) (search v)
    || includes_lower (user_id t) (search v)
    || includes_lower (merchant t) (search v) in
  let matchDec :=
    bool_decide (decisionFilter v = "all")
    || bool_decide (decision t = decisionFilter v) in
  matchSearch && matchDec.

Definition filtered (v : View) : list Transaction :=
  filter (fun t => matches v t = true) (txns v).

Definition paginated (v : View) : list Transaction :=
  slice (page v * PAGE_SIZE) ((page v + 1) * PAGE_SIZE) (filtered v).

Definition totalPages (v : View) : nat :=
  ceil_div (length (filtered v)) PAGE_SIZE.

Inductive Event :=
| SetSearch (s : string)
| SetDecisionFilter (d : string)
| Refresh (l : list Transaction)   (* [setTxns(genTxns(100))] *)
| Prev
| Next.

(** The Prev button is disabled on page 0 and the Next button when
    [page >= totalPages - 1]; a disabled button does nothing. *)
Definition step (v : View) (ev : Event) : View :=
  match ev with
  | SetSearch s => mkView (txns v) s (decisionFilter v) 0
  | SetDecisionFilter d => mkView (txns v) (search v) d 0
  | Refresh l => mkView l (search v) (decisionFilter v) (page v)
  | Prev =>
      if decide (page v = 0) then v
      else mkView (txns v) (search v) (decisionFilter v) (page v - 1)
  | Next =>
      if decide (Z.of_nat (totalPages v) - 1 <= Z.of_nat (page v))%Z then v
      else mkView (txns v) (search v) (decisionFilter v) (page v + 1)
  end.

Definition run (v : View) (evs : list Event) : View := foldl step v evs.

Definition is_refresh (ev : Event) : bool :=
  match ev with Refresh _ => true | _ => false end.

End View.

End Transactions.

(** ** KYC console ([KYCView] and [genKYCQueue]) *)

Module KYC.

Inductive Status := pending | in_review | approved | rejected.
Inductive DocType := passport | driving_license.

#[export] Instance Status_eq_dec : EqDecision Status.
Proof. solve_decision. Defined.

Section View.
Context {num : Type}.

Record KYCRecord := mkRecord {
  id : string;
  user_id : string;
  name : string;
  doc_type : DocType;
  submitted_at : string;
  status : Status;
  risk_flags : list string;
  kyc_score : num
}.

Definition set_status (st : Status) (r : KYCRecord) : KYCRecord :=
  mkRecord (id r) (user_id r) (name r) (doc_type r) (submitted_at r) st
           (risk_flags r) (kyc_score r).

(** What [genKYCQueue] takes from [Math.random] and [Date.now] for the
    record of index [i]. *)
Record Draw := mkDraw {
  d_user_id : string;
  d_name : string;
  d_doc_type : DocType;
  d_submitted_at : string;
  d_status : Status;
  d_risk_flags : list string;
  d_kyc_score : num
}.

Definition genKYCQueue (draw : nat -> Draw) (count : nat) : list KYCRecord :=
  (fun i =>
     let d := draw i in
     mkRecord ("KYC-" +:+ string_of_Z (1000 + Z.of_nat i))
              (d_user_id d) (d_name d) (d_doc_type d) (d_submitted_at d)
              (d_status d) (d_risk_flags d) (d_kyc_score d))
  <$> seq 0 count.

Record View := mkView {
  queue : list KYCRecord;
  selected : option KYCRecord;
  statusFilter : option Status   (* [None] is "all" *)
}.

(** [statusFilter === "all" || r.status === statusFilter] *)
Definition keeps (v : View) (r : KYCRecord) : bool :=
  match statusFilter v with
  | None => true
  | Some s => bool_decide (status r = s)
  end.

Definition filtered (v : View) : list KYCRecord :=
  filter (fun r => keeps v r = true) (queue v).

(** Body shared by [approve] and [reject]. *)
Definition decide_record (st : Status) (key : string) (v : View) : View :=
  mkView ((fun r => if decide (id r = key) then set_status st r else r)
            <$> queue v)
         (match selected v with
          | Some sel =>
              if decide (id sel = key) then Some (set_status st sel)
              else Some sel
          | None => None
          end)
         (statusFilter v).

Definition approve (key : string) (v : View) : View :=
  decide_record approved key v.
Definition reject (key : string) (v : View) : View :=
  decide_record rejected key v.

(** [queue.filter(r => r.status === s).length] *)
Definition stat (s : Status) (l : list KYCRecord) : nat :=
  length (filter (fun r => status r = s) l).

Inductive Event :=
| Load (draw : nat -> Draw)         (* mount effect and the refresh button *)
| Select (row : nat)                (* click on a row of the filtered list *)
| Approve (key : string)
| Reject (key : string)
| SetStatusFilter (f : option Status).

Definition step (v : View) (ev : Event) : View :=
  match ev with
  | Load draw => mkView (genKYCQueue draw 16) (selected v) (statusFilter v)
  | Select row =>
      match filtered v !! row with
      | Some rec => mkView (queue v) (Some rec) (statusFilter v)
      | None => v
      end
  | Approve key => approve key v
  | Reject key => reject key v
  | SetStatusFilter f => mkView (queue v) (selected v) f
  end.

Definition run (v : View) (evs : list Event) : View := foldl step v evs.

Definition is_load (ev : Event) : bool :=
  match ev with Load _ => true | _ => false end.

(** The record in the detail panel is one of the queue's records. *)
Definition panel_in_sync (v : View) : Prop :=
  match selected v with
  | Some sel => sel ∈ queue v
  | None => True
  end.

End View.

End KYC.

(** * Vocabulary of the statements *)

Section Vocabulary.
Context {num : Type} {JN : JsNumber num}.
Local Open Scope js_scope.

(** [Math.sqrt(dx * dx + dy * dy) || 1]: the length the attraction loop
    works with for an edge from [s] to [t]. *)
Definition edge_length (s t : SimNode num) : num :=
  num_or (separation s t) (num_of_Z 1).

(** [(dist - ideal) * 0.04] *)
Definition spring_scalar (s t : SimNode num) : num :=
  (edge_length s t - ideal) * dec 4 100.

(** The velocity change [(fx, fy)] the attraction loop computes for an
    edge from [s] to [t]. *)
Definition spring_force (s t : SimNode num) : num * num :=
  let dx := x (node t) - x (node s) in
  let dy := y (node t) - y (node s) in
  ((dx / edge_length s t) * spring_scalar s t,
   (dy / edge_length s t) * spring_scalar s t).

(** The two endpoints after that change and the integration step. *)
Definition sprung_source (s t : SimNode num) : SimNode num :=
  integrate_node (add_velocity (spring_force s t).1 (spring_force s t).2 s).
Definition sprung_target (s t : SimNode num) : SimNode num :=
  integrate_node (sub_velocity (spring_force s t).1 (spring_force s t).2 t).

Definition node_ids (ns : list (SimNode num)) : list string :=
  (fun n => id (node n)) <$> ns.

(** Both endpoints of the edge name a node of the session. *)
Definition resolves (ids : list string) (e : GraphEdge num) : Prop :=
  source e ∈ ids /\ target e ∈ ids.

#[export] Instance resolves_dec ids e : Decision (resolves ids e).
Proof. unfold resolves. apply _. Defined.

(** The part of a node the simulation reads and writes. *)
Definition motion (n : SimNode num) : string * (num * num) * (num * num) :=
  (id (node n), (x (node n), y (node n)), (vx n, vy n)).

(** The part of an edge that makes up the topology. *)
Definition ends (e : GraphEdge num) : string * string := (source e, target e).

Definition same_motion (a b : SimNode num) : Prop := motion a = motion b.

Definition set_weight (w : num) (e : GraphEdge num) : GraphEdge num :=
  mkEdge (source e) (target e) w (etype e).

(** The endpoint of [e] across from [key]. *)
Definition other_end (key : string) (e : GraphEdge num) : string :=
  if decide (source e = key) then target e else source e.

(** The nodes the selected node is joined to, one entry per incident
    edge (so a double edge lists its far end twice). *)
Definition adjacent (edges : list (GraphEdge num)) (sel : GraphNode num)
  : list string :=
  other_end (id sel) <$> filter (touches (id sel)) edges.

(** At most one frame request is outstanding, [animRef.current] holds its
    handle, and once the timer is no longer pending none is outstanding. *)
Definition sched_inv (s : @Sched num) : Prop :=
  (frame_queue s = [] \/ frame_queue s = [animRef s])
  /\ (stop_armed s = false -> frame_queue s = []).

(** Nothing is scheduled any more. *)
Definition stopped (s : @Sched num) : Prop := frame_queue s = [].

End Vocabulary.

Set Warnings "-inexact-float,-clear-no-such-hyp".
Local Open Scope string_scope.

(** ** binary64 *)

Definition within (lo hi v : float) : Prop :=
  PrimFloat.leb lo v = true /\ PrimFloat.leb v hi = true.

Definition in_canvas (n : SimNode float) : Prop :=
  within 20 680 (x (node n)) /\ within 20 420 (y (node n)).

(** Coordinates from 16 to 1000: the canvas with a margin around it, wide
    enough for every position [buildGraph] gives a node. *)
Definition in_view (n : SimNode float) : Prop :=
  within 16 1000 (x (node n)) /\ within 16 1000 (y (node n)).

(** A node resting at the point [(px, py)]. *)
Definition parked (px py : float) (n : SimNode float) : Prop :=
  x (node n) = px /\ y (node n) = py /\ vx n = 0%float /\ vy n = 0%float.

(** A positive number in [16, 1024), as every coordinate on the canvas
    is: finite, with exponent (of the 53-bit mantissa) from -48 to -43. *)
Definition on_grid (p : float) : Prop :=
  exists m e, Prim2SF p = S754_finite false m e /\ (-48 <= e <= -43)%Z.

(** A node at rest. *)
Definition resting (n : SimNode float) : Prop :=
  vx n = 0%float /\ vy n = 0%float.

(** [v] is a number with the sign of [q - p]: positive where [p < q],
    negative where [q < p]. *)
Definition heads (p q v : float) : Prop :=
  (PrimFloat.ltb p q = true -> PrimFloat.ltb 0 v = true)
  /\ (PrimFloat.ltb q p = true -> PrimFloat.ltb v 0 = true).

(** The velocity of [a'] points from where [a] is to the side where [b]
    is, in each coordinate in which the two differ; and to the opposite
    side. *)
Definition moving_towards (a b a' : SimNode float) : Prop :=
  heads (x (node a)) (x (node b)) (vx a')
  /\ heads (y (node a)) (y (node b)) (vy a').

Definition moving_away (a b a' : SimNode float) : Prop :=
  heads (x (node b)) (x (node a)) (vx a')
  /\ heads (y (node b)) (y (node a)) (vy a').

(** What adding or subtracting a zero does to a number: nothing, or it
    turns [-0] into [+0]. *)
Definition same_number (v v' : float) : Prop :=
  v' = v \/ (v = PrimFloat.neg_zero /\ v' = PrimFloat.zero).

(** [n'] is the node [n] with the same numbers as velocity, and no
    velocity component has turned into NaN. *)
Definition undisturbed (n n' : SimNode float) : Prop :=
  node n' = node n
  /\ same_number (vx n) (vx n') /\ same_number (vy n) (vy n')
  /\ PrimFloat.is_nan (vx n') = PrimFloat.is_nan (vx n)
  /\ PrimFloat.is_nan (vy n') = PrimFloat.is_nan (vy n).

(** Where every node of a session placed at [(px, py)] is after one tick. *)
Definition drifted (px py : float) : float * float :=
  (F64.max 20 (F64.min 680 (px + (0 + (350 - px) * 0.005) * 0.85)),
   F64.max 20 (F64.min 420 (py + (0 + (220 - py) * 0.005) * 0.85)))%float.

(** ** Sign and magnitude of binary64 numbers

    Vocabulary for statements about what an operation of the spec
    ([SFadd], [SFmul], ... of [SpecFloat], which the primitive floats
    obey) returns, up to a power of two. *)

Module Magnitude.
Local Open Scope Z_scope.

(** The number of low digits [shr_fexp] drops from [m * 2 ^ e]. *)
Definition drop (m e : Z) : Z :=
  Z.max 0 (fexp prec emax (Zdigits2 m + e) - e).

(** Non-zero, with sign [s], and at least [2 ^ (lo - 1)] in absolute
    value (or infinite). *)
Definition sf_big (s : bool) (lo : Z) (x : spec_float) : Prop :=
  match x with
  | S754_infinity s' => s' = s
  | S754_finite s' m e => s' = s /\ lo <= Zpos (digits2_pos m) + e
  | _ => False
  end.

(** Finite, and less than [2 ^ hi] in absolute value. *)
Definition sf_small (hi : Z) (x : spec_float) : Prop :=
  match x with
  | S754_zero _ => True
  | S754_finite _ m e => Zpos (digits2_pos m) + e <= hi
  | _ => False
  end.

(** Finite and not negative (a zero of either sign counts). *)
Definition sf_pos (hi : Z) (x : spec_float) : Prop :=
  match x with
  | S754_zero _ => True
  | S754_finite false m e => Zpos (digits2_pos m) + e <= hi
  | _ => False
  end.

(** The number 120. *)
Definition sf_ideal : spec_float := S754_finite false 8444249301319680 (-46).

End Magnitude.

(** ** Sample graphs *)

Definition far_apart : list (GraphNode float) :=
  [ mkNode "a" account 0.5%float "" 1e308%float 100%float;
    mkNode "b" account 0.5%float "" (-1e308)%float 100%float ].

Definition same_spot : list (GraphNode float) :=
  [ mkNode "a" account 0.5%float "" 100%float 100%float;
    mkNode "b" device 0.9%float "" 100%float 100%float ].

(** Two nodes 300 apart, and two nodes 50 apart. *)
Definition stretched : list (GraphNode float) :=
  [ mkNode "a" account 0.5%float "" 100%float 100%float;
    mkNode "b" device 0.9%float "" 400%float 100%float ].

Definition squeezed : list (GraphNode float) :=
  [ mkNode "a" account 0.5%float "" 100%float 100%float;
    mkNode "b" device 0.9%float "" 130%float 140%float ].

(** Two nodes on one point and a third node elsewhere. *)
Definition crowded : list (GraphNode float) :=
  [ mkNode "a" account 0.5%float "" 100%float 100%float;
    mkNode "b" device 0.9%float "" 100%float 100%float;
    mkNode "c" account 0.5%float "" 300%float 100%float ].

(** Random draws used for the concrete runs: node number [nid] is put at
    [(40 + 30 nid, 40 + 15 nid)]. *)
Definition spread (nid : Z) : @Drawn float :=
  mkDrawn 0.5%float "" (F64.of_Z (40 + 30 * nid)) (F64.of_Z (40 + 15 * nid)).

Definition picked : GraphNode float :=
  mkNode "n" account 0.5%float "USR-N" 100%float 100%float.

(** A double edge between n and A (one stored in each direction) and a
    single edge to B. *)
Definition double_edge : list (GraphEdge float) :=
  [ mkEdge "n" "A" 2%float shared_device;
    mkEdge "A" "n" 1%float transaction;
    mkEdge "n" "B" 1.5%float shared_ip ].

(** n joined to A and to B, and an edge between A and B. *)
Definition triangle : list (GraphEdge float) :=
  [ mkEdge "n" "A" 2%float shared_device;
    mkEdge "n" "B" 2%float shared_device;
    mkEdge "A" "B" 1%float transaction ].

(** ** Further vocabulary *)

Section MoreVocabulary.
Context {num : Type}.

(** What identifies and describes a node, as opposed to where it is. *)
Definition identity (n : SimNode num)
  : string * NodeType * num * string :=
  (id (node n), type (node n), risk (node n), label (node n)).

Definition is_click (ev : @UiEvent num) : bool :=
  match ev with onClick _ => true | _ => false end.

End MoreVocabulary.

(** Sample inputs of the list views: what the generators draw, and a
    stand-in for [new Date(iso).getTime()] (the statements below hold for
    every such function). *)
Definition sample_kyc_draw (i : nat) : @KYC.Draw float :=
  KYC.mkDraw "USR-AB12CD" "Alice Chen" KYC.passport "2026-01-01T00:00:00.000Z"
             (if Nat.even i then KYC.pending else KYC.in_review) [] 0.8%float.

Definition sample_alert_draw (i : nat) : Alerts.Draw :=
  Alerts.mkDraw Alerts.velocity Alerts.high "USR-AB12CD" "TXN-AB12CD34E"
                "2026-01-01T00:00:00.000Z" (Nat.even i).

Definition sample_time (iso : string) : Z := Z.of_nat (String.length iso).

(** * Properties *)

(** The decimal literals of the source are the quotients used above. *)
Lemma dec_literals :
  dec 4 100 = 0.04%float /\ dec 5 1000 = 0.005%float
  /\ dec 85 100 = 0.85%float /\ dec 15 10 = 1.5%float.
Proof. repeat split; reflexivity. Qed.

(** ** Facts about binary64 comparisons, [Math.max] / [Math.min] and
       subtraction *)

Module F64Facts.

Lemma ltb_leb (a b : float) : PrimFloat.ltb a b = true -> PrimFloat.leb a b = true.
Proof.
  rewrite ltb_spec, leb_spec. unfold SFltb, SFleb.
  destruct (SFcompare _ _) as [[]|]; congruence.
Qed.


Lemma SFcompare_refl (a : spec_float) :
  a <> S754_nan -> SFcompare a a = Some Eq.
Proof.
  destruct a as [s|s| |s m e]; try destruct s; cbn; try congruence;
    intros _; rewrite Z.compare_refl, Pos.compare_cont_refl; reflexivity.
Qed.

Lemma is_nan_false (a : float) :
  PrimFloat.is_nan a = false <-> Prim2SF a <> S754_nan.
Proof.
  unfold PrimFloat.is_nan. rewrite FloatAxioms.eqb_spec. unfold SFeqb. split.
  - intros Hc Hn. rewrite Hn in Hc. discriminate.
  - intros Hn. rewrite SFcompare_refl by assumption. reflexivity.
Qed.

Lemma leb_refl (a : float) : PrimFloat.is_nan a = false -> PrimFloat.leb a a = true.
Proof.
  rewrite is_nan_false, leb_spec. intros Hn. unfold SFleb.
  rewrite SFcompare_refl by assumption. reflexivity.
Qed.

Lemma ltb_not_nan (a b : float) :
  PrimFloat.ltb a b = true -> PrimFloat.is_nan a = false /\ PrimFloat.is_nan b = false.
Proof.
  rewrite ltb_spec, !is_nan_false. unfold SFltb.
  destruct (Prim2SF a), (Prim2SF b); cbn; try discriminate; split; discriminate.
Qed.

Lemma zero_ltb (v hi : float) :
  F64.is_zero v = true -> PrimFloat.ltb PrimFloat.zero hi = true ->
  PrimFloat.ltb v hi = true.
Proof.
  unfold F64.is_zero. rewrite FloatAxioms.eqb_spec, !ltb_spec. 
  change (Prim2SF PrimFloat.zero) with (S754_zero false).
  destruct (Prim2SF v) as [s|s| |s m e]; destruct (Prim2SF hi) as [s'|s'| |s' m' e']; 
  try destruct s; try destruct s'; cbn; congruence.
Qed.

Lemma pos_not_neg_zero (a : float) :
  PrimFloat.ltb PrimFloat.zero a = true -> F64.is_neg_zero a = false.
Proof.
  intros Ha. unfold F64.is_neg_zero. 
  destruct (F64.is_zero a) eqn:Hz; [|reflexivity].
  exfalso. revert Ha Hz. unfold F64.is_zero. rewrite FloatAxioms.eqb_spec, ltb_spec.
  change (Prim2SF PrimFloat.zero) with (S754_zero false).
  destruct (Prim2SF a) as [s|s| |s m e]; try destruct s; cbn; congruence.
Qed.

Lemma clamp_range (lo hi v : float) :
  PrimFloat.ltb PrimFloat.zero lo = true ->
  PrimFloat.ltb PrimFloat.zero hi = true ->
  PrimFloat.ltb lo hi = true ->
  PrimFloat.is_nan v = false ->
  PrimFloat.leb lo (F64.max lo (F64.min hi v)) = true /\
  PrimFloat.leb (F64.max lo (F64.min hi v)) hi = true.
Proof.
  intros Hlo Hhi Hlh Hv.
  destruct (ltb_not_nan _ _ Hlh) as [Nlo Nhi].
  assert (Hmax_hi : F64.max lo hi = hi).
  { unfold F64.max. rewrite Nlo, Nhi, Hlh. reflexivity. }
  assert (Hdone : PrimFloat.leb lo hi = true /\ PrimFloat.leb hi hi = true).
  { split; [apply ltb_leb; assumption | apply leb_refl; assumption]. }
  unfold F64.min at 1 2. rewrite Nhi, Hv. cbn [orb].
  destruct (PrimFloat.ltb hi v) eqn:Hhv; [rewrite Hmax_hi; exact Hdone|].
  destruct (PrimFloat.ltb v hi) eqn:Hvh.
  - unfold F64.max. rewrite Nlo, Hv. cbn [orb].
    destruct (PrimFloat.ltb lo v) eqn:Hlv; [split; apply ltb_leb; assumption|].
    assert (Hll : PrimFloat.leb lo lo = true /\ PrimFloat.leb lo hi = true).
    { split; [apply leb_refl; assumption | apply ltb_leb; assumption]. }
    destruct (PrimFloat.ltb v lo); [exact Hll|].
    rewrite (pos_not_neg_zero lo Hlo). exact Hll.
  - destruct (F64.is_neg_zero v) eqn:Hz; [|rewrite Hmax_hi; exact Hdone].
    exfalso. unfold F64.is_neg_zero in Hz. apply andb_prop in Hz as [Hz _].
    rewrite (zero_ltb v hi Hz Hhi) in Hvh. discriminate.
Qed.

Lemma clamp_nan (lo hi v : float) :
  PrimFloat.is_nan v = true -> F64.max lo (F64.min hi v) = PrimFloat.nan.
Proof.
  intros Hv. unfold F64.min. rewrite Hv, orb_true_r.
  unfold F64.max. change (PrimFloat.is_nan nan) with true. rewrite orb_true_r. reflexivity.
Qed.

Lemma is_finite_SF (a : float) :
  PrimFloat.is_finite a = true ->
  (exists s, Prim2SF a = S754_zero s) \/ (exists s m e, Prim2SF a = S754_finite s m e).
Proof.
  unfold PrimFloat.is_finite, PrimFloat.is_nan, PrimFloat.is_infinity.
  rewrite !FloatAxioms.eqb_spec, abs_spec.
  change (Prim2SF infinity) with (S754_infinity false).
  destruct (Prim2SF a) as [s|s| |s m e]; try destruct s; cbn; try discriminate; eauto.
Qed.

Lemma sub_diag (a : float) : PrimFloat.is_finite a = true -> PrimFloat.sub a a = PrimFloat.zero.
Proof.
  intros Hf. apply Prim2SF_inj. rewrite sub_spec.
  change (Prim2SF PrimFloat.zero) with (S754_zero false).
  destruct (is_finite_SF a Hf) as [[s ->]|(s & m & e & ->)].
  - destruct s; reflexivity.
  - unfold SF64sub, SFsub. rewrite Z.sub_diag. reflexivity.
Qed.

(** Adding and subtracting zeros. *)
Lemma add_zero (v : float) : same_number v (v + 0)%float.
Proof.
  unfold same_number.
  destruct (Prim2SF v) as [[|]|[|]| |s m e] eqn:Hv;
    try (left; apply Prim2SF_inj; rewrite add_spec, Hv; reflexivity).
  right. split; apply Prim2SF_inj; [rewrite Hv | rewrite add_spec, Hv]; reflexivity.
Qed.

Lemma sub_zero (v : float) : (v - 0 = v)%float.
Proof.
  apply Prim2SF_inj. rewrite sub_spec.
  destruct (Prim2SF v) as [[|]|[|]| |s m e]; reflexivity.
Qed.

Lemma add_neg_zero (v : float) : (v + neg_zero = v)%float.
Proof.
  apply Prim2SF_inj. rewrite add_spec.
  destruct (Prim2SF v) as [[|]|[|]| |s m e]; reflexivity.
Qed.

Lemma sub_neg_zero (v : float) : same_number v (v - neg_zero)%float.
Proof.
  unfold same_number.
  destruct (Prim2SF v) as [[|]|[|]| |s m e] eqn:Hv;
    try (left; apply Prim2SF_inj; rewrite sub_spec, Hv; reflexivity).
  right. split; apply Prim2SF_inj; [rewrite Hv | rewrite sub_spec, Hv]; reflexivity.
Qed.

Lemma same_number_nan (v v' : float) :
  same_number v v' -> PrimFloat.is_nan v' = PrimFloat.is_nan v.
Proof. intros [->|[-> ->]]; reflexivity. Qed.

End F64Facts.

(** ** C3: positions after a tick and the canvas bounds *)

Lemma integrate_node_x (n : SimNode float) :
  x (node (integrate_node n))
  = F64.max 20 (F64.min 680 (x (node n) + vx n * 0.85))%float.
Proof. reflexivity. Qed.

Lemma integrate_node_y (n : SimNode float) :
  y (node (integrate_node n))
  = F64.max 20 (F64.min 420 (y (node n) + vy n * 0.85))%float.
Proof. reflexivity. Qed.

Lemma clamp_number (lo hi v : float) :
  PrimFloat.ltb 0 lo = true -> PrimFloat.ltb 0 hi = true ->
  PrimFloat.ltb lo hi = true ->
  PrimFloat.is_nan (F64.max lo (F64.min hi v)) = false ->
  within lo hi (F64.max lo (F64.min hi v)).
Proof.
  intros Hlo Hhi Hlh Hr.
  destruct (PrimFloat.is_nan v) eqn:Hv.
  - rewrite (F64Facts.clamp_nan lo hi v Hv) in Hr. discriminate.
  - apply F64Facts.clamp_range; assumption.
Qed.

(** C3 (amended): after a tick every coordinate that is a number lies
    within the canvas minus the margin: x in [20, 680], y in [20, 420],
    whatever the positions and velocities were before. *)
Theorem tick_clamps_every_number
  (edgeMap : list (GraphEdge float)) (localNodes : list (SimNode float))
  (n : SimNode float) :
  n ∈ tick edgeMap localNodes ->
  (PrimFloat.is_nan (x (node n)) = false -> within 20 680 (x (node n))) /\
  (PrimFloat.is_nan (y (node n)) = false -> within 20 420 (y (node n))).
Proof.
  unfold tick, integrate. intros Hin.
  apply list_elem_of_fmap in Hin as (m & -> & _).
  rewrite integrate_node_x, integrate_node_y.
  split; intros Hnum; apply clamp_number; solve [reflexivity | exact Hnum].
Qed.

(** A NaN coordinate is not repaired by the clamp. *)
Lemma integrate_keeps_nan (n : SimNode float) :
  PrimFloat.is_nan (x (node n) + vx n * 0.85)%float = true ->
  x (node (integrate_node n)) = PrimFloat.nan.
Proof. intros Hv. rewrite integrate_node_x. apply F64Facts.clamp_nan, Hv. Qed.

Lemma tick_clamps_every_number_witness :
  let n := mkSim (mkNode "a" account 0.5%float "" 103.75700000000001%float
                         100.51000000000001%float)
                 3.7569999999999997%float 0.51000000000000001%float in
  within 20 680 (x (node n)) /\ within 20 420 (y (node n)).
Proof.
  intros n.
  pose proof (tick_clamps_every_number
                [mkEdge "a" "b" 1%float transaction]
                (init_local [ mkNode "a" account 0.5%float "" 100%float 100%float;
                              mkNode "b" account 0.5%float "" 300%float 100%float ])
                n) as Hn.
  destruct Hn as [Hx Hy].
  - vm_compute. apply list_elem_of_here.
  - split; [apply Hx | apply Hy]; reflexivity.
Defined.

(** C3 as stated fails: from finite positions 1e308 and -1e308 the
    pairwise difference overflows, the repulsion becomes
    [(Infinity / Infinity) * 0 = NaN], and the clamp returns NaN. *)
Lemma tick_can_leave_canvas :
  ~ (forall (edgeMap : list (GraphEdge float)) (localNodes : list (SimNode float))
            (n : SimNode float),
        n ∈ tick edgeMap localNodes -> in_canvas n).
Proof.
  intros Hall.
  destruct (Hall [] (init_local far_apart)
                 (mkSim (mkNode "a" account 0.5%float "" PrimFloat.nan
                                100.51000000000001%float)
                        PrimFloat.nan 0.51000000000000001%float))
    as [[Hlo _] _].
  - vm_compute. apply list_elem_of_here.
  - vm_compute in Hlo. discriminate.
Qed.

(** ** C2: coincident nodes *)

Lemma foldl_fixed {A B} (f : A -> B -> A) (a : A) (l : list B) :
  (forall b, f a b = a) -> foldl f a l = a.
Proof. intros Hf. induction l as [|b l IH]; cbn; [reflexivity|]. rewrite Hf. exact IH. Qed.

Lemma alter_fixed {A} (P : A -> Prop) (f : A -> A) (i : nat) (l : list A) :
  Forall P l -> (forall a, P a -> f a = a) -> alter f i l = l.
Proof.
  intros Hl Hf. revert i. induction Hl as [|a l Ha Hl IH]; intros [|i]; cbn;
    [reflexivity | reflexivity | rewrite Hf by assumption; reflexivity
    | rewrite IH; reflexivity].
Qed.

Section Coincident.
Variables px py : float.
Hypothesis px_finite : PrimFloat.is_finite px = true.
Hypothesis py_finite : PrimFloat.is_finite py = true.

Lemma parked_lookup (ns : list (SimNode float)) (i : nat) (n : SimNode float) :
  Forall (parked px py) ns -> ns !! i = Some n -> parked px py n.
Proof. intros Hns Hi. exact (proj1 (Forall_lookup _ _) Hns i n Hi). Qed.

Lemma parked_keeps_still (fx fy : float) (n : SimNode float) :
  parked px py n ->
  (0 + fx = 0)%float -> (0 + fy = 0)%float -> add_velocity fx fy n = n.
Proof.
  intros (_ & _ & Hvx & Hvy) Hfx Hfy. destruct n as [g v w]; cbn in *.
  subst v w. unfold add_velocity; cbn. rewrite Hfx, Hfy. reflexivity.
Qed.

Lemma parked_keeps_still_sub (fx fy : float) (n : SimNode float) :
  parked px py n ->
  (0 - fx = 0)%float -> (0 - fy = 0)%float -> sub_velocity fx fy n = n.
Proof.
  intros (_ & _ & Hvx & Hvy) Hfx Hfy. destruct n as [g v w]; cbn in *.
  subst v w. unfold sub_velocity; cbn. rewrite Hfx, Hfy. reflexivity.
Qed.

(** The [|| 1] floor turns the distance 0 into 1, the direction
    [(0 / 1, 0 / 1)] is zero, so the repulsion adds [0] to both nodes. *)
Lemma repel_pair_coincident (i j : nat) (ns : list (SimNode float)) :
  Forall (parked px py) ns -> repel_pair i j ns = ns.
Proof.
  intros Hns. unfold repel_pair.
  destruct (ns !! i) as [a|] eqn:Hi; [|reflexivity].
  destruct (ns !! j) as [b|] eqn:Hj; [|reflexivity].
  destruct (parked_lookup ns i a Hns Hi) as (Hax & Hay & _).
  destruct (parked_lookup ns j b Hns Hj) as (Hbx & Hby & _).
  rewrite Hax, Hay, Hbx, Hby. cbn [num_sub float_number].
  rewrite !F64Facts.sub_diag by assumption.
  rewrite (alter_fixed (parked px py) _ i ns Hns).
  - apply (alter_fixed (parked px py)); [exact Hns|].
    intros n Hn. apply parked_keeps_still_sub; [exact Hn | reflexivity..].
  - intros n Hn. apply parked_keeps_still; [exact Hn | reflexivity..].
Qed.

Lemma repulsion_coincident (ns : list (SimNode float)) :
  Forall (parked px py) ns -> repulsion ns = ns.
Proof.
  intros Hns. unfold repulsion. apply foldl_fixed. intros i.
  unfold repel_row. apply foldl_fixed. intros j.
  apply repel_pair_coincident, Hns.
Qed.

Lemma find_node_parked (key : string) (ns : list (SimNode float)) i n :
  Forall (parked px py) ns -> find_node key ns = Some (i, n) -> parked px py n.
Proof.
  intros Hns Hf. apply list_find_Some in Hf as (Hi & _).
  exact (parked_lookup ns i n Hns Hi).
Qed.

(** Likewise the spring force along an edge between coincident nodes
    is [(0 / 1) * ((1 - 120) * 0.04) = -0]. *)
Lemma attract_edge_coincident (ns : list (SimNode float)) (e : GraphEdge float) :
  Forall (parked px py) ns -> attract_edge ns e = ns.
Proof.
  intros Hns. unfold attract_edge.
  destruct (find_node (source e) ns) as [[i s]|] eqn:Hs; [|reflexivity].
  destruct (find_node (target e) ns) as [[j t]|] eqn:Ht; [|reflexivity].
  destruct (find_node_parked _ ns i s Hns Hs) as (Hsx & Hsy & _).
  destruct (find_node_parked _ ns j t Hns Ht) as (Htx & Hty & _).
  rewrite Hsx, Hsy, Htx, Hty. cbn [num_sub float_number].
  rewrite !F64Facts.sub_diag by assumption.
  rewrite (alter_fixed (parked px py) _ i ns Hns).
  - apply (alter_fixed (parked px py)); [exact Hns|].
    intros n Hn. apply parked_keeps_still_sub; [exact Hn | reflexivity..].
  - intros n Hn. apply parked_keeps_still; [exact Hn | reflexivity..].
Qed.

Lemma attraction_coincident (edgeMap : list (GraphEdge float))
  (ns : list (SimNode float)) :
  Forall (parked px py) ns -> attraction edgeMap ns = ns.
Proof.
  intros Hns. unfold attraction. apply foldl_fixed. intros e.
  apply attract_edge_coincident, Hns.
Qed.

Lemma init_local_parked (initNodes : list (GraphNode float)) :
  Forall (fun g => x g = px /\ y g = py) initNodes ->
  Forall (parked px py) (init_local initNodes).
Proof.
  intros Hg. unfold init_local. apply Forall_fmap.
  eapply Forall_impl; [exact Hg|]. intros g [Hx Hy]. repeat split; assumption.
Qed.

End Coincident.

(** A session all of whose nodes rest on one finite point: no force
    arises at all, and after the tick the nodes sit on one common
    point. *)
Lemma coincident_session_stays_together
  (px py : float) (initNodes : list (GraphNode float))
  (edgeMap : list (GraphEdge float)) :
  PrimFloat.is_finite px = true -> PrimFloat.is_finite py = true ->
  Forall (fun g => x g = px /\ y g = py) initNodes ->
  repulsion (init_local initNodes) = init_local initNodes /\
  attraction edgeMap (init_local initNodes) = init_local initNodes /\
  forall n, n ∈ tick edgeMap (init_local initNodes) ->
            (x (node n), y (node n)) = drifted px py.
Proof.
  intros Hpx Hpy Hg.
  pose proof (init_local_parked px py initNodes Hg) as Hns.
  assert (Hrep := repulsion_coincident px py Hpx Hpy _ Hns).
  assert (Hatt := attraction_coincident px py Hpx Hpy edgeMap _ Hns).
  split; [exact Hrep|]. split; [exact Hatt|].
  intros n Hn. unfold tick in Hn. rewrite Hrep, Hatt in Hn.
  unfold integrate, gravity in Hn.
  apply list_elem_of_fmap in Hn as (m & -> & Hm).
  apply list_elem_of_fmap in Hm as (k & -> & Hk).
  destruct (proj1 (Forall_forall _ _) Hns k Hk) as (Hx & Hy & Hvx & Hvy).
  unfold drifted. rewrite integrate_node_x, integrate_node_y.
  cbn [gravity_node node vx vy]. rewrite Hx, Hy, Hvx, Hvy. reflexivity.
Qed.

Section CoincidentPair.
Variables (ns : list (SimNode float)) (i j : nat) (a b : SimNode float).
Hypothesis at_i : ns !! i = Some a.
Hypothesis at_j : ns !! j = Some b.
Hypothesis same_x : x (node a) = x (node b).
Hypothesis same_y : y (node a) = y (node b).
Hypothesis x_finite : PrimFloat.is_finite (x (node a)) = true.
Hypothesis y_finite : PrimFloat.is_finite (y (node a)) = true.

Lemma undisturbed_refl (n : SimNode float) : undisturbed n n.
Proof. repeat split; left; reflexivity. Qed.

Lemma add_zero_undisturbed (n : SimNode float) :
  undisturbed n (add_velocity 0%float 0%float n).
Proof.
  pose proof (F64Facts.add_zero (vx n)) as Hx.
  pose proof (F64Facts.add_zero (vy n)) as Hy.
  repeat split; cbn; first [ assumption | apply F64Facts.same_number_nan; assumption ].
Qed.

Lemma sub_neg_zero_undisturbed (n : SimNode float) :
  undisturbed n (sub_velocity neg_zero neg_zero n).
Proof.
  pose proof (F64Facts.sub_neg_zero (vx n)) as Hx.
  pose proof (F64Facts.sub_neg_zero (vy n)) as Hy.
  repeat split; cbn; first [ assumption | apply F64Facts.same_number_nan; assumption ].
Qed.

Lemma alter_undisturbed (f : SimNode float -> SimNode float) (k : nat) :
  (forall n, undisturbed n (f n)) -> Forall2 undisturbed ns (alter f k ns).
Proof.
  intros Hf. apply Forall2_alter_r.
  - apply Forall_Forall2_diag, Forall_forall. intros n _. apply undisturbed_refl.
  - intros n1 n2 H1 H2 _. assert (n1 = n2) as -> by congruence. apply Hf.
Qed.

(** The distance 0 is floored to 1 and the direction is [(0 / 1, 0 / 1)]:
    the repulsion between the two nodes is [0 * 1200 = 0]. *)
Lemma repel_pair_zero_force :
  repel_pair i j ns = alter (add_velocity 0%float 0%float) i ns.
Proof.
  unfold repel_pair. rewrite at_i, at_j. cbn [num_sub float_number].
  rewrite <- same_x, <- same_y, !F64Facts.sub_diag by assumption.
  change (alter (sub_velocity 0%float 0%float) j
            (alter (add_velocity 0%float 0%float) i ns)
          = alter (add_velocity 0%float 0%float) i ns).
  apply list_alter_id. intros [g v w]. unfold sub_velocity. cbn.
  rewrite !F64Facts.sub_zero. reflexivity.
Qed.

(** Along an edge between them the spring force is
    [0 * ((1 - 120) * 0.04) = -0]. *)
Lemma attract_edge_zero_force (e : GraphEdge float) :
  find_node (source e) ns = Some (i, a) ->
  find_node (target e) ns = Some (j, b) ->
  attract_edge ns e = alter (sub_velocity neg_zero neg_zero) j ns.
Proof.
  intros Hs Ht. unfold attract_edge. rewrite Hs, Ht. cbn [num_sub float_number].
  rewrite same_x, same_y, !F64Facts.sub_diag by congruence.
  change (alter (sub_velocity neg_zero neg_zero) j
            (alter (add_velocity neg_zero neg_zero) i ns)
          = alter (sub_velocity neg_zero neg_zero) j ns).
  f_equal. apply list_alter_id. intros [g v w]. unfold add_velocity. cbn.
  rewrite !F64Facts.add_neg_zero. reflexivity.
Qed.

(** C2 (amended): for any two nodes of any session that sit on one and
    the same finite point, whatever the other nodes, the edges and the
    velocities, the [|| 1] floor keeps NaN out of the force between
    them: the distance becomes 1, the repulsion [(0 / 1) * 1200 = 0] and
    the spring force of an edge between them [(0 / 1) * -4.76 = -0], so
    every node keeps its position and the numbers of its velocity (a
    [-0] may become [+0]) and no velocity component turns into NaN.
    But that force being zero, it does not move the two nodes apart. *)
Theorem coincident_pair_gets_no_force (e : GraphEdge float) :
  repel_pair i j ns = alter (add_velocity 0%float 0%float) i ns
  /\ Forall2 undisturbed ns (repel_pair i j ns)
  /\ (find_node (source e) ns = Some (i, a) ->
      find_node (target e) ns = Some (j, b) ->
      attract_edge ns e = alter (sub_velocity neg_zero neg_zero) j ns
      /\ Forall2 undisturbed ns (attract_edge ns e)).
Proof.
  split; [exact repel_pair_zero_force|]. split.
  - rewrite repel_pair_zero_force.
    apply alter_undisturbed, add_zero_undisturbed.
  - intros Hs Ht. rewrite (attract_edge_zero_force e Hs Ht).
    split; [reflexivity|].
    apply alter_undisturbed, sub_neg_zero_undisturbed.
Qed.

End CoincidentPair.

Lemma coincident_pair_gets_no_force_witness :
  let ns := (fun g => mkSim g 0.25%float neg_zero) <$> crowded in
  let e := mkEdge "a" "b" 2%float shared_device in
  repel_pair 0 1 ns = alter (add_velocity 0%float 0%float) 0 ns
  /\ Forall2 undisturbed ns (repel_pair 0 1 ns)
  /\ attract_edge ns e = alter (sub_velocity neg_zero neg_zero) 1 ns
  /\ Forall2 undisturbed ns (attract_edge ns e).
Proof.
  intros ns e.
  destruct (coincident_pair_gets_no_force ns 0 1
              (mkSim (mkNode "a" account 0.5%float "" 100%float 100%float)
                     0.25%float neg_zero)
              (mkSim (mkNode "b" device 0.9%float "" 100%float 100%float)
                     0.25%float neg_zero)
              eq_refl eq_refl eq_refl eq_refl eq_refl eq_refl e)
    as (Hrep & Hall & Hedge).
  split; [exact Hrep|]. split; [exact Hall|].
  exact (Hedge eq_refl eq_refl).
Defined.

(** The coordinates have to be finite: for two nodes at x = Infinity the
    difference is NaN, the floor turns the NaN distance into 1 as well,
    and both velocities become NaN. *)
Lemma coincident_pair_at_infinity :
  (fun n => PrimFloat.is_nan (vx n))
    <$> repel_pair 0 1
          (init_local [ mkNode "a" account 0.5%float "" infinity 100%float;
                        mkNode "b" device 0.9%float "" infinity 100%float ])
  = [true; true].
Proof. vm_compute. reflexivity. Qed.

(** Whether two such nodes part during the tick is decided by the other
    forces: with a third node c and an edge from a to c, a is pulled
    towards c and b is not. *)
Lemma coincident_pair_parted_by_an_edge :
  (fun n => x (node n))
    <$> tick [mkEdge "a" "c" 2%float shared_device] (init_local crowded)
  = [103.75700000000001; 101.03700000000001; 297.54349999999999]%float.
Proof. vm_compute. reflexivity. Qed.

(** C2 as stated fails: two nodes at (100, 100) are both at
    (101.0625, 100.51000000000001) after the tick. *)
Lemma coincident_nodes_not_separated :
  ~ (forall (a b : GraphNode float) (edgeMap : list (GraphEdge float)),
        id a <> id b -> x a = x b -> y a = y b ->
        match tick edgeMap (init_local [a; b]) with
        | [a'; b'] => (x (node a'), y (node a')) <> (x (node b'), y (node b'))
        | _ => False
        end).
Proof.
  intros Hall.
  specialize (Hall (mkNode "a" account 0.5%float "" 100%float 100%float)
                   (mkNode "b" device 0.9%float "" 100%float 100%float) []).
  apply Hall; [discriminate | reflexivity | reflexivity | reflexivity].
Qed.

(** ** C1: edges whose endpoints do not resolve *)

Section Unresolved.
Context {num : Type} {JN : JsNumber num}.

Lemma find_node_None (key : string) (ns : list (SimNode num)) :
  find_node key ns = None <-> key ∉ node_ids ns.
Proof.
  unfold find_node, node_ids. rewrite list_find_None, Forall_forall. split.
  - intros Hall Hin. apply list_elem_of_fmap in Hin as (n & -> & Hn).
    exact (Hall n Hn eq_refl).
  - intros Hnot n Hn Heq. apply Hnot. apply list_elem_of_fmap.
    exists n. split; [symmetry; exact Heq | exact Hn].
Qed.

Lemma fmap_alter_same {A B} (g : A -> B) (f : A -> A) (i : nat) (l : list A) :
  (forall a, g (f a) = g a) -> g <$> alter f i l = g <$> l.
Proof.
  intros Hgf. revert i. induction l as [|a l IH]; intros [|i]; cbn;
    [reflexivity | reflexivity | rewrite Hgf; reflexivity | rewrite IH; reflexivity].
Qed.

Lemma foldl_preserves {A B C} (g : A -> C) (f : A -> B -> A) (a : A) (l : list B) :
  (forall a b, g (f a b) = g a) -> g (foldl f a l) = g a.
Proof.
  intros Hf. revert a. induction l as [|b l IH]; intros a; cbn; [reflexivity|].
  rewrite IH. apply Hf.
Qed.

Lemma node_ids_push (fx fy gx gy : num) (i j : nat) (ns : list (SimNode num)) :
  node_ids (alter (sub_velocity gx gy) j (alter (add_velocity fx fy) i ns))
  = node_ids ns.
Proof.
  unfold node_ids. rewrite !fmap_alter_same; reflexivity.
Qed.

Lemma node_ids_attract_edge (ns : list (SimNode num)) (e : GraphEdge num) :
  node_ids (attract_edge ns e) = node_ids ns.
Proof.
  unfold attract_edge.
  destruct (find_node (source e) ns) as [[i s]|]; [|reflexivity].
  destruct (find_node (target e) ns) as [[j t]|]; [|reflexivity].
  apply node_ids_push.
Qed.

Lemma node_ids_repel_pair (i j : nat) (ns : list (SimNode num)) :
  node_ids (repel_pair i j ns) = node_ids ns.
Proof.
  unfold repel_pair.
  destruct (ns !! i); [|reflexivity]. destruct (ns !! j); [|reflexivity].
  apply node_ids_push.
Qed.

Lemma node_ids_repulsion (ns : list (SimNode num)) :
  node_ids (repulsion ns) = node_ids ns.
Proof.
  unfold repulsion. apply (foldl_preserves node_ids). intros a i.
  unfold repel_row. apply (foldl_preserves node_ids). intros b j.
  apply node_ids_repel_pair.
Qed.

(** [if (!s || !t) continue;] *)
Lemma attract_edge_unresolved (ns : list (SimNode num)) (e : GraphEdge num) :
  ~ resolves (node_ids ns) e -> attract_edge ns e = ns.
Proof.
  intros Hun. unfold attract_edge.
  destruct (find_node (source e) ns) as [[i s]|] eqn:Hs; [|reflexivity].
  destruct (find_node (target e) ns) as [[j t]|] eqn:Ht; [|reflexivity].
  exfalso. apply Hun. split.
  - destruct (decide (source e ∈ node_ids ns)) as [|Hn]; [assumption|].
    apply find_node_None in Hn. congruence.
  - destruct (decide (target e ∈ node_ids ns)) as [|Hn]; [assumption|].
    apply find_node_None in Hn. congruence.
Qed.

Lemma attraction_skips_unresolved (edgeMap : list (GraphEdge num))
  (ns : list (SimNode num)) :
  attraction edgeMap ns
  = attraction (filter (resolves (node_ids ns)) edgeMap) ns.
Proof.
  unfold attraction. revert ns.
  induction edgeMap as [|e es IH]; intros ns; [reflexivity|].
  cbn [foldl]. rewrite filter_cons.
  destruct (decide (resolves (node_ids ns) e)) as [Hr|Hu].
  - cbn [foldl]. rewrite IH, node_ids_attract_edge. reflexivity.
  - rewrite (attract_edge_unresolved ns e Hu). apply IH.
Qed.

(** C1 (amended): no graph is ever rejected.  The session's node store is
    built from whatever nodes are given, and in every tick an edge whose
    source or target names no node is skipped: the tick computes exactly
    what it computes for the graph without the unresolved edges. *)
Theorem tick_drops_unresolved_edges
  (edgeMap : list (GraphEdge num)) (localNodes : list (SimNode num)) :
  tick edgeMap localNodes
  = tick (filter (resolves (node_ids localNodes)) edgeMap) localNodes.
Proof.
  unfold tick. do 2 f_equal.
  rewrite attraction_skips_unresolved, node_ids_repulsion. reflexivity.
Qed.

Lemma mount_constructs (initNodes : list (GraphNode num)) :
  localNodes (mount initNodes) = init_local initNodes
  /\ frame_queue (mount initNodes) = [animRef (mount initNodes)].
Proof. split; reflexivity. Qed.

Lemma nodeMap_own (ns : list (GraphNode num)) (key : string) :
  obj_own (nodeMap ns) !! key = last (filter (fun n => id n = key) ns).
Proof.
  unfold nodeMap, fromEntries. cbn [obj_own].
  enough (Hgen : forall m : gmap string (GraphNode num),
             foldl (fun m kv => <[kv.1 := kv.2]> m) m
                   ((fun n => (id n, n)) <$> ns) !! key
             = match last (filter (fun n => id n = key) ns) with
               | Some n => Some n
               | None => m !! key
               end).
  { rewrite Hgen, lookup_empty. destruct (last _); reflexivity. }
  induction ns as [|n ns IH]; intros m; [reflexivity|].
  rewrite fmap_cons. cbn [foldl fst snd]. rewrite IH, filter_cons.
  destruct (decide (id n = key)) as [Heq|Hne].
  - rewrite last_cons.
    destruct (last (filter (fun n0 => id n0 = key) ns)); [reflexivity|].
    cbn. rewrite Heq. apply lookup_insert_eq.
  - destruct (last (filter (fun n0 => id n0 = key) ns)); [reflexivity|].
    apply lookup_insert_ne. exact Hne.
Qed.

Lemma nodeMap_own_None (ns : list (GraphNode num)) (key : string) :
  obj_own (nodeMap ns) !! key = None <-> key ∉ id <$> ns.
Proof.
  rewrite nodeMap_own, last_None. split.
  - intros Hf Hin. apply list_elem_of_fmap in Hin as (n & -> & Hn).
    assert (Hin : n ∈ filter (fun n0 => id n0 = id n) ns)
      by (apply list_elem_of_filter; split; [reflexivity | exact Hn]).
    rewrite Hf in Hin. apply elem_of_nil in Hin. exact Hin.
  - intros Hnot. destruct (filter _ ns) as [|b l] eqn:Hf; [reflexivity|].
    exfalso. apply Hnot.
    assert (Hb : b ∈ filter (fun n => id n = key) ns) by (rewrite Hf; left).
    apply list_elem_of_filter in Hb as [<- Hb].
    apply list_elem_of_fmap. exists b. split; [reflexivity | exact Hb].
Qed.

(** The renderer draws nothing for such an edge, unless the id without a
    node is the name of a member inherited from [Object.prototype]. *)
Lemma render_edge_unresolved (ns : list (GraphNode num))
  (edges : list (GraphEdge num)) (sel : option (GraphNode num))
  (e : GraphEdge num) :
  ((source e ∉ id <$> ns) /\ (source e ∉ Object_prototype_keys))
  \/ ((target e ∉ id <$> ns) /\ (target e ∉ Object_prototype_keys)) ->
  render_edge ns edges sel e = None.
Proof.
  intros Hun. unfold render_edge, obj_get.
  destruct Hun as [[Hs Hp]|[Ht Hp]].
  - apply nodeMap_own_None in Hs. rewrite Hs.
    rewrite bool_decide_eq_false_2 by exact Hp. reflexivity.
  - apply nodeMap_own_None in Ht. rewrite Ht.
    rewrite (bool_decide_eq_false_2 _ Hp).
    destruct (obj_own (nodeMap ns) !! source e); [reflexivity|].
    destruct (bool_decide _); reflexivity.
Qed.

(** For an id of that kind the two loops part ways: the tick finds no
    node and skips the edge, the renderer finds the inherited member and
    draws a line whose start has no coordinates. *)
Lemma render_edge_inherited_member (g : GraphNode num) (w : num)
  (edges : list (GraphEdge num)) (sel : option (GraphNode num)) :
  id g = "a" ->
  find_node "constructor" (init_local [g]) = None
  /\ render_edge [g] edges sel (mkEdge "constructor" "a" w transaction)
     = Some (mkLine None None (Some (x g)) (Some (y g)) w
                    (dim edges sel (mkEdge "constructor" "a" w transaction))).
Proof.
  intros Hid. split.
  - unfold find_node, init_local. cbn. rewrite Hid.
    rewrite decide_False by discriminate. reflexivity.
  - unfold render_edge, obj_get, nodeMap, fromEntries. cbn [fmap list_fmap foldl fst snd obj_own source target].
    rewrite Hid, lookup_insert_ne by discriminate.
    rewrite lookup_empty, lookup_insert_eq.
    rewrite bool_decide_eq_true_2 by (apply list_elem_of_here).
    reflexivity.
Qed.

(** Whatever the random draws, [buildGraph] names these nodes and joins
    them by these edges: the second cross-cluster links start at "D-3"
    and "D6", which are not nodes. *)
Lemma buildGraph_topology (drawn : Z -> @Drawn num) :
  id <$> (buildGraph drawn).1
  = ["D0"; "A1"; "M2"; "A3"; "A4"; "A5"; "A6"; "IP7"; "D8"; "A9"; "M10";
     "A11"; "A12"; "A13"; "IP14"; "D15"; "A16"; "M17"; "A18"; "A19"]
  /\ (fun e => (source e, target e)) <$> (buildGraph drawn).2
  = [("D0", "A1"); ("A1", "M2"); ("D0", "A3"); ("D0", "A4"); ("D0", "A5");
     ("D0", "A6"); ("D0", "IP7"); ("D-3", "IP7"); ("D8", "A9"); ("A9", "M10");
     ("D8", "A11"); ("D8", "A12"); ("D8", "A13"); ("D8", "IP14");
     ("D6", "IP14"); ("D15", "A16"); ("A16", "M17"); ("D15", "A18");
     ("D15", "A19")].
Proof. split; reflexivity. Qed.

End Unresolved.

(** C1 as stated fails on the program's own graph: the edge "D-3" -> "IP7"
    has no source node, yet the session is set up with all 20 nodes, the
    first animation frame runs a tick that moves them, and the result is
    the one for the edge list with the two unresolved edges left out. *)
Lemma buildGraph_unresolved_edge_is_dropped :
  let ns := (buildGraph spread).1 in
  let es := (buildGraph spread).2 in
  let first := host_step es (mount ns) AnimationFrame in
  es !! 7%nat = Some (mkEdge "D-3" "IP7" 1.5%float shared_ip) /\
  find_node "D-3" (init_local ns) = None /\
  length (localNodes (mount ns)) = 20%nat /\
  localNodes first = tick es (init_local ns) /\
  localNodes first
  = tick (filter (fun e => source e <> "D-3" /\ source e <> "D6") es)
         (init_local ns) /\
  (fun n => x (node n)) <$> localNodes first
  <> (fun n => x (node n)) <$> init_local ns.
Proof.
  cbv zeta. split; [reflexivity|]. split; [reflexivity|].
  split; [reflexivity|]. split; [reflexivity|].
  split; [vm_compute; reflexivity|].
  vm_compute. discriminate.
Qed.

(** ** C8: what a tick depends on *)

Section Determinism.
Context {num : Type} {JN : JsNumber num}.

Lemma same_motion_inv (a b : SimNode num) :
  same_motion a b ->
  id (node a) = id (node b) /\ x (node a) = x (node b) /\
  y (node a) = y (node b) /\ vx a = vx b /\ vy a = vy b.
Proof. unfold same_motion, motion. intros [= -> -> -> -> ->]. tauto. Qed.

Lemma same_motion_list (ns ns' : list (SimNode num)) :
  motion <$> ns = motion <$> ns' <-> Forall2 same_motion ns ns'.
Proof. rewrite list_eq_Forall2, Forall2_fmap. reflexivity. Qed.

Lemma same_motion_push (fx fy : num) (i j : nat) (ns ns' : list (SimNode num)) :
  Forall2 same_motion ns ns' ->
  Forall2 same_motion
    (alter (sub_velocity fx fy) j (alter (add_velocity fx fy) i ns))
    (alter (sub_velocity fx fy) j (alter (add_velocity fx fy) i ns')).
Proof.
  intros Hns. apply Forall2_alter; [apply Forall2_alter; [exact Hns|]|];
    intros a b _ _ Hab; apply same_motion_inv in Hab as (Hi & Hx & Hy & Hvx & Hvy);
    unfold same_motion, motion; cbn; congruence.
Qed.

Lemma repel_pair_same_motion (i j : nat) (ns ns' : list (SimNode num)) :
  Forall2 same_motion ns ns' ->
  Forall2 same_motion (repel_pair i j ns) (repel_pair i j ns').
Proof.
  intros Hns. unfold repel_pair.
  pose proof (proj1 (Forall2_lookup _ _ _) Hns i) as Hi.
  pose proof (proj1 (Forall2_lookup _ _ _) Hns j) as Hj.
  destruct Hi as [a a' Ha|]; [|exact Hns].
  destruct Hj as [b b' Hb|]; [|exact Hns].
  apply same_motion_inv in Ha as (_ & -> & -> & _).
  apply same_motion_inv in Hb as (_ & -> & -> & _).
  apply same_motion_push, Hns.
Qed.

Lemma foldl_same_motion {B} (f : list (SimNode num) -> B -> list (SimNode num))
  (l : list B) (ns ns' : list (SimNode num)) :
  (forall a a' b, Forall2 same_motion a a' -> Forall2 same_motion (f a b) (f a' b)) ->
  Forall2 same_motion ns ns' ->
  Forall2 same_motion (foldl f ns l) (foldl f ns' l).
Proof.
  intros Hf. revert ns ns'. induction l as [|b l IH]; intros ns ns' Hns; cbn;
    [exact Hns | apply IH, Hf, Hns].
Qed.

Lemma repulsion_same_motion (ns ns' : list (SimNode num)) :
  Forall2 same_motion ns ns' ->
  Forall2 same_motion (repulsion ns) (repulsion ns').
Proof.
  intros Hns. unfold repulsion. rewrite <- (Forall2_length _ _ _ Hns).
  apply foldl_same_motion; [|exact Hns]. clear. intros a a' i Ha.
  unfold repel_row. rewrite <- (Forall2_length _ _ _ Ha).
  apply foldl_same_motion; [|exact Ha]. clear. intros a a' j Ha.
  apply repel_pair_same_motion, Ha.
Qed.

Lemma find_node_same_motion (key : string) (ns ns' : list (SimNode num)) :
  Forall2 same_motion ns ns' ->
  option_Forall2 (fun p q => p.1 = q.1 /\ same_motion p.2 q.2)
                 (find_node key ns) (find_node key ns').
Proof.
  unfold find_node. induction 1 as [|a a' ns ns' Ha Hns IH]; cbn; [constructor|].
  pose proof (same_motion_inv _ _ Ha) as (Hid & _). rewrite Hid.
  destruct (decide (id (node a') = key)); [constructor; cbn; tauto|].
  destruct IH as [[k m] [k' m'] [Hk Hm]|]; cbn in *; constructor; cbn.
  split; [congruence | exact Hm].
Qed.

Lemma attract_edge_same_motion (e e' : GraphEdge num) (ns ns' : list (SimNode num)) :
  ends e = ends e' -> Forall2 same_motion ns ns' ->
  Forall2 same_motion (attract_edge ns e) (attract_edge ns' e').
Proof.
  unfold ends. intros [= Hs Ht] Hns. unfold attract_edge. rewrite <- Hs, <- Ht.
  destruct (find_node_same_motion (source e) ns ns' Hns)
    as [[i s] [i' s'] [Hi Hss]|]; [|exact Hns].
  destruct (find_node_same_motion (target e) ns ns' Hns)
    as [[j t] [j' t'] [Hj Htt]|]; [|exact Hns].
  cbn in Hi, Hj, Hss, Htt. subst i' j'.
  apply same_motion_inv in Hss as (_ & -> & -> & _).
  apply same_motion_inv in Htt as (_ & -> & -> & _).
  apply same_motion_push, Hns.
Qed.

Lemma attraction_same_motion (es es' : list (GraphEdge num))
  (ns ns' : list (SimNode num)) :
  ends <$> es = ends <$> es' -> Forall2 same_motion ns ns' ->
  Forall2 same_motion (attraction es ns) (attraction es' ns').
Proof.
  unfold attraction. revert es' ns ns'.
  induction es as [|e es IH]; intros [|e' es'] ns ns' Hes Hns;
    try discriminate; cbn; [exact Hns|].
  cbn in Hes. unfold ends at 1 3 in Hes. injection Hes as Hs Ht Hes.
  apply IH; [exact Hes|].
  apply attract_edge_same_motion; [unfold ends; congruence | exact Hns].
Qed.

Lemma gravity_integrate_same_motion (ns ns' : list (SimNode num)) :
  Forall2 same_motion ns ns' ->
  Forall2 same_motion (integrate (gravity ns)) (integrate (gravity ns')).
Proof.
  intros Hns. unfold integrate, gravity.
  apply Forall2_fmap_2, Forall2_fmap_2.
  eapply Forall2_impl; [exact Hns|]. intros a b Hab.
  apply same_motion_inv in Hab as (Hi & Hx & Hy & Hvx & Hvy).
  unfold same_motion, motion, integrate_node, gravity_node; cbn. congruence.
Qed.

Lemma tick_same_motion (es es' : list (GraphEdge num))
  (ns ns' : list (SimNode num)) :
  ends <$> es = ends <$> es' -> Forall2 same_motion ns ns' ->
  Forall2 same_motion (tick es ns) (tick es' ns').
Proof.
  intros Hes Hns. unfold tick.
  apply gravity_integrate_same_motion, attraction_same_motion; [exact Hes|].
  apply repulsion_same_motion, Hns.
Qed.

(** C8: the ids, positions and velocities after a tick are determined by
    the ids, positions and velocities before it and by the edges'
    endpoints.  Two runs from states that agree on these, over edge lists
    with the same endpoints, agree afterwards; node labels, risks and
    types, and edge weights and types, have no influence, and there is no
    other input. *)
Theorem tick_is_a_function_of_motion_and_topology
  (es es' : list (GraphEdge num)) (ns ns' : list (SimNode num)) :
  ends <$> es = ends <$> es' ->
  motion <$> ns = motion <$> ns' ->
  motion <$> tick es ns = motion <$> tick es' ns'.
Proof.
  intros Hes Hns. apply same_motion_list, tick_same_motion; [exact Hes|].
  apply same_motion_list, Hns.
Qed.

End Determinism.

Lemma tick_is_a_function_of_motion_and_topology_witness :
  let ns := init_local [ mkNode "a" account 0.5%float "x" 100%float 100%float;
                         mkNode "b" account 0.5%float "y" 300%float 100%float ] in
  let ns' := init_local [ mkNode "a" device 0.9%float "u" 100%float 100%float;
                          mkNode "b" ip 0.1%float "v" 300%float 100%float ] in
  motion <$> tick [mkEdge "a" "b" 1%float transaction] ns
  = motion <$> tick [mkEdge "a" "b" 2%float shared_ip] ns'.
Proof.
  intros ns ns'.
  apply (tick_is_a_function_of_motion_and_topology
           [mkEdge "a" "b" 1%float transaction]
           [mkEdge "a" "b" 2%float shared_ip] ns ns'); reflexivity.
Defined.

(** ** C7: edge weight *)

Section Weight.
Context {num : Type} {JN : JsNumber num}.

Lemma attract_edge_ends (ns : list (SimNode num)) (e e' : GraphEdge num) :
  source e = source e' -> target e = target e' ->
  attract_edge ns e = attract_edge ns e'.
Proof. intros Hs Ht. unfold attract_edge. rewrite Hs, Ht. reflexivity. Qed.

Lemma attraction_reweighed (w : GraphEdge num -> num)
  (edgeMap : list (GraphEdge num)) (ns : list (SimNode num)) :
  attraction ((fun e => set_weight (w e) e) <$> edgeMap) ns
  = attraction edgeMap ns.
Proof.
  unfold attraction. revert ns.
  induction edgeMap as [|e es IH]; intros ns; cbn; [reflexivity|].
  rewrite (attract_edge_ends ns (set_weight (w e) e) e) by reflexivity.
  apply IH.
Qed.

(** C7 (amended): the tick never reads an edge's weight.  Replacing the
    weights of the edges by any other numbers leaves the result of the
    tick unchanged, so edges that differ only in weight contribute the
    same force, [(dist - 120) * 0.04] along the edge. *)
Theorem tick_ignores_weight (w : GraphEdge num -> num)
  (edgeMap : list (GraphEdge num)) (localNodes : list (SimNode num)) :
  tick ((fun e => set_weight (w e) e) <$> edgeMap) localNodes
  = tick edgeMap localNodes.
Proof. unfold tick. rewrite attraction_reweighed. reflexivity. Qed.

(** The weight's one use: the stroke width of the drawn line. *)
Lemma render_edge_strokeWidth (ns : list (GraphNode num))
  (edges : list (GraphEdge num)) (sel : option (GraphNode num))
  (e : GraphEdge num) (l : @Line num) :
  render_edge ns edges sel e = Some l -> strokeWidth l = weight e.
Proof.
  unfold render_edge.
  destruct (negb _ || negb _); [discriminate|].
  intros [= <-]. reflexivity.
Qed.

End Weight.

(** C7 as stated fails: with the endpoints 200 apart, the edge of weight 1
    and the edge of weight 2 give both endpoints the same velocities. *)
Lemma weight_does_not_scale_attraction :
  ~ (forall (ns : list (SimNode float)) (e : GraphEdge float) (w : float),
        PrimFloat.ltb 0 (weight e) = true -> PrimFloat.ltb 0 w = true ->
        PrimFloat.eqb (weight e) w = false ->
        attract_edge ns (set_weight w e) <> attract_edge ns e).
Proof.
  intros Hall.
  apply (Hall (init_local [ mkNode "a" account 0.5%float "" 100%float 100%float;
                            mkNode "b" account 0.5%float "" 300%float 100%float ])
              (mkEdge "a" "b" 1%float transaction) 2%float);
    reflexivity.
Qed.

(** ** C5, C6, C9: selection, neighbour set and dimming *)

Section Selection.
Context {num : Type}.
Implicit Types (edges : list (GraphEdge num)) (e : GraphEdge num)
               (sel n : GraphNode num).

Lemma elem_of_selNeighbors edges sel (k : string) :
  k ∈ selNeighbors edges (Some sel)
  <-> exists e, e ∈ edges /\ touches (id sel) e /\ touches k e.
Proof.
  unfold selNeighbors. rewrite elem_of_list_to_set, list_elem_of_In, in_flat_map.
  split.
  - intros (e & He & Hk). apply list_elem_of_In, list_elem_of_filter in He as [Ht He].
    exists e. repeat split; [exact He | exact Ht|].
    cbn in Hk. unfold touches. destruct Hk as [Hk|[Hk|[]]]; auto.
  - intros (e & He & Ht & Hk). exists e. split.
    + apply list_elem_of_In, list_elem_of_filter. split; assumption.
    + cbn. unfold touches in Hk. destruct Hk as [Hk|Hk]; auto.
Qed.

Lemma selNeighbors_closed edges sel :
  selNeighbors edges (Some sel)
  = (if adjacent edges sel is [] then ∅ else {[ id sel ]})
    ∪ list_to_set (adjacent edges sel).
Proof.
  unfold selNeighbors, adjacent.
  induction edges as [|e edges IH]; [cbn; set_solver|].
  rewrite filter_cons. destruct (decide (touches (id sel) e)) as [Ht|Hn]; [|exact IH].
  cbn [flat_map fmap list_fmap app list_to_set]. rewrite IH.
  assert (Hpair : ({[ source e ]} : gset string) ∪ {[ target e ]}
                  = {[ id sel ]} ∪ {[ other_end (id sel) e ]}).
  { unfold other_end. destruct (decide (source e = id sel)) as [->|Hne];
      [reflexivity|]. destruct Ht as [Ht|Ht]; [contradiction|]. rewrite Ht.
    apply union_comm_L. }
  rewrite (assoc_L (∪) {[ source e ]}), Hpair.
  generalize (other_end (id sel) e); intros o.
  destruct (other_end (id sel) <$> filter (touches (id sel)) edges) as [|k l];
    cbn; generalize (id sel); intros c; clear; set_solver.
Qed.

(** C5 (amended): when the edges at the selected node [n] lead to A, A
    and B, in any order, the computed set is {n, A, B}: A occurs once
    although two edges lead to it, and besides the adjacent nodes the set
    holds [n] itself, since each incident edge contributes both of its
    endpoints. *)
Theorem selNeighbors_multi_edge edges sel (a b : string) :
  adjacent edges sel ≡ₚ [a; a; b] ->
  selNeighbors edges (Some sel) = {[ id sel; a; b ]}.
Proof.
  intros Hadj. rewrite selNeighbors_closed.
  assert (Hset : (list_to_set (adjacent edges sel) : gset string) = {[ a; b ]}).
  { apply set_eq. intros k. rewrite elem_of_list_to_set, Hadj. set_solver. }
  rewrite Hset.
  destruct (adjacent edges sel) as [|k l] eqn:Hl.
  - apply Permutation_nil_cons in Hadj. contradiction.
  - set_solver.
Qed.

Lemma dim_true edges sel e :
  dim edges (Some sel) e = true
  <-> forall e', e' ∈ edges -> touches (id sel) e' ->
                 ~ touches (source e) e' /\ ~ touches (target e) e'.
Proof.
  unfold dim. rewrite andb_true_iff, !bool_decide_eq_true, !elem_of_selNeighbors.
  split.
  - intros [Hs Ht] e' He' Hsel. split; intros Hc; [apply Hs | apply Ht];
      exists e'; repeat split; assumption.
  - intros Hall. split; intros (e' & He' & Hsel & Hc);
      destruct (Hall e' He' Hsel) as [Hs Ht]; contradiction.
Qed.

(** An edge of the graph that touches the selected node is never dimmed. *)
Lemma dim_incident_edge edges sel e :
  e ∈ edges -> touches (id sel) e -> dim edges (Some sel) e = false.
Proof.
  intros He Ht. apply not_true_is_false. intros Hd.
  destruct (proj1 (dim_true edges sel e) Hd e He Ht) as [Hs _].
  apply Hs. left. reflexivity.
Qed.

(** C6 (amended): with [n] selected, an edge is dimmed exactly when
    neither of its endpoints lies on an edge at [n], that is when neither
    endpoint is a neighbour of [n] or [n] itself with at least one edge.
    So an edge of the graph that touches [n] is never dimmed, but an edge
    that joins two neighbours of [n], or a neighbour to a third node, is
    not dimmed either although it does not touch [n]. *)
Theorem dim_iff_away_from_neighbourhood edges sel e :
  (dim edges (Some sel) e = true
   <-> forall e', e' ∈ edges -> touches (id sel) e' ->
                  ~ touches (source e) e' /\ ~ touches (target e) e')
  /\ (dim edges (Some sel) e = true -> e ∈ edges -> ~ touches (id sel) e).
Proof.
  split; [apply dim_true|].
  intros Hd He Ht. rewrite (dim_incident_edge edges sel e He Ht) in Hd.
  discriminate.
Qed.

(** With nothing selected nothing is dimmed. *)
Lemma nothing_dimmed_when_idle edges (ns : list (GraphNode num)) :
  filter (fun n => dimmed edges None n = true) ns = []
  /\ filter (fun e => dim edges None e = true) edges = [].
Proof.
  split.
  - induction ns as [|n ns IH]; [reflexivity|]. rewrite filter_cons. exact IH.
  - generalize edges at 1. intros es.
    induction edges as [|e edges' IH]; [reflexivity|]. rewrite filter_cons. exact IH.
Qed.

(** C9: clicking a node that is not selected selects it, clicking it
    again clears the selection, and then no node and no edge is dimmed.
    (The hover state is a separate axis and is not touched by clicks.) *)
Theorem click_again_deselects (u : @Ui num) n
  (ns : list (GraphNode num)) edges :
  isSelected (selected u) n = false ->
  let u1 := ui_step u (onClick n) in
  let u2 := ui_step u1 (onClick n) in
  selected u1 = Some n /\ selected u2 = None /\ hovered u2 = hovered u /\
  length (filter (fun m => dimmed edges (selected u2) m = true) ns) = 0%nat /\
  length (filter (fun e => dim edges (selected u2) e = true) edges) = 0%nat.
Proof.
  intros Hsel u1 u2.
  assert (H1 : selected u1 = Some n).
  { unfold u1. cbn. rewrite Hsel. reflexivity. }
  assert (H2 : selected u2 = None).
  { unfold u2. cbn [ui_step selected]. rewrite H1. cbn [isSelected].
    rewrite bool_decide_eq_true_2 by reflexivity. reflexivity. }
  rewrite H2. destruct (nothing_dimmed_when_idle edges ns) as [-> ->].
  repeat split; [exact H1 | reflexivity..].
Qed.

End Selection.

Lemma selNeighbors_multi_edge_witness :
  selNeighbors double_edge (Some picked) = {[ "n"; "A"; "B" ]}.
Proof.
  apply (selNeighbors_multi_edge double_edge picked "A" "B"). reflexivity.
Defined.

(** C5 as stated fails: for the edges n-A, A-n, n-B the computed set is
    not {A, B}, because it also holds n. *)
Lemma selNeighbors_contains_selected :
  selNeighbors double_edge (Some picked) <> ({[ "A"; "B" ]} : gset string).
Proof.
  intros Heq.
  assert (Hn : "n" ∈ selNeighbors double_edge (Some picked)).
  { apply elem_of_selNeighbors. exists (mkEdge "n" "A" 2%float shared_device).
    repeat split; [apply list_elem_of_here | left; reflexivity..]. }
  rewrite Heq in Hn. set_solver.
Qed.

(** C6 as stated fails: with n selected the edge A-B does not touch n
    and is not dimmed. *)
Lemma edge_between_neighbours_not_dimmed :
  ~ (forall (edges : list (GraphEdge float)) (sel : GraphNode float)
            (e : GraphEdge float),
        e ∈ edges ->
        (dim edges (Some sel) e = true <-> ~ touches (id sel) e)).
Proof.
  intros Hall.
  pose (ab := mkEdge "A" "B" 1%float transaction : GraphEdge float).
  assert (Hin : ab ∈ triangle) by (do 2 apply list_elem_of_further; apply list_elem_of_here).
  assert (Hd : dim triangle (Some picked) ab = true).
  { apply (Hall triangle picked ab Hin). intros [Hs|Ht]; discriminate. }
  pose proof (proj1 (dim_true triangle picked ab) Hd
                (mkEdge "n" "A" 2%float shared_device)
                (list_elem_of_here _ _) (or_introl eq_refl)) as [Hs _].
  apply Hs. right. reflexivity.
Qed.

Lemma click_again_deselects_witness :
  let u1 := ui_step ui_init (onClick picked) in
  let u2 := ui_step u1 (onClick picked) in
  selected u1 = Some picked /\ selected u2 = None /\ hovered u2 = None /\
  length (filter (fun m => dimmed triangle (selected u2) m = true)
                 [picked; mkNode "A" device 0.9%float "" 200%float 100%float])
  = 0%nat /\
  length (filter (fun e => dim triangle (selected u2) e = true) triangle) = 0%nat.
Proof.
  apply (click_again_deselects ui_init picked
           [picked; mkNode "A" device 0.9%float "" 200%float 100%float] triangle).
  reflexivity.
Defined.

(** ** C10: cancellation *)

Section Cancellation.
Context {num : Type} {JN : JsNumber num}.
Variable edges : list (GraphEdge num).
Implicit Types (s : @Sched num) (ev : HostEvent).

Lemma mount_inv (initNodes : list (GraphNode num)) : sched_inv (mount initNodes).
Proof. split; [right; reflexivity | discriminate]. Qed.

Lemma cancel_frame_stops s : sched_inv s -> stopped (disarm (cancel_frame s)).
Proof.
  intros [[Hq|Hq] _]; unfold stopped; cbn; rewrite Hq; [reflexivity|].
  rewrite filter_cons. destruct (decide (animRef s ≠ animRef s)); [congruence|].
  reflexivity.
Qed.

Lemma frame_when_stopped s : stopped s -> host_step edges s AnimationFrame = s.
Proof. unfold stopped. destruct s; cbn. intros ->. reflexivity. Qed.

(** While the run is live a frame performs exactly one tick and leaves
    exactly one new request behind. *)
Lemma frame_when_live s :
  frame_queue s = [animRef s] ->
  let s' := host_step edges s AnimationFrame in
  localNodes s' = tick edges (localNodes s)
  /\ nodes s' = tick edges (localNodes s)
  /\ frame_queue s' = [animRef s'] /\ stop_armed s' = stop_armed s.
Proof. intros Hq. cbn. rewrite Hq. cbn. repeat split; reflexivity. Qed.

Lemma host_step_inv s ev : sched_inv s -> sched_inv (host_step edges s ev).
Proof.
  intros Hinv. destruct ev.
  - destruct Hinv as [[Hq|Hq] Harm].
    + rewrite frame_when_stopped by exact Hq. split; [left; exact Hq | exact Harm].
    + destruct (frame_when_live s Hq) as (_ & _ & Hq' & Harm').
      split; [right; exact Hq'|]. rewrite Harm'. intros Hoff.
      rewrite (Harm Hoff) in Hq. discriminate.
  - cbn. destruct (stop_armed s) eqn:Harm; [|exact Hinv].
    pose proof (cancel_frame_stops s Hinv) as Hs.
    split; [left; exact Hs | intros _; exact Hs].
  - pose proof (cancel_frame_stops s Hinv) as Hs.
    split; [left; exact Hs | intros _; exact Hs].
Qed.

Lemma host_run_inv s (evs : list HostEvent) :
  sched_inv s -> sched_inv (host_run edges s evs).
Proof.
  unfold host_run. revert s. induction evs as [|ev evs IH]; intros s Hs;
    [exact Hs | apply IH, host_step_inv, Hs].
Qed.

Lemma host_step_stopped s ev :
  stopped s ->
  stopped (host_step edges s ev)
  /\ localNodes (host_step edges s ev) = localNodes s
  /\ nodes (host_step edges s ev) = nodes s.
Proof.
  intros Hs. destruct ev.
  - rewrite frame_when_stopped by exact Hs. auto.
  - cbn. destruct (stop_armed s); [|auto].
    unfold stopped in *. cbn. rewrite Hs. auto.
  - unfold stopped in *. cbn. rewrite Hs. auto.
Qed.

Lemma host_run_stopped s (evs : list HostEvent) :
  stopped s ->
  stopped (host_run edges s evs)
  /\ localNodes (host_run edges s evs) = localNodes s
  /\ nodes (host_run edges s evs) = nodes s.
Proof.
  unfold host_run. revert s. induction evs as [|ev evs IH]; intros s Hs; [auto|].
  cbn. destruct (host_step_stopped s ev Hs) as (Hs' & Hl & Hn).
  destruct (IH _ Hs') as (Hs'' & Hl' & Hn'). rewrite Hl', Hn'. auto.
Qed.

Lemma cancelling_event_stops s ev :
  sched_inv s -> cancels ev = true ->
  stopped (host_step edges s ev)
  /\ localNodes (host_step edges s ev) = localNodes s.
Proof.
  intros Hinv Hc. destruct ev; [discriminate| |].
  - cbn. destruct (stop_armed s) eqn:Harm.
    + split; [apply cancel_frame_stops, Hinv | reflexivity].
    + split; [apply Hinv, Harm | reflexivity].
  - split; [apply cancel_frame_stops, Hinv | reflexivity].
Qed.

(** C10: take any run of the mounted effect, let the stop timer fire or
    the cleanup run, and let anything happen afterwards (further frames
    included).  At the cancellation no frame request is left, no tick
    runs afterwards, and the positions and velocities (and the copy held
    in React state) stay what they were when the run was cancelled. *)
Theorem cancelled_run_is_frozen (initNodes : list (GraphNode num))
  (before after : list HostEvent) ev :
  cancels ev = true ->
  let at_cancel := host_step edges (host_run edges (mount initNodes) before) ev in
  let later := host_run edges at_cancel after in
  frame_queue at_cancel = []
  /\ localNodes at_cancel = localNodes (host_run edges (mount initNodes) before)
  /\ frame_queue later = []
  /\ localNodes later = localNodes at_cancel
  /\ nodes later = nodes at_cancel.
Proof.
  intros Hc at_cancel later.
  pose proof (host_run_inv (mount initNodes) before (mount_inv initNodes)) as Hinv.
  destruct (cancelling_event_stops _ ev Hinv Hc) as [Hstop Hsame].
  destruct (host_run_stopped at_cancel after Hstop) as (Hs & Hl & Hn).
  repeat split; assumption.
Qed.

(** Without a cancellation the run does step: [k] frames after mounting
    the store holds the [k]-fold tick of the initial nodes. *)
Lemma live_run_steps (initNodes : list (GraphNode num)) (k : nat) :
  let s := host_run edges (mount initNodes) (replicate k AnimationFrame) in
  localNodes s = Nat.iter k (tick edges) (init_local initNodes)
  /\ frame_queue s = [animRef s] /\ stop_armed s = true.
Proof.
  induction k as [|k IH].
  - repeat split; reflexivity.
  - cbn zeta in *. rewrite replicate_S_end. unfold host_run in *.
    rewrite foldl_app. cbn [foldl].
    destruct IH as (Hl & Hq & Harm).
    destruct (frame_when_live _ Hq) as (Hl' & _ & Hq' & Harm').
    rewrite Hl', Hl, Harm'. repeat split; assumption.
Qed.

End Cancellation.

Lemma cancelled_run_is_frozen_witness :
  let edges := [mkEdge "a" "b" 1%float transaction] in
  let initNodes := [ mkNode "a" account 0.5%float "" 100%float 100%float;
                     mkNode "b" account 0.5%float "" 300%float 100%float ] in
  let at_cancel :=
    host_step edges (host_run edges (mount initNodes) [AnimationFrame; AnimationFrame])
              Cleanup in
  let later := host_run edges at_cancel [AnimationFrame; StopTimeout; AnimationFrame] in
  frame_queue at_cancel = []
  /\ localNodes at_cancel
     = localNodes (host_run edges (mount initNodes) [AnimationFrame; AnimationFrame])
  /\ frame_queue later = []
  /\ localNodes later = localNodes at_cancel
  /\ nodes later = nodes at_cancel.
Proof.
  intros edges initNodes.
  apply (cancelled_run_is_frozen edges initNodes [AnimationFrame; AnimationFrame]
           [AnimationFrame; StopTimeout; AnimationFrame] Cleanup).
  reflexivity.
Defined.

(** ** C4: the spring along an edge *)

Section EdgeUpdate.
Context {num : Type} {JN : JsNumber num}.
Local Open Scope js_scope.

Lemma attract_edge_found (ns : list (SimNode num)) (e : GraphEdge num)
  (i j : nat) (s t : SimNode num) :
  find_node (source e) ns = Some (i, s) ->
  find_node (target e) ns = Some (j, t) ->
  attract_edge ns e
  = alter (sub_velocity (spring_force s t).1 (spring_force s t).2) j
      (alter (add_velocity (spring_force s t).1 (spring_force s t).2) i ns).
Proof. intros Hs Ht. unfold attract_edge. rewrite Hs, Ht. reflexivity. Qed.

(** The two endpoints after the attraction of one edge and the
    integration step. *)
Lemma integrate_attract_edge (ns : list (SimNode num)) (e : GraphEdge num)
  (i j : nat) (s t : SimNode num) :
  find_node (source e) ns = Some (i, s) ->
  find_node (target e) ns = Some (j, t) ->
  i <> j ->
  integrate (attract_edge ns e) !! i = Some (sprung_source s t)
  /\ integrate (attract_edge ns e) !! j = Some (sprung_target s t).
Proof.
  intros Hs Ht Hij. rewrite (attract_edge_found ns e i j s t Hs Ht).
  apply list_find_Some in Hs as (Hi & _). apply list_find_Some in Ht as (Hj & _).
  unfold integrate. rewrite !list_lookup_fmap. split.
  - rewrite list_lookup_alter_ne by congruence.
    rewrite list_lookup_alter_eq, Hi. reflexivity.
  - rewrite list_lookup_alter_eq, list_lookup_alter_ne by exact Hij.
    rewrite Hj. reflexivity.
Qed.

(** The two endpoints after the attraction of one edge. *)
Lemma attract_edge_endpoints (ns : list (SimNode num)) (e : GraphEdge num)
  (i j : nat) (s t : SimNode num) :
  find_node (source e) ns = Some (i, s) ->
  find_node (target e) ns = Some (j, t) ->
  i <> j ->
  attract_edge ns e !! i
  = Some (add_velocity (spring_force s t).1 (spring_force s t).2 s)
  /\ attract_edge ns e !! j
     = Some (sub_velocity (spring_force s t).1 (spring_force s t).2 t).
Proof.
  intros Hs Ht Hij. rewrite (attract_edge_found ns e i j s t Hs Ht).
  apply list_find_Some in Hs as (Hi & _). apply list_find_Some in Ht as (Hj & _).
  split.
  - rewrite list_lookup_alter_ne by congruence.
    rewrite list_lookup_alter_eq, Hi. reflexivity.
  - rewrite list_lookup_alter_eq, list_lookup_alter_ne by exact Hij.
    rewrite Hj. reflexivity.
Qed.

End EdgeUpdate.

(** *** Rounding: sign and magnitude of the results of the binary64
        operations *)

Module Rounding.
Import Magnitude.
Local Open Scope Z_scope.

(** [lia] with powers of two treated as unknowns. *)
Ltac hide_pow :=
  repeat match goal with
  | |- context [2 ^ ?k] =>
      pose proof (Z.pow_nonneg 2 k ltac:(lia));
      generalize dependent (2 ^ k); intros ? ?
  | H : context [2 ^ ?k] |- _ =>
      pose proof (Z.pow_nonneg 2 k ltac:(lia));
      generalize dependent (2 ^ k); intros ? ?
  end; intros.
Ltac plia := hide_pow; lia.
Ltac dlia := Z.div_mod_to_equations; lia.

(** *** Number of binary digits *)

Lemma digits2_bounds (p : positive) :
  2 ^ (Zpos (digits2_pos p) - 1) <= Zpos p < 2 ^ Zpos (digits2_pos p).
Proof.
  induction p as [p IH|p IH|]; cbn [digits2_pos].
  - rewrite Pos2Z.inj_succ.
    replace (Z.succ (Zpos (digits2_pos p)) - 1) with (Z.succ (Zpos (digits2_pos p) - 1)) by lia.
    rewrite !Z.pow_succ_r by lia. plia.
  - rewrite Pos2Z.inj_succ.
    replace (Z.succ (Zpos (digits2_pos p)) - 1) with (Z.succ (Zpos (digits2_pos p) - 1)) by lia.
    rewrite !Z.pow_succ_r by lia. plia.
  - cbn. lia.
Qed.

Lemma Zdigits2_bounds (m : Z) :
  0 < m -> 1 <= Zdigits2 m /\ 2 ^ (Zdigits2 m - 1) <= m < 2 ^ Zdigits2 m.
Proof.
  destruct m as [|p|p]; try lia. intros _. cbn [Zdigits2].
  split; [lia | apply digits2_bounds].
Qed.

Lemma Zdigits2_nonneg (m : Z) : 0 <= Zdigits2 m.
Proof. destruct m; cbn; lia. Qed.

Lemma Zdigits2_le (m k : Z) : 0 <= k -> 0 <= m < 2 ^ k -> Zdigits2 m <= k.
Proof.
  intros Hk [Hm Hlt]. destruct (Z.eq_dec m 0) as [->|Hne]; [cbn; lia|].
  destruct (Zdigits2_bounds m ltac:(lia)) as [Hd [Hlo _]].
  destruct (Z_lt_le_dec k (Zdigits2 m)) as [Hgt|]; [|assumption].
  exfalso. assert (2 ^ k <= 2 ^ (Zdigits2 m - 1)) by (apply Z.pow_le_mono_r; lia). lia.
Qed.

Lemma Zdigits2_ge (m k : Z) : 0 <= k -> 2 ^ k <= m -> k + 1 <= Zdigits2 m.
Proof.
  intros Hk Hle. assert (0 < m) by (pose proof (Z.pow_pos_nonneg 2 k); lia).
  destruct (Zdigits2_bounds m ltac:(lia)) as [Hd [_ Hhi]].
  destruct (Z_lt_le_dec (Zdigits2 m) (k + 1)) as [Hlt|]; [|assumption].
  exfalso. assert (2 ^ Zdigits2 m <= 2 ^ k) by (apply Z.pow_le_mono_r; lia). lia.
Qed.

(** Dropping [n] low digits. *)
Lemma Zdigits2_div (m n : Z) :
  0 < m -> 0 <= n < Zdigits2 m -> Zdigits2 (m / 2 ^ n) = Zdigits2 m - n.
Proof.
  intros Hm Hn. destruct (Zdigits2_bounds m Hm) as [Hd [Hlo Hhi]].
  assert (Hp : 0 < 2 ^ n) by (apply Z.pow_pos_nonneg; lia).
  assert (Hlo' : 2 ^ (Zdigits2 m - n - 1) <= m / 2 ^ n).
  { apply Z.div_le_lower_bound; [exact Hp|].
    rewrite <- Z.pow_add_r by lia.
    replace (n + (Zdigits2 m - n - 1)) with (Zdigits2 m - 1) by lia. exact Hlo. }
  assert (Hhi' : m / 2 ^ n < 2 ^ (Zdigits2 m - n)).
  { apply Z.div_lt_upper_bound; [exact Hp|].
    rewrite <- Z.pow_add_r by lia.
    replace (n + (Zdigits2 m - n)) with (Zdigits2 m) by lia. exact Hhi. }
  apply Z.le_antisymm.
  - apply Zdigits2_le; [lia|]. split; [|exact Hhi'].
    apply Z.div_pos; lia.
  - replace (Zdigits2 m - n) with (Zdigits2 m - n - 1 + 1) by lia.
    apply Zdigits2_ge; [lia | exact Hlo'].
Qed.

Lemma Zdigits2_div_le (m n : Z) :
  0 <= m -> 0 <= n -> Zdigits2 (m / 2 ^ n) <= Z.max 0 (Zdigits2 m - n).
Proof.
  intros Hm Hn.
  destruct (Z.eq_dec m 0) as [->|Hne]; [rewrite Z.div_0_l; [cbn; lia|]|].
  { pose proof (Z.pow_pos_nonneg 2 n). lia. }
  destruct (Z_lt_le_dec n (Zdigits2 m)) as [Hlt|Hge].
  - rewrite Zdigits2_div by lia. lia.
  - destruct (Zdigits2_bounds m ltac:(lia)) as [Hd [_ Hhi]].
    assert (2 ^ Zdigits2 m <= 2 ^ n) by (apply Z.pow_le_mono_r; lia).
    rewrite Z.div_small by lia. cbn. lia.
Qed.

Lemma Zdigits2_mono (a b : Z) : 0 <= a <= b -> Zdigits2 a <= Zdigits2 b.
Proof.
  intros [Ha Hab]. destruct (Z.eq_dec b 0) as [->|Hb].
  - assert (a = 0) as -> by lia. lia.
  - destruct (Zdigits2_bounds b ltac:(lia)) as [Hd [_ Hhi]].
    apply Zdigits2_le; lia.
Qed.

Lemma Zdigits2_succ (m : Z) : 0 <= m -> Zdigits2 (m + 1) <= Zdigits2 m + 1.
Proof.
  intros Hm. destruct (Z.eq_dec m 0) as [->|Hne]; [cbv; discriminate|].
  destruct (Zdigits2_bounds m ltac:(lia)) as [Hd [_ Hhi]].
  apply Zdigits2_le; [lia|]. rewrite Z.pow_add_r by lia.
  change (2 ^ 1) with 2. plia.
Qed.

Lemma Zdigits2_mul (a b : Z) :
  0 < a -> 0 < b ->
  Zdigits2 a + Zdigits2 b - 1 <= Zdigits2 (a * b) <= Zdigits2 a + Zdigits2 b.
Proof.
  intros Ha Hb.
  destruct (Zdigits2_bounds a Ha) as [Hda [Hla Hha]].
  destruct (Zdigits2_bounds b Hb) as [Hdb [Hlb Hhb]].
  split.
  - replace (Zdigits2 a + Zdigits2 b - 1)
      with ((Zdigits2 a - 1 + (Zdigits2 b - 1)) + 1) by lia.
    apply Zdigits2_ge; [lia|]. rewrite Z.pow_add_r by lia.
    apply Z.mul_le_mono_nonneg; try lia; apply Z.pow_nonneg; lia.
  - apply Zdigits2_le; [lia|]. rewrite Z.pow_add_r by lia.
    split; [lia|]. apply Z.mul_lt_mono_nonneg; lia.
Qed.

Lemma Zdigits2_shift (m k : Z) : 0 < m -> 0 <= k -> Zdigits2 (m * 2 ^ k) = Zdigits2 m + k.
Proof.
  intros Hm Hk. destruct (Zdigits2_bounds m Hm) as [Hd [Hlo Hhi]].
  assert (Hp : 0 < 2 ^ k) by (apply Z.pow_pos_nonneg; lia).
  apply Z.le_antisymm.
  - apply Zdigits2_le; [lia|]. rewrite Z.pow_add_r by lia. split; [lia|].
    apply Z.mul_lt_mono_pos_r; assumption.
  - replace (Zdigits2 m + k) with (Zdigits2 m - 1 + k + 1) by lia.
    apply Zdigits2_ge; [lia|]. rewrite Z.pow_add_r by lia.
    apply Z.mul_le_mono_pos_r; assumption.
Qed.


(** *** Shifting right and rounding *)

Lemma iter_pos_nat {A} (f : A -> A) (p : positive) (x : A) :
  SpecFloat.iter_pos f p x = Nat.iter (Pos.to_nat p) f x.
Proof.
  revert x. induction p as [p IH|p IH|]; intros x; cbn [SpecFloat.iter_pos].
  - rewrite !IH, Pos2Nat.inj_xI, <- Nat.iter_add, <- Nat.iter_succ_r.
    f_equal. lia.
  - rewrite !IH, Pos2Nat.inj_xO, <- Nat.iter_add. f_equal. lia.
  - reflexivity.
Qed.

Lemma shr_1_m (r : shr_record) : 0 <= shr_m r -> shr_m (shr_1 r) = shr_m r / 2.
Proof.
  destruct r as [m r s]. cbn [shr_m]. intros Hm.
  rewrite <- Z.div2_div.
  destruct m as [|[p|p|]|p]; try reflexivity; lia.
Qed.

Lemma shr_m_iter (n : nat) (r : shr_record) :
  0 <= shr_m r -> shr_m (Nat.iter n shr_1 r) = shr_m r / 2 ^ Z.of_nat n.
Proof.
  intros Hm. induction n as [|n IH].
  - cbn. rewrite Z.div_1_r. reflexivity.
  - rewrite Nat.iter_succ, shr_1_m, IH.
    + rewrite Nat2Z.inj_succ, Z.pow_succ_r by lia.
      rewrite Z.div_div; [f_equal; lia | | lia].
      pose proof (Z.pow_pos_nonneg 2 (Z.of_nat n)). lia.
    + rewrite IH. apply Z.div_pos; [exact Hm|].
      apply Z.pow_pos_nonneg; lia.
Qed.

Lemma shr_record_of_loc_m (m : Z) (l : location) : shr_m (shr_record_of_loc m l) = m.
Proof. destruct l as [|[]]; reflexivity. Qed.

Lemma shr_fexp_spec (m e : Z) (l : location) :
  0 <= m ->
  shr_m (fst (shr_fexp prec emax m e l)) = m / 2 ^ drop m e
  /\ snd (shr_fexp prec emax m e l) = e + drop m e.
Proof.
  intros Hm. unfold shr_fexp, drop, shr.
  destruct (fexp prec emax (Zdigits2 m + e) - e) as [|p|p] eqn:Hn; cbn [fst snd].
  - rewrite shr_record_of_loc_m, Z.div_1_r. split; [reflexivity | lia].
  - rewrite iter_pos_nat, shr_m_iter, shr_record_of_loc_m, positive_nat_Z
      by (rewrite shr_record_of_loc_m; exact Hm).
    rewrite Z.max_r by lia. split; reflexivity.
  - rewrite shr_record_of_loc_m, Z.div_1_r. split; [reflexivity | lia].
Qed.

Lemma round_nearest_even_bounds (m : Z) (l : location) :
  m <= round_nearest_even m l <= m + 1.
Proof.
  destruct l as [|[]]; cbn [round_nearest_even]; try lia.
  destruct (Z.even m); lia.
Qed.

Lemma binary_round_aux_spec (sx : bool) (m e : Z) (l : location) :
  0 <= m ->
  exists m2,
    m / 2 ^ drop m e <= m2 <= m / 2 ^ drop m e + 1
    /\ binary_round_aux prec emax sx m e l
       = match m2 / 2 ^ drop m2 (e + drop m e) with
         | Z0 => S754_zero sx
         | Zpos q =>
             if e + drop m e + drop m2 (e + drop m e) <=? emax - prec
             then S754_finite sx q (e + drop m e + drop m2 (e + drop m e))
             else S754_infinity sx
         | Zneg _ => S754_nan
         end.
Proof.
  intros Hm. unfold binary_round_aux.
  destruct (shr_fexp_spec m e l Hm) as [Hm1 He1].
  destruct (shr_fexp prec emax m e l) as [mrs1 e1]. cbn [fst snd] in Hm1, He1.
  pose proof (round_nearest_even_bounds (shr_m mrs1) (loc_of_shr_record mrs1)) as Hr.
  set (m2 := round_nearest_even (shr_m mrs1) (loc_of_shr_record mrs1)) in *.
  assert (H1 : 0 <= shr_m mrs1).
  { rewrite Hm1. apply Z.div_pos; [exact Hm|]. apply Z.pow_pos_nonneg; [lia|].
    unfold drop. lia. }
  destruct (shr_fexp_spec m2 e1 loc_Exact ltac:(lia)) as [Hm3 He3].
  destruct (shr_fexp prec emax m2 e1 loc_Exact) as [mrs3 e3]. cbn [fst snd] in Hm3, He3.
  exists m2. rewrite <- Hm1. split; [exact Hr|].
  rewrite Hm3, He3, He1. reflexivity.
Qed.

Lemma drop_lt (m e : Z) : 0 < m -> SpecFloat.emin prec emax - e < Zdigits2 m -> 0 <= drop m e < Zdigits2 m.
Proof.
  intros Hm He. destruct (Zdigits2_bounds m Hm) as [Hd _].
  unfold drop, fexp, SpecFloat.emin, prec, emax in *. lia.
Qed.

Lemma div_pow2_pos (m k : Z) : 0 < m -> 0 <= k < Zdigits2 m -> 0 < m / 2 ^ k.
Proof.
  intros Hm Hk. pose proof (Zdigits2_div m k Hm Hk) as Hd.
  assert (0 <= m / 2 ^ k) by (apply Z.div_pos; [lia | apply Z.pow_pos_nonneg; lia]).
  destruct (Z.eq_dec (m / 2 ^ k) 0) as [Hzero|]; [|lia].
  rewrite Hzero in Hd. cbn in Hd. lia.
Qed.

Lemma binary_round_aux_big (sx : bool) (m e : Z) (l : location) :
  0 < m -> SpecFloat.emin prec emax - e < Zdigits2 m ->
  sf_big sx (Zdigits2 m + e) (binary_round_aux prec emax sx m e l).
Proof.
  intros Hm He.
  destruct (binary_round_aux_spec sx m e l ltac:(lia)) as (m2 & Hm2 & ->).
  pose proof (drop_lt m e Hm He) as Hk1.
  pose proof (div_pow2_pos m _ Hm Hk1) as Hm1.
  pose proof (Zdigits2_div m _ Hm Hk1) as Hd1.
  assert (Hd2 : Zdigits2 m - drop m e <= Zdigits2 m2).
  { rewrite <- Hd1. apply Zdigits2_mono. lia. }
  assert (He1 : SpecFloat.emin prec emax <= e + drop m e).
  { unfold drop, fexp, SpecFloat.emin, prec, emax. lia. }
  assert (Hk2 : 0 <= drop m2 (e + drop m e) < Zdigits2 m2).
  { apply drop_lt; [lia|]. destruct (Zdigits2_bounds m2 ltac:(lia)). lia. }
  pose proof (div_pow2_pos m2 _ ltac:(lia) Hk2) as Hm3.
  pose proof (Zdigits2_div m2 _ ltac:(lia) Hk2) as Hd3.
  destruct (m2 / 2 ^ drop m2 (e + drop m e)) as [|q|q]; try lia.
  destruct (_ <=? _); cbn [sf_big]; [|reflexivity].
  split; [reflexivity|]. cbn [Zdigits2] in Hd3. lia.
Qed.

Lemma binary_round_aux_small (sx : bool) (m e hi : Z) (l : location) :
  0 < m -> Zdigits2 m + e <= hi -> SpecFloat.emin prec emax <= hi -> hi <= emax - prec ->
  sf_small (hi + 1) (binary_round_aux prec emax sx m e l).
Proof.
  intros Hm Hhi Hlo Hmax.
  destruct (binary_round_aux_spec sx m e l ltac:(lia)) as (m2 & Hm2 & ->).
  assert (Hk1 : 0 <= drop m e) by (unfold drop; lia).
  assert (Hm1 : 0 <= m / 2 ^ drop m e).
  { apply Z.div_pos; [lia | apply Z.pow_pos_nonneg; lia]. }
  pose proof (Zdigits2_div_le m _ ltac:(lia) Hk1) as Hd1.
  assert (Hd2 : Zdigits2 m2 <= Z.max 0 (Zdigits2 m - drop m e) + 1).
  { etransitivity; [apply (Zdigits2_mono m2 (m / 2 ^ drop m e + 1)); lia|].
    etransitivity; [apply Zdigits2_succ; lia|]. lia. }
  assert (He1 : e + drop m e <= Z.max (Zdigits2 m + e) (SpecFloat.emin prec emax)).
  { destruct (Zdigits2_bounds m Hm). unfold drop, fexp, SpecFloat.emin, prec, emax. lia. }
  assert (Hk2 : 0 <= drop m2 (e + drop m e)) by (unfold drop; lia).
  pose proof (Zdigits2_div_le m2 _ ltac:(lia) Hk2) as Hd3.
  destruct (m2 / 2 ^ drop m2 (e + drop m e)) as [|q|q] eqn:Hq; cbn [sf_small]; [exact I| |].
  - cbn [Zdigits2] in Hd3.
    assert (Hfin : e + drop m e + drop m2 (e + drop m e) <= emax - prec).
    { unfold SpecFloat.emin, prec, emax in *. lia. }
    apply Z.leb_le in Hfin. rewrite Hfin. cbn [sf_small].
    unfold SpecFloat.emin, prec, emax in *. lia.
  - exfalso. assert (0 <= m2 / 2 ^ drop m2 (e + drop m e)).
    { apply Z.div_pos; [lia | apply Z.pow_pos_nonneg; lia]. }
    lia.
Qed.


Lemma sf_big_weaken (s : bool) (lo lo' : Z) (x : spec_float) :
  lo' <= lo -> sf_big s lo x -> sf_big s lo' x.
Proof. intros Hle. destruct x; cbn; try tauto. intros [-> H]. split; [reflexivity | lia]. Qed.

Lemma sf_small_weaken (hi hi' : Z) (x : spec_float) :
  hi <= hi' -> sf_small hi x -> sf_small hi' x.
Proof. intros Hle. destruct x; cbn; try tauto. lia. Qed.

(** The result of rounding has the sign it is given, and is a number. *)
Lemma binary_round_aux_sign (sx : bool) (m e : Z) (l : location) :
  0 <= m ->
  match binary_round_aux prec emax sx m e l with
  | S754_zero s | S754_infinity s | S754_finite s _ _ => s = sx
  | S754_nan => False
  end.
Proof.
  intros Hm.
  destruct (binary_round_aux_spec sx m e l Hm) as (m2 & Hm2 & ->).
  assert (0 <= m / 2 ^ drop m e).
  { apply Z.div_pos; [lia | apply Z.pow_pos_nonneg; unfold drop; lia]. }
  assert (0 <= m2 / 2 ^ drop m2 (e + drop m e)).
  { apply Z.div_pos; [lia | apply Z.pow_pos_nonneg; unfold drop; lia]. }
  destruct (m2 / 2 ^ drop m2 (e + drop m e)); [reflexivity| |lia].
  destruct (_ <=? _); reflexivity.
Qed.

(** What validity says of a finite number. *)
Lemma valid_finite (s : bool) (m : positive) (e : Z) :
  valid_binary (S754_finite s m e) = true ->
  Zpos (digits2_pos m) <= 53 /\ -1074 <= e <= 971
  /\ (-1074 < e -> Zpos (digits2_pos m) = 53).
Proof.
  cbn [valid_binary]. unfold bounded, canonical_mantissa. intros Hv.
  apply andb_prop in Hv as [Hc He].
  apply Z.eqb_eq in Hc. apply Z.leb_le in He.
  unfold fexp, SpecFloat.emin, FloatOps.prec, FloatOps.emax in *. lia.
Qed.

Lemma pos_iter_xO (p k : positive) : Zpos (Pos.iter xO p k) = Zpos p * 2 ^ Zpos k.
Proof.
  rewrite Pos2Nat.inj_iter, <- (positive_nat_Z k).
  induction (Pos.to_nat k) as [|n IH].
  - cbn. lia.
  - cbn [nat_rect]. set (q := nat_rect _ _ _ n) in *.
    rewrite Nat2Z.inj_succ, Z.pow_succ_r by lia. plia.
Qed.

Lemma shl_align_spec (m : positive) (e e' : Z) :
  e' <= e ->
  Zpos (fst (shl_align m e e')) = Zpos m * 2 ^ (e - e')
  /\ snd (shl_align m e e') = e'.
Proof.
  intros Hle. unfold shl_align.
  destruct (e' - e) as [|d|d] eqn:Hd; cbn [fst snd].
  - replace (e - e') with 0 by lia. split; lia.
  - lia.
  - rewrite pos_iter_xO. replace (e - e') with (Zpos d) by lia. split; [reflexivity | lia].
Qed.

Lemma shl_align_id (m : positive) (e e' : Z) :
  e <= e' -> shl_align m e e' = (m, e).
Proof.
  intros Hle. unfold shl_align. destruct (e' - e) eqn:Hd; try reflexivity. lia.
Qed.

(** [binary_round] rounds [m * 2 ^ e]. *)
Lemma binary_round_cases (sx : bool) (m : positive) (e : Z) :
  exists (m' : positive) (e' : Z),
    binary_round prec emax sx m e = binary_round_aux prec emax sx (Zpos m') e' loc_Exact
    /\ Zdigits2 (Zpos m') + e' = Zdigits2 (Zpos m) + e
    /\ e' <= e
    /\ (e' = e \/ e' = fexp prec emax (Zdigits2 (Zpos m) + e)).
Proof.
  unfold binary_round. cbn [Zdigits2].
  destruct (Z_lt_le_dec (fexp prec emax (Zpos (digits2_pos m) + e)) e) as [Hlt|Hge].
  - destruct (shl_align_spec m e (fexp prec emax (Zpos (digits2_pos m) + e)) ltac:(lia))
      as [Hm He].
    destruct (shl_align m e _) as [mz ez]. cbn [fst snd] in Hm, He. subst ez.
    exists mz, (fexp prec emax (Zpos (digits2_pos m) + e)).
    split; [reflexivity|]. split; [|split; [lia | right; reflexivity]].
    change (Zpos (digits2_pos mz)) with (Zdigits2 (Zpos mz)).
    rewrite Hm, Zdigits2_shift by lia. cbn [Zdigits2]. lia.
  - rewrite shl_align_id by lia. exists m, e.
    split; [reflexivity|]. split; [reflexivity|]. split; [lia | left; reflexivity].
Qed.

Lemma binary_round_big (sx : bool) (m : positive) (e : Z) :
  SpecFloat.emin prec emax - e < Zdigits2 (Zpos m) ->
  sf_big sx (Zdigits2 (Zpos m) + e) (binary_round prec emax sx m e).
Proof.
  intros He. destruct (binary_round_cases sx m e) as (m' & e' & -> & Hmag & Hle & Hc).
  rewrite <- Hmag. apply binary_round_aux_big; [lia|].
  destruct Hc as [-> | ->]; [lia|].
  unfold fexp, SpecFloat.emin, prec, emax in *.
  pose proof (Zdigits2_bounds (Zpos m') ltac:(lia)). lia.
Qed.

Lemma binary_round_small (sx : bool) (m : positive) (e hi : Z) :
  Zdigits2 (Zpos m) + e <= hi -> SpecFloat.emin prec emax <= hi -> hi <= emax - prec ->
  sf_small (hi + 1) (binary_round prec emax sx m e).
Proof.
  intros Hhi Hlo Hmax.
  destruct (binary_round_cases sx m e) as (m' & e' & -> & Hmag & _).
  apply binary_round_aux_small; lia.
Qed.

Lemma binary_round_sign (sx : bool) (m : positive) (e : Z) :
  match binary_round prec emax sx m e with
  | S754_zero s | S754_infinity s | S754_finite s _ _ => s = sx
  | S754_nan => False
  end.
Proof.
  destruct (binary_round_cases sx m e) as (m' & e' & -> & _).
  apply binary_round_aux_sign. lia.
Qed.

(** *** Multiplication *)

Lemma SFmul_big (sx sy : bool) (lx ly : Z) (x y : spec_float) :
  sf_big sx lx x -> sf_big sy ly y -> SpecFloat.emin prec emax + 1 < lx + ly ->
  sf_big (xorb sx sy) (lx + ly - 1) (SFmul prec emax x y).
Proof.
  intros Hx Hy Hl.
  destruct x as [| s1 | | s1 m1 e1]; try contradiction;
    destruct y as [| s2 | | s2 m2 e2]; try contradiction; cbn [sf_big SFmul] in *.
  - subst. reflexivity.
  - destruct Hy as [-> _]. subst. reflexivity.
  - destruct Hx as [-> _]. subst. reflexivity.
  - destruct Hx as [-> Hx], Hy as [-> Hy].
    pose proof (Zdigits2_mul (Zpos m1) (Zpos m2) ltac:(lia) ltac:(lia)) as [Hd _].
    change (Zpos m1 * Zpos m2) with (Zpos (m1 * m2)) in Hd. cbn [Zdigits2] in Hd.
    unfold SpecFloat.emin, prec, emax in *.
    apply (sf_big_weaken _ (Zdigits2 (Zpos (m1 * m2)) + (e1 + e2)));
      [|apply binary_round_aux_big]; unfold SpecFloat.emin, prec, emax;
      cbn [Zdigits2]; lia.
Qed.

Lemma SFmul_small (hx hy : Z) (x y : spec_float) :
  sf_small hx x -> sf_small hy y ->
  SpecFloat.emin prec emax <= hx + hy -> hx + hy <= emax - prec ->
  sf_small (hx + hy + 1) (SFmul prec emax x y).
Proof.
  intros Hx Hy Hlo Hhi.
  destruct x as [s1| s1 | | s1 m1 e1]; try contradiction;
    destruct y as [s2| s2 | | s2 m2 e2]; try contradiction; cbn [sf_small SFmul] in *;
    try exact I.
  pose proof (Zdigits2_mul (Zpos m1) (Zpos m2) ltac:(lia) ltac:(lia)) as [_ Hd].
  change (Zpos m1 * Zpos m2) with (Zpos (m1 * m2)) in Hd. cbn [Zdigits2] in Hd.
  apply binary_round_aux_small; cbn [Zdigits2]; lia.
Qed.

Lemma sf_pos_weaken (hi hi' : Z) (x : spec_float) :
  hi <= hi' -> sf_pos hi x -> sf_pos hi' x.
Proof. intros Hle. destruct x as [| | |[]]; cbn; try tauto. lia. Qed.

Lemma sf_pos_intro (hi : Z) (x : spec_float) :
  sf_small hi x ->
  match x with
  | S754_zero s | S754_infinity s | S754_finite s _ _ => s = false
  | S754_nan => False
  end ->
  sf_pos hi x.
Proof. destruct x as [| | |[]]; cbn; try tauto. discriminate. Qed.

(** A square. *)
Lemma SFmul_square (h : Z) (x : spec_float) :
  sf_small h x -> SpecFloat.emin prec emax <= h + h -> h + h <= emax - prec ->
  sf_pos (h + h + 1) (SFmul prec emax x x).
Proof.
  intros Hx Hlo Hhi. pose proof (SFmul_small h h x x Hx Hx Hlo Hhi) as Hs.
  destruct x as [s| s | | s m e]; try contradiction; cbn [SFmul] in *; [exact I|].
  apply sf_pos_intro; [exact Hs|].
  pose proof (binary_round_aux_sign (xorb s s) (Zpos (m * m)) (e + e) loc_Exact ltac:(lia)) as Hg.
  destruct (binary_round_aux _ _ _ _ _ _); try exact Hg; rewrite Hg; destruct s; reflexivity.
Qed.


(** *** Addition of numbers that are not negative *)

Lemma pow2_digits (m : positive) : Zpos m < 2 ^ Zpos (digits2_pos m).
Proof. apply digits2_bounds. Qed.

Lemma SFadd_pos (hx hy hi : Z) (x y : spec_float) :
  sf_pos hx x -> sf_pos hy y -> hx <= hi -> hy <= hi ->
  SpecFloat.emin prec emax <= hi + 1 -> hi + 1 <= emax - prec ->
  sf_pos (hi + 2) (SFadd prec emax x y).
Proof.
  intros Hx Hy Hhx Hhy Hlo Hmax.
  destruct x as [s1| | |[] m1 e1]; try contradiction;
    destruct y as [s2| | |[] m2 e2]; try contradiction; cbn [sf_pos SFadd] in *.
  - destruct s1, s2; exact I.
  - lia.
  - lia.
  - cbn [cond_Zopp].
    destruct (shl_align_spec m1 e1 (Z.min e1 e2) ltac:(lia)) as [Ha _].
    destruct (shl_align_spec m2 e2 (Z.min e1 e2) ltac:(lia)) as [Hb _].
    set (a := fst (shl_align m1 e1 (Z.min e1 e2))) in *.
    set (b := fst (shl_align m2 e2 (Z.min e1 e2))) in *.
    change (Zpos a + Zpos b) with (Zpos (a + b)). cbn [binary_normalize].
    assert (Hd : Zdigits2 (Zpos (a + b)) + Z.min e1 e2 <= hi + 1).
    { enough (Zdigits2 (Zpos (a + b)) <= hi + 1 - Z.min e1 e2) by lia.
      apply Zdigits2_le; [lia|]. split; [lia|].
      change (Zpos (a + b)) with (Zpos a + Zpos b). rewrite Ha, Hb.
      pose proof (pow2_digits m1) as H1. pose proof (pow2_digits m2) as H2.
      assert (Zpos m1 * 2 ^ (e1 - Z.min e1 e2) < 2 ^ (hi - Z.min e1 e2)).
      { replace (hi - Z.min e1 e2) with (hi - e1 + (e1 - Z.min e1 e2)) by lia.
        rewrite Z.pow_add_r by lia.
        apply Z.mul_lt_mono_pos_r; [apply Z.pow_pos_nonneg; lia|].
        eapply Z.lt_le_trans; [exact H1|]. apply Z.pow_le_mono_r; lia. }
      assert (Zpos m2 * 2 ^ (e2 - Z.min e1 e2) < 2 ^ (hi - Z.min e1 e2)).
      { replace (hi - Z.min e1 e2) with (hi - e2 + (e2 - Z.min e1 e2)) by lia.
        rewrite Z.pow_add_r by lia.
        apply Z.mul_lt_mono_pos_r; [apply Z.pow_pos_nonneg; lia|].
        eapply Z.lt_le_trans; [exact H2|]. apply Z.pow_le_mono_r; lia. }
      replace (hi + 1 - Z.min e1 e2) with (Z.succ (hi - Z.min e1 e2)) by lia.
      rewrite Z.pow_succ_r by lia. plia. }
    apply sf_pos_intro.
    + replace (hi + 2) with (hi + 1 + 1) by lia. apply binary_round_small; lia.
    + apply binary_round_sign.
Qed.

(** *** Square root *)

Lemma SFsqrt_pos (h hi : Z) (x : spec_float) :
  sf_pos h x -> (h + 1) / 2 <= hi ->
  SpecFloat.emin prec emax <= hi -> hi <= emax - prec ->
  sf_pos (hi + 1) (SFsqrt prec emax x).
Proof.
  intros Hx Hh Hlo Hmax.
  destruct x as [s| | |[] m e]; try contradiction; cbn [sf_pos SFsqrt] in *; [exact I|].
  unfold SFsqrt_core_binary.
  set (d := Zdigits2 (Zpos m)).
  set (e' := Z.min (fexp prec emax (Z.div2 (d + e + 1))) (Z.div2 e)).
  assert (He' : 2 * e' <= e).
  { unfold e'. rewrite !Z.div2_div. dlia. }
  set (m' := match e - 2 * e' with
             | Zpos _ => Z.shiftl (Zpos m) (e - 2 * e')
             | Z0 => Zpos m
             | Zneg _ => 0
             end).
  assert (Hm' : m' = Zpos m * 2 ^ (e - 2 * e')).
  { unfold m'. destruct (e - 2 * e') as [|p|p] eqn:Hs; [lia| |lia].
    rewrite Z.shiftl_mul_pow2 by lia. reflexivity. }
  pose proof (Z.sqrtrem_sqrt m') as Hq. pose proof (Z.sqrt_spec m') as Hsq.
  destruct (Z.sqrtrem m') as [q r]. cbn [fst] in Hq. subst q.
  assert (Hpos : 0 < m').
  { rewrite Hm'. apply Z.mul_pos_pos; [lia | apply Z.pow_pos_nonneg; lia]. }
  specialize (Hsq ltac:(lia)). cbv zeta in Hsq.
  assert (Hq1 : 0 < Z.sqrt m').
  { pose proof (Z.sqrt_nonneg m'). destruct (Z.eq_dec (Z.sqrt m') 0) as [Hzero|]; [|lia].
    rewrite Hzero in Hsq. cbn in Hsq. lia. }
  assert (Hdm : d = Zpos (digits2_pos m)) by reflexivity.
  assert (Hd' : m' < 2 ^ (d + (e - 2 * e'))).
  { rewrite Hm', Z.pow_add_r by lia.
    apply Z.mul_lt_mono_pos_r; [apply Z.pow_pos_nonneg; lia|].
    rewrite Hdm. apply pow2_digits. }
  assert (Hdq : Zdigits2 (Z.sqrt m') <= (d + (e - 2 * e') + 1) / 2).
  { apply Zdigits2_le; [apply Z.div_pos; lia|]. split; [lia|].
    set (c := (d + (e - 2 * e') + 1) / 2).
    assert (Hc : d + (e - 2 * e') <= 2 * c) by (unfold c; dlia).
    assert (0 <= c) by (unfold c; apply Z.div_pos; lia).
    destruct (Z_lt_le_dec (Z.sqrt m') (2 ^ c)) as [|Hge]; [assumption|exfalso].
    assert (2 ^ (d + (e - 2 * e')) <= 2 ^ (2 * c)) by (apply Z.pow_le_mono_r; lia).
    assert (2 ^ (2 * c) <= Z.sqrt m' * Z.sqrt m').
    { replace (2 * c) with (c + c) by lia. rewrite Z.pow_add_r by lia.
      apply Z.mul_le_mono_nonneg; try lia; apply Z.pow_nonneg; lia. }
    lia. }
  apply sf_pos_intro.
  - apply binary_round_aux_small; try lia.
    assert ((d + (e - 2 * e') + 1) / 2 + e' = (d + e + 1) / 2) by dlia.
    assert ((d + e + 1) / 2 <= (h + 1) / 2) by (apply Z.div_le_mono; lia).
    lia.
  - apply binary_round_aux_sign. lia.
Qed.

(** A square root that is a number other than zero is positive. *)
Lemma SFsqrt_sign (x : spec_float) :
  match SFsqrt prec emax x with
  | S754_infinity s | S754_finite s _ _ => s = false
  | _ => True
  end.
Proof.
  destruct x as [s|[]| |[] m e]; cbn [SFsqrt]; try exact I; try reflexivity.
  unfold SFsqrt_core_binary.
  match goal with
  | |- context [Z.sqrtrem ?m'] =>
      pose proof (Z.sqrtrem_sqrt m') as Hq; pose proof (Z.sqrt_nonneg m') as Hn;
      destruct (Z.sqrtrem m') as [q r]
  end.
  cbn [fst] in Hq. rewrite <- Hq in Hn.
  match goal with
  | |- context [binary_round_aux _ _ false q ?e' ?l] =>
      pose proof (binary_round_aux_sign false q e' l Hn) as Hs;
      destruct (binary_round_aux prec emax false q e' l); try exact I; exact Hs
  end.
Qed.

(** *** Subtraction of two positive normal numbers *)

Lemma aligned_lt (mx my : positive) (ex ey : Z) :
  Zpos (digits2_pos mx) = 53 -> Zpos (digits2_pos my) = 53 ->
  ex < ey \/ (ex = ey /\ (mx < my)%positive) ->
  Zpos mx * 2 ^ (ex - Z.min ey ex) < Zpos my * 2 ^ (ey - Z.min ey ex).
Proof.
  intros Hdx Hdy [Hlt|[-> Hlt]].
  - rewrite Z.min_r by lia. replace (ex - ex) with 0 by lia.
    pose proof (digits2_bounds mx) as Hx. pose proof (digits2_bounds my) as Hy.
    rewrite Hdx in Hx. rewrite Hdy in Hy.
    replace (ey - ex) with (Z.succ (ey - ex - 1)) by lia.
    rewrite Z.pow_succ_r by lia.
    assert (1 <= 2 ^ (ey - ex - 1)) by (pose proof (Z.pow_pos_nonneg 2 (ey - ex - 1)); lia).
    change (2 ^ 0) with 1. change (53 - 1) with 52 in *.
    change (2 ^ 53) with (2 * 2 ^ 52) in *. nia.
  - rewrite Z.min_id. apply Z.mul_lt_mono_pos_r; [apply Z.pow_pos_nonneg; lia | lia].
Qed.

Lemma SFltb_finite (mx my : positive) (ex ey : Z) :
  SFltb (S754_finite false mx ex) (S754_finite false my ey) = true ->
  ex < ey \/ (ex = ey /\ (mx < my)%positive).
Proof.
  unfold SFltb, SFcompare. destruct (Z.compare_spec ex ey) as [->|Hlt|Hgt].
  - change (Pos.compare_cont Eq mx my) with (mx ?= my)%positive.
    destruct (Pos.compare_spec mx my); try discriminate. intros _. right. split; [reflexivity | assumption].
  - intros _. left. exact Hlt.
  - discriminate.
Qed.

Section Normal.
Variables (mx my : positive) (ex ey elo : Z).
Hypothesis x_valid : valid_binary (S754_finite false mx ex) = true.
Hypothesis y_valid : valid_binary (S754_finite false my ey) = true.
Hypothesis lo_normal : -1074 < elo.
Hypothesis x_above : elo <= ex.
Hypothesis y_above : elo <= ey.

(** The sign of [y - x] is decided by the comparison, and the
    difference of two different numbers is not zero. *)
Lemma SFsub_normal_big :
  (SFltb (S754_finite false mx ex) (S754_finite false my ey) = true ->
   sf_big false (1 + elo)
     (SFsub prec emax (S754_finite false my ey) (S754_finite false mx ex)))
  /\ (SFltb (S754_finite false my ey) (S754_finite false mx ex) = true ->
      sf_big true (1 + elo)
        (SFsub prec emax (S754_finite false my ey) (S754_finite false mx ex))).
Proof.
  destruct (valid_finite _ _ _ x_valid) as (_ & _ & Hdx). specialize (Hdx ltac:(lia)).
  destruct (valid_finite _ _ _ y_valid) as (_ & _ & Hdy). specialize (Hdy ltac:(lia)).
  cbn [SFsub cond_Zopp].
  destruct (shl_align_spec my ey (Z.min ey ex) ltac:(lia)) as [Ha _].
  destruct (shl_align_spec mx ex (Z.min ey ex) ltac:(lia)) as [Hb _].
  set (a := fst (shl_align my ey (Z.min ey ex))) in *.
  set (b := fst (shl_align mx ex (Z.min ey ex))) in *.
  assert (Hbig : forall (s : bool) (p : positive),
            sf_big s (1 + elo) (binary_round prec emax s p (Z.min ey ex))).
  { intros s p. apply (sf_big_weaken _ (Zdigits2 (Zpos p) + Z.min ey ex)).
    - cbn [Zdigits2]. lia.
    - apply binary_round_big. unfold SpecFloat.emin, prec, emax. cbn [Zdigits2]. lia. }
  pose proof (fun H => aligned_lt mx my ex ey Hdx Hdy (SFltb_finite _ _ _ _ H)) as Hxy.
  pose proof (fun H => aligned_lt my mx ey ex Hdy Hdx (SFltb_finite _ _ _ _ H)) as Hyx.
  rewrite (Z.min_comm ex ey) in Hyx. rewrite <- Ha, <- Hb in Hxy, Hyx.
  destruct (Zpos a - Zpos b) as [|p|p] eqn:Hz; cbn [binary_normalize].
  - split; intros H; [specialize (Hxy H) | specialize (Hyx H)]; lia.
  - split; intros H; [apply Hbig | specialize (Hyx H); lia].
  - split; intros H; [specialize (Hxy H); lia | apply Hbig].
Qed.

Variable ehi : Z.
Hypothesis hi_finite : 53 + ehi <= 971.
Hypothesis x_below : ex <= ehi.
Hypothesis y_below : ey <= ehi.

Lemma SFsub_normal_small :
  sf_small (53 + ehi + 1)
    (SFsub prec emax (S754_finite false my ey) (S754_finite false mx ex)).
Proof.
  cbn [SFsub cond_Zopp].
  destruct (shl_align_spec my ey (Z.min ey ex) ltac:(lia)) as [Ha _].
  destruct (shl_align_spec mx ex (Z.min ey ex) ltac:(lia)) as [Hb _].
  set (a := fst (shl_align my ey (Z.min ey ex))) in *.
  set (b := fst (shl_align mx ex (Z.min ey ex))) in *.
  assert (Hua : Zpos a < 2 ^ (53 + ehi - Z.min ey ex)).
  { rewrite Ha. replace (53 + ehi - Z.min ey ex) with (53 + (ehi - ey) + (ey - Z.min ey ex)) by lia.
    rewrite Z.pow_add_r by lia.
    apply Z.mul_lt_mono_pos_r; [apply Z.pow_pos_nonneg; lia|].
    eapply Z.lt_le_trans; [apply pow2_digits|].
    destruct (valid_finite _ _ _ y_valid) as (Hd & _).
    apply Z.pow_le_mono_r; lia. }
  assert (Hub : Zpos b < 2 ^ (53 + ehi - Z.min ey ex)).
  { rewrite Hb. replace (53 + ehi - Z.min ey ex) with (53 + (ehi - ex) + (ex - Z.min ey ex)) by lia.
    rewrite Z.pow_add_r by lia.
    apply Z.mul_lt_mono_pos_r; [apply Z.pow_pos_nonneg; lia|].
    eapply Z.lt_le_trans; [apply pow2_digits|].
    destruct (valid_finite _ _ _ x_valid) as (Hd & _).
    apply Z.pow_le_mono_r; lia. }
  assert (Hsmall : forall (s : bool) (p : positive), Zpos p < 2 ^ (53 + ehi - Z.min ey ex) ->
            sf_small (53 + ehi + 1) (binary_round prec emax s p (Z.min ey ex))).
  { intros s p Hp. apply binary_round_small; unfold SpecFloat.emin, prec, emax; try lia.
    enough (Zdigits2 (Zpos p) <= 53 + ehi - Z.min ey ex) by lia.
    apply Zdigits2_le; lia. }
  destruct (Zpos a - Zpos b) as [|p|p] eqn:Hz; cbn [binary_normalize];
    [exact I | apply Hsmall; lia | apply Hsmall; lia].
Qed.

End Normal.

(** *** The stretch [dist - 120] *)

Lemma SFsub_ideal_stretched (d : spec_float) :
  valid_binary d = true -> SFltb sf_ideal d = true ->
  sf_big false (-45) (SFsub prec emax d sf_ideal).
Proof.
  intros Hv Hlt. destruct d as [s|[]| |[] md ed]; try discriminate Hlt.
  - reflexivity.
  - destruct (SFltb_finite _ _ _ _ Hlt) as [He|[He _]];
      apply (proj1 (SFsub_normal_big 8444249301319680 md (-46) ed (-46)
                      eq_refl Hv ltac:(lia) ltac:(lia) ltac:(lia)) Hlt).
Qed.

Lemma SFsub_ideal_compressed (d : spec_float) :
  valid_binary d = true -> SFltb d sf_ideal = true ->
  sf_big true (-45) (SFsub prec emax d sf_ideal).
Proof.
  intros Hv Hlt. destruct d as [s|[]| |[] md ed]; try discriminate Hlt.
  - cbn. split; [reflexivity | lia].
  - reflexivity.
  - (* a negative number *)
    destruct (valid_finite _ _ _ Hv) as (Hd & He & _).
    cbn [SFsub sf_ideal cond_Zopp].
    destruct (shl_align_spec md ed (Z.min ed (-46)) ltac:(lia)) as [Ha _].
    destruct (shl_align_spec 8444249301319680 (-46) (Z.min ed (-46)) ltac:(lia)) as [Hb _].
    set (a := fst (shl_align md ed (Z.min ed (-46)))) in *.
    set (b := fst (shl_align 8444249301319680 (-46) (Z.min ed (-46)))) in *.
    change (- Zpos a - Zpos b) with (Zneg (a + b)). cbn [binary_normalize].
    apply (sf_big_weaken _ (Zdigits2 (Zpos (a + b)) + Z.min ed (-46))).
    + enough (Zdigits2 (Zpos b) <= Zdigits2 (Zpos (a + b))
              /\ Zdigits2 (Zpos b) = 53 + (-46 - Z.min ed (-46))) by lia.
      split; [apply Zdigits2_mono; lia|].
      rewrite Hb, Zdigits2_shift by lia. reflexivity.
    + apply binary_round_big. unfold SpecFloat.emin, prec, emax.
      pose proof (Zdigits2_bounds (Zpos (a + b)) ltac:(lia)). lia.
  - destruct (SFltb_finite _ _ _ _ Hlt) as [He|[He _]].
    + (* below the binade of 120 *)
      destruct (valid_finite _ _ _ Hv) as (Hd & Hr & _).
      cbn [SFsub sf_ideal cond_Zopp]. rewrite Z.min_l by lia.
      destruct (shl_align_spec md ed ed ltac:(lia)) as [Ha _].
      destruct (shl_align_spec 8444249301319680 (-46) ed ltac:(lia)) as [Hb _].
      set (a := fst (shl_align md ed ed)) in *.
      set (b := fst (shl_align 8444249301319680 (-46) ed)) in *.
      replace (ed - ed) with 0 in Ha by lia. change (2 ^ 0) with 1 in Ha.
      pose proof (pow2_digits md) as Hmd.
      assert (Hmd' : Zpos md < 2 ^ 53).
      { eapply Z.lt_le_trans; [exact Hmd|]. apply Z.pow_le_mono_r; lia. }
      assert (Hk : 2 <= 2 ^ (-46 - ed)).
      { change 2 with (2 ^ 1) at 1. apply Z.pow_le_mono_r; lia. }
      assert (Hz : 2 ^ (-46 - ed) <= Zpos b - Zpos a).
      { rewrite Ha, Hb. change (2 ^ 53) with 9007199254740992 in Hmd'. nia. }
      destruct (Zpos a - Zpos b) as [|p|p] eqn:Hzz; try lia. cbn [binary_normalize].
      apply (sf_big_weaken _ (Zdigits2 (Zpos p) + ed)).
      * enough (-46 - ed + 1 <= Zdigits2 (Zpos p)) by lia.
        apply Zdigits2_ge; lia.
      * apply binary_round_big. unfold SpecFloat.emin, prec, emax.
        pose proof (Zdigits2_bounds (Zpos p) ltac:(lia)). lia.
    + subst ed.
      apply (proj2 (SFsub_normal_big 8444249301319680 md (-46) (-46) (-46)
                      eq_refl Hv ltac:(lia) ltac:(lia) ltac:(lia)) Hlt).
Qed.

(** *** Division *)

Lemma SFdiv_big (sx sy : bool) (mx my : positive) (ex ey lx hy : Z) :
  valid_binary (S754_finite sx mx ex) = true ->
  lx <= Zpos (digits2_pos mx) + ex -> Zpos (digits2_pos my) + ey <= hy ->
  SpecFloat.emin prec emax + 53 <= lx - hy ->
  sf_big (xorb sx sy) (lx - hy)
    (SFdiv prec emax (S754_finite sx mx ex) (S754_finite sy my ey)).
Proof.
  intros Hv Hlx Hhy Hl. destruct (valid_finite _ _ _ Hv) as (Hd1 & _ & _).
  cbn [SFdiv]. unfold SFdiv_core_binary. cbn [Zdigits2].
  set (d1 := Zpos (digits2_pos mx)) in *. set (d2 := Zpos (digits2_pos my)) in *.
  assert (Hd2 : 1 <= d2) by (unfold d2; lia).
  assert (He' : Z.min (fexp prec emax (d1 + ex - (d2 + ey))) (ex - ey)
                = d1 + ex - (d2 + ey) - 53).
  { unfold fexp, SpecFloat.emin, prec, emax in *. lia. }
  rewrite He'.
  replace (ex - ey - (d1 + ex - (d2 + ey) - 53)) with (53 - d1 + d2) by lia.
  destruct (53 - d1 + d2) as [|p|p] eqn:Hs; try lia.
  rewrite Z.shiftl_mul_pow2 by lia.
  pose proof (Z.div_eucl_eq (Zpos mx * 2 ^ Zpos p) (Zpos my) ltac:(lia)) as Heq.
  pose proof (Z.mod_pos_bound (Zpos mx * 2 ^ Zpos p) (Zpos my) ltac:(lia)) as Hr.
  unfold Z.modulo in Hr.
  destruct (Z.div_eucl (Zpos mx * 2 ^ Zpos p) (Zpos my)) as [q r].
  assert (Hq : 2 ^ 52 <= q).
  { pose proof (digits2_bounds mx) as Hmx. pose proof (pow2_digits my) as Hmy.
    fold d1 in Hmx. fold d2 in Hmy.
    assert (Hp : 2 ^ (d1 - 1) * 2 ^ Zpos p = 2 ^ d2 * 2 ^ 52).
    { rewrite <- !Z.pow_add_r by lia. f_equal. lia. }
    destruct (Z_lt_le_dec q (2 ^ 52)) as [Hlt|]; [exfalso|assumption].
    assert (Zpos my * q + r < Zpos my * 2 ^ 52) by nia.
    assert (2 ^ (d1 - 1) * 2 ^ Zpos p <= Zpos mx * 2 ^ Zpos p).
    { apply Z.mul_le_mono_nonneg_r; [apply Z.pow_nonneg; lia | lia]. }
    assert (Zpos my * 2 ^ 52 < 2 ^ d2 * 2 ^ 52).
    { apply Z.mul_lt_mono_pos_r; [apply Z.pow_pos_nonneg; lia | lia]. }
    lia. }
  assert (Hdq : 53 <= Zdigits2 q) by (apply (Zdigits2_ge q 52); lia).
  apply (sf_big_weaken _ (Zdigits2 q + (d1 + ex - (d2 + ey) - 53))); [lia|].
  apply binary_round_aux_big; [change (2 ^ 52) with 4503599627370496 in Hq; lia|].
  unfold SpecFloat.emin, prec, emax in *. lia.
Qed.

(** *** Adding to and subtracting from zero; comparing with zero *)

Lemma SFadd_zero_big (s : bool) (l : Z) (y : spec_float) :
  sf_big s l y -> sf_big s l (SFadd prec emax (S754_zero false) y).
Proof. destruct y; cbn; tauto. Qed.

Lemma SFsub_zero_big (s : bool) (l : Z) (y : spec_float) :
  sf_big s l y -> sf_big (negb s) l (SFsub prec emax (S754_zero false) y).
Proof.
  destruct y; cbn; try tauto.
  - intros ->. reflexivity.
  - intros [-> H]. split; [reflexivity | exact H].
Qed.

Lemma sf_big_positive (l : Z) (x : spec_float) :
  sf_big false l x -> SFltb (S754_zero false) x = true.
Proof. destruct x as [| | |s m e]; cbn; try tauto; [intros -> | intros [-> _]]; reflexivity. Qed.

Lemma sf_big_negative (l : Z) (x : spec_float) :
  sf_big true l x -> SFltb x (S754_zero false) = true.
Proof. destruct x as [| | |s m e]; cbn; try tauto; [intros -> | intros [-> _]]; reflexivity. Qed.


End Rounding.

(** *** The spring between two endpoints in view *)

Module SpringFacts.
Import Magnitude Rounding.
Local Open Scope Z_scope.

Lemma SFleb_exponent (m1 m2 : positive) (e1 e2 : Z) :
  SFleb (S754_finite false m1 e1) (S754_finite false m2 e2) = true -> e1 <= e2.
Proof.
  unfold SFleb, SFcompare. destruct (Z.compare_spec e1 e2); [lia | lia | discriminate].
Qed.

(** A number between two positive finite numbers is positive and
    finite, with an exponent between theirs. *)
Lemma within_exponent (lo hi p : float) (mlo mhi : positive) (elo ehi : Z) :
  Prim2SF lo = S754_finite false mlo elo ->
  Prim2SF hi = S754_finite false mhi ehi ->
  within lo hi p ->
  exists m e, Prim2SF p = S754_finite false m e /\ elo <= e <= ehi.
Proof.
  intros Hlo Hhi [H1 H2]. rewrite leb_spec in H1, H2.
  rewrite Hlo in H1. rewrite Hhi in H2.
  destruct (Prim2SF p) as [s|[]| |[] m e]; try (cbn in H1, H2; discriminate).
  exists m, e. split; [reflexivity|].
  split; eapply SFleb_exponent; eassumption.
Qed.

Lemma in_view_on_grid (n : SimNode float) :
  in_view n -> on_grid (x (node n)) /\ on_grid (y (node n)).
Proof.
  intros [Hx Hy]. split.
  - exact (within_exponent 16 1000 _ 4503599627370496 8796093022208000 (-48) (-43)
             eq_refl eq_refl Hx).
  - exact (within_exponent 16 1000 _ 4503599627370496 8796093022208000 (-48) (-43)
             eq_refl eq_refl Hy).
Qed.

(** The canvas lies within that range. *)
Lemma SFleb_finite (m1 m2 : positive) (e1 e2 : Z) :
  SFleb (S754_finite false m1 e1) (S754_finite false m2 e2) = true
  <-> e1 < e2 \/ (e1 = e2 /\ (m1 <= m2)%positive).
Proof.
  unfold SFleb, SFcompare. destruct (Z.compare_spec e1 e2) as [->|Hlt|Hgt].
  - change (Pos.compare_cont Eq m1 m2) with (m1 ?= m2)%positive.
    destruct (Pos.compare_spec m1 m2) as [->|Hc|Hc]; split; intros Hle;
      try reflexivity; try discriminate.
    + right. split; [reflexivity | apply Pos.le_refl].
    + right. split; [reflexivity | apply Pos.lt_le_incl; exact Hc].
    + destruct Hle as [Hle|[_ Hle]]; [lia|].
      exfalso. apply (Pos.lt_irrefl m1).
      apply Pos.le_lt_trans with m2; assumption.
  - split; intros _; [left; exact Hlt | reflexivity].
  - split; [discriminate | intros [Hle|[Hle _]]; lia].
Qed.

Lemma widen (lo hi p : float) (mlo mhi : positive) (elo ehi : Z) :
  Prim2SF lo = S754_finite false mlo elo ->
  Prim2SF hi = S754_finite false mhi ehi ->
  -48 <= elo ->
  ehi < -43 \/ (ehi = -43 /\ (mhi <= 8796093022208000)%positive) ->
  within lo hi p -> within 16 1000 p.
Proof.
  intros Hlo Hhi Helo Hehi Hw.
  destruct (within_exponent lo hi p mlo mhi elo ehi Hlo Hhi Hw) as (m & e & Hp & He).
  destruct Hw as [_ H2]. pose proof (Prim2SF_valid p) as Vp.
  rewrite leb_spec, Hp, Hhi in H2. rewrite Hp in Vp.
  apply SFleb_finite in H2.
  destruct (Rounding.valid_finite _ _ _ Vp) as (_ & _ & Hd).
  assert (Hn : -1074 < e) by (clear -He Helo; lia). specialize (Hd Hn).
  pose proof (Rounding.digits2_bounds m) as [Hm _]. rewrite Hd in Hm.
  change (2 ^ (53 - 1)) with (Z.pos 4503599627370496) in Hm.
  split; rewrite leb_spec, Hp.
  - change (Prim2SF 16) with (S754_finite false 4503599627370496 (-48)).
    apply SFleb_finite.
    destruct (Z.eq_dec e (-48)) as [->|Hne].
    + right. split; [reflexivity | exact Hm].
    + left. clear -Hne He Helo. lia.
  - change (Prim2SF 1000) with (S754_finite false 8796093022208000 (-43)).
    apply SFleb_finite.
    destruct Hehi as [Hlt|[-> Hle]].
    + left. clear -Hlt He. lia.
    + destruct H2 as [Hlt|[-> Hmm]].
      * left. exact Hlt.
      * right. split; [reflexivity | apply Pos.le_trans with mhi; assumption].
Qed.

Lemma in_canvas_in_view (n : SimNode float) : in_canvas n -> in_view n.
Proof.
  intros [Hx Hy]. split.
  - apply (widen 20 680 _ 5629499534213120 5981343255101440 (-48) (-43));
      [reflexivity | reflexivity | lia | right; split; [reflexivity | lia] | exact Hx].
  - apply (widen 20 420 _ 5629499534213120 7388718138654720 (-48) (-44));
      [reflexivity | reflexivity | lia | left; lia | exact Hy].
Qed.

(** The difference of two coordinates. *)
Lemma grid_difference (p q : float) :
  on_grid p -> on_grid q ->
  sf_small 11 (Prim2SF (q - p))
  /\ (PrimFloat.ltb p q = true -> sf_big false (-47) (Prim2SF (q - p)))
  /\ (PrimFloat.ltb q p = true -> sf_big true (-47) (Prim2SF (q - p))).
Proof.
  intros (mp & ep & Hp & Hep) (mq & eq & Hq & Heq).
  pose proof (Prim2SF_valid p) as Vp. pose proof (Prim2SF_valid q) as Vq.
  rewrite sub_spec, !ltb_spec, Hp, Hq in *. unfold SF64sub.
  split.
  - apply (SFsub_normal_small mp mq ep eq (-48) Vp Vq ltac:(lia) ltac:(lia)
             ltac:(lia) (-43)); lia.
  - apply (SFsub_normal_big mp mq ep eq (-48) Vp Vq); lia.
Qed.

(** [Math.sqrt(dx * dx + dy * dy) || 1] is a positive finite number
    below 2 ^ 14. *)
Lemma truthy_number (a : float) :
  F64.to_boolean a = true ->
  match Prim2SF a with S754_zero _ | S754_nan => False | _ => True end.
Proof.
  unfold F64.to_boolean, F64.is_zero, PrimFloat.is_nan.
  rewrite !FloatAxioms.eqb_spec. change (Prim2SF PrimFloat.zero) with (S754_zero false).
  destruct (Prim2SF a) as [[]|[]| |[] m e]; cbn; try discriminate; exact (fun _ => I).
Qed.

Lemma grid_length (dx dy : float) :
  sf_small 11 (Prim2SF dx) -> sf_small 11 (Prim2SF dy) ->
  exists m e,
    Prim2SF (num_or (Math_sqrt (dx * dx + dy * dy)%js) (num_of_Z 1))
    = S754_finite false m e
    /\ Zpos (digits2_pos m) + e <= 14.
Proof.
  intros Hx Hy. cbn [num_mul num_add Math_sqrt num_of_Z float_number].
  pose proof (SFmul_square 11 _ Hx ltac:(cbv; discriminate) ltac:(cbv; discriminate)) as Hxx.
  pose proof (SFmul_square 11 _ Hy ltac:(cbv; discriminate) ltac:(cbv; discriminate)) as Hyy.
  rewrite <- !mul_spec in Hxx, Hyy.
  pose proof (SFadd_pos _ _ 23 _ _ Hxx Hyy ltac:(lia) ltac:(lia)
                ltac:(cbv; discriminate) ltac:(cbv; discriminate)) as Hsum.
  rewrite <- add_spec in Hsum.
  pose proof (SFsqrt_pos _ 13 _ Hsum ltac:(cbv; discriminate)
                ltac:(cbv; discriminate) ltac:(cbv; discriminate)) as Hroot.
  rewrite <- sqrt_spec in Hroot.
  unfold num_or. cbn [truthy float_number].
  destruct (F64.to_boolean _) eqn:Ht.
  - apply truthy_number in Ht.
    destruct (Prim2SF (PrimFloat.sqrt (dx * dx + dy * dy))) as [|s| |[] m e];
      try contradiction.
    exists m, e. split; [reflexivity | exact Hroot].
  - eexists _, _. split; [reflexivity | cbv; discriminate].
Qed.

(** The spring force is positive when the length exceeds 120 and
    negative when it is below, whatever the length. *)
Lemma force_stretched (dist : float) :
  PrimFloat.ltb 120 dist = true ->
  sf_big false (-50) (Prim2SF ((dist - ideal) * dec 4 100)%js).
Proof.
  intros Hlt. cbn [num_mul num_sub float_number]. rewrite mul_spec, sub_spec.
  rewrite ltb_spec in Hlt.
  change (Prim2SF ideal) with sf_ideal. change (Prim2SF 120) with sf_ideal in Hlt.
  apply (SFmul_big false false (-45) (-4)).
  - apply SFsub_ideal_stretched; [apply Prim2SF_valid | exact Hlt].
  - split; [reflexivity | cbv; discriminate].
  - cbv. reflexivity.
Qed.

Lemma force_compressed (dist : float) :
  PrimFloat.ltb dist 120 = true ->
  sf_big true (-50) (Prim2SF ((dist - ideal) * dec 4 100)%js).
Proof.
  intros Hlt. cbn [num_mul num_sub float_number]. rewrite mul_spec, sub_spec.
  rewrite ltb_spec in Hlt.
  change (Prim2SF ideal) with sf_ideal. change (Prim2SF 120) with sf_ideal in Hlt.
  apply (SFmul_big true false (-45) (-4)).
  - apply SFsub_ideal_compressed; [apply Prim2SF_valid | exact Hlt].
  - split; [reflexivity | cbv; discriminate].
  - cbv. reflexivity.
Qed.

Lemma big_positive (l : Z) (v : float) :
  sf_big false l (Prim2SF v) -> PrimFloat.ltb 0 v = true.
Proof. rewrite ltb_spec. apply sf_big_positive. Qed.

Lemma big_negative (l : Z) (v : float) :
  sf_big true l (Prim2SF v) -> PrimFloat.ltb v 0 = true.
Proof. rewrite ltb_spec. apply sf_big_negative. Qed.

(** One component [(d / dist) * force] of the velocity change: it is
    not zero, and its sign is that of [d] times that of the force. *)
Lemma component_big (d dist force : float) (sd sf : bool) (m : positive) (e : Z) :
  sf_small 11 (Prim2SF d) -> sf_big sd (-47) (Prim2SF d) ->
  Prim2SF dist = S754_finite false m e -> Zpos (digits2_pos m) + e <= 14 ->
  sf_big sf (-50) (Prim2SF force) ->
  sf_big (xorb sd sf) (-112) (Prim2SF (d / dist * force)).
Proof.
  intros Hs Hb Hdist Hm Hf. rewrite mul_spec, div_spec, Hdist.
  pose proof (Prim2SF_valid d) as Vd.
  destruct (Prim2SF d) as [| | |s md ed]; try contradiction.
  destruct Hb as [-> Hb].
  apply (SFmul_big _ sf (-61) (-50)); [|exact Hf | cbv; reflexivity].
  replace sd with (xorb sd false) at 1 by (destruct sd; reflexivity).
  apply (SFdiv_big sd false md m ed e (-47) 14 Vd Hb Hm). cbv. discriminate.
Qed.

Lemma ltb_irrefl (a : float) : PrimFloat.ltb a a = false.
Proof.
  rewrite ltb_spec. unfold SFltb.
  destruct (Prim2SF a) as [s|s| |s m e] eqn:Ha; try reflexivity;
    rewrite F64Facts.SFcompare_refl by discriminate; reflexivity.
Qed.

Section Coordinate.
Variables (p q dist force : float) (m : positive) (e : Z).
Hypothesis p_on_grid : on_grid p.
Hypothesis q_on_grid : on_grid q.
Hypothesis dist_finite : Prim2SF dist = S754_finite false m e.
Hypothesis dist_small : Zpos (digits2_pos m) + e <= 14.

(** The velocity change [f] of the node at [p] along one coordinate,
    and what it does to a node at rest at [p] (it gets [0 + f]) and to
    one at rest at [q] (it gets [0 - f]). *)
Lemma pulled_along :
  sf_big false (-50) (Prim2SF force) ->
  heads p q (0 + (q - p) / dist * force) /\ heads q p (0 - (q - p) / dist * force).
Proof.
  intros Hf. destruct (grid_difference p q p_on_grid q_on_grid) as (Hs & Hpos & Hneg).
  repeat split; intros Hlt.
  - apply (big_positive (-112)). rewrite add_spec. apply SFadd_zero_big.
    apply (component_big _ _ _ false false m e Hs (Hpos Hlt) dist_finite dist_small Hf).
  - apply (big_negative (-112)). rewrite add_spec. apply SFadd_zero_big.
    apply (component_big _ _ _ true false m e Hs (Hneg Hlt) dist_finite dist_small Hf).
  - apply (big_positive (-112)). rewrite sub_spec. apply (SFsub_zero_big true).
    apply (component_big _ _ _ true false m e Hs (Hneg Hlt) dist_finite dist_small Hf).
  - apply (big_negative (-112)). rewrite sub_spec. apply (SFsub_zero_big false).
    apply (component_big _ _ _ false false m e Hs (Hpos Hlt) dist_finite dist_small Hf).
Qed.

Lemma pushed_along :
  sf_big true (-50) (Prim2SF force) ->
  heads q p (0 + (q - p) / dist * force) /\ heads p q (0 - (q - p) / dist * force).
Proof.
  intros Hf. destruct (grid_difference p q p_on_grid q_on_grid) as (Hs & Hpos & Hneg).
  repeat split; intros Hlt.
  - apply (big_positive (-112)). rewrite add_spec. apply SFadd_zero_big.
    apply (component_big _ _ _ true true m e Hs (Hneg Hlt) dist_finite dist_small Hf).
  - apply (big_negative (-112)). rewrite add_spec. apply SFadd_zero_big.
    apply (component_big _ _ _ false true m e Hs (Hpos Hlt) dist_finite dist_small Hf).
  - apply (big_positive (-112)). rewrite sub_spec. apply (SFsub_zero_big true).
    apply (component_big _ _ _ false true m e Hs (Hpos Hlt) dist_finite dist_small Hf).
  - apply (big_negative (-112)). rewrite sub_spec. apply (SFsub_zero_big false).
    apply (component_big _ _ _ true true m e Hs (Hneg Hlt) dist_finite dist_small Hf).
Qed.

End Coordinate.

End SpringFacts.


Section SpringTheorem.
Import Magnitude SpringFacts.
Variables (s t : SimNode float).
Hypothesis s_rests : resting s.
Hypothesis t_rests : resting t.

Lemma edge_length_in_view :
  in_view s -> in_view t ->
  exists m e, Prim2SF (edge_length s t) = S754_finite false m e
              /\ (Zpos (digits2_pos m) + e <= 14)%Z.
Proof.
  intros Hs Ht.
  destruct (in_view_on_grid s Hs) as [Hsx Hsy].
  destruct (in_view_on_grid t Ht) as [Htx Hty].
  apply grid_length.
  - apply (grid_difference _ _ Hsx Htx).
  - apply (grid_difference _ _ Hsy Hty).
Qed.

Lemma stretched_in_view :
  sf_big false (-50) (Prim2SF (spring_scalar s t)) ->
  in_view s -> in_view t ->
  moving_towards s t
    (add_velocity (spring_force s t).1 (spring_force s t).2 s)
  /\ moving_towards t s
       (sub_velocity (spring_force s t).1 (spring_force s t).2 t).
Proof.
  intros Hf Hs Ht.
  destruct (edge_length_in_view Hs Ht) as (m & e & Hd & Hm).
  destruct (in_view_on_grid s Hs) as [Hsx Hsy].
  destruct (in_view_on_grid t Ht) as [Htx Hty].
  destruct s_rests as [Hsvx Hsvy]. destruct t_rests as [Htvx Htvy].
  unfold moving_towards, add_velocity, sub_velocity, spring_force.
  cbn [vx vy node fst snd num_add num_sub num_mul num_div float_number].
  rewrite Hsvx, Hsvy, Htvx, Htvy.
  destruct (pulled_along _ _ _ _ m e Hsx Htx Hd Hm Hf) as [Hx1 Hx2].
  destruct (pulled_along _ _ _ _ m e Hsy Hty Hd Hm Hf) as [Hy1 Hy2].
  repeat split; first [ apply Hx1 | apply Hx2 | apply Hy1 | apply Hy2 ].
Qed.

Lemma compressed_in_view :
  sf_big true (-50) (Prim2SF (spring_scalar s t)) ->
  in_view s -> in_view t ->
  moving_away s t
    (add_velocity (spring_force s t).1 (spring_force s t).2 s)
  /\ moving_away t s
       (sub_velocity (spring_force s t).1 (spring_force s t).2 t).
Proof.
  intros Hf Hs Ht.
  destruct (edge_length_in_view Hs Ht) as (m & e & Hd & Hm).
  destruct (in_view_on_grid s Hs) as [Hsx Hsy].
  destruct (in_view_on_grid t Ht) as [Htx Hty].
  destruct s_rests as [Hsvx Hsvy]. destruct t_rests as [Htvx Htvy].
  unfold moving_away, add_velocity, sub_velocity, spring_force.
  cbn [vx vy node fst snd num_add num_sub num_mul num_div float_number].
  rewrite Hsvx, Hsvy, Htvx, Htvy.
  destruct (pushed_along _ _ _ _ m e Hsx Htx Hd Hm Hf) as [Hx1 Hx2].
  destruct (pushed_along _ _ _ _ m e Hsy Hty Hd Hm Hf) as [Hy1 Hy2].
  repeat split; first [ apply Hx1 | apply Hx2 | apply Hy1 | apply Hy2 ].
Qed.

End SpringTheorem.

Lemma heads_nowhere (p v : float) : heads p p v.
Proof.
  split; intros Hlt; rewrite SpringFacts.ltb_irrefl in Hlt; discriminate.
Qed.




(** Off the canvas the clamp can undo the push: a at (0, 0) and b at
    (10, 0), 10 apart, are both moved to (20, 20). *)
Lemma off_canvas_endpoints_collapse :
  (fun n => (x (node n), y (node n)))
    <$> integrate
          (attraction [mkEdge "a" "b" 2%float shared_device]
             (init_local [ mkNode "a" account 0.5%float "" 0%float 0%float;
                           mkNode "b" device 0.9%float "" 10%float 0%float ]))
  = [ (20, 20); (20, 20) ]%float.
Proof. vm_compute. reflexivity. Qed.

(** In binary64 a stretch of one unit in the last place is lost to
    rounding: a at (100, 100) and b at (220.00000000000003, 100) are
    120.00000000000003 apart, and the step leaves both where they are. *)
Lemma tiny_stretch_is_absorbed :
  let a := mkNode "a" account 0.5%float "" 100%float 100%float in
  let b := mkNode "b" device 0.9%float "" 220.00000000000003%float 100%float in
  PrimFloat.ltb 120 (separation (mkSim a 0 0) (mkSim b 0 0))%float = true /\
  (fun n => (x (node n), y (node n)))
    <$> integrate (attraction [mkEdge "a" "b" 2%float shared_device]
                     (init_local [a; b]))
  = [ (100, 100); (220.00000000000003, 100) ]%float.
Proof. split; vm_compute; reflexivity. Qed.

(** Likewise on the other side: a at (100, 100) and b at
    (219.99999999999997, 100) are 119.99999999999997 apart, both get a
    velocity pointing away from the other, and the step leaves both
    where they are. *)
Lemma tiny_squeeze_is_absorbed :
  let a := mkNode "a" account 0.5%float "" 100%float 100%float in
  let b := mkNode "b" device 0.9%float "" 219.99999999999997%float 100%float in
  PrimFloat.ltb (edge_length (mkSim a 0%float 0%float) (mkSim b 0%float 0%float))
                120%float = true /\
  (fun n => PrimFloat.ltb (vx n) 0)
    <$> attraction [mkEdge "a" "b" 2%float shared_device] (init_local [a; b])
  = [true; false] /\
  (fun n => PrimFloat.ltb 0 (vx n))
    <$> attraction [mkEdge "a" "b" 2%float shared_device] (init_local [a; b])
  = [false; true] /\
  (fun n => (x (node n), y (node n)))
    <$> integrate (attraction [mkEdge "a" "b" 2%float shared_device]
                     (init_local [a; b]))
  = [ (100, 100); (219.99999999999997, 100) ]%float.
Proof. repeat split; vm_compute; reflexivity. Qed.



(** * Further properties of the graph view *)

(** ** The tick changes positions and velocities only *)

Section Identity.
Context {num : Type} {JN : JsNumber num}.

Lemma identity_push (fx fy gx gy : num) (i j : nat) (ns : list (SimNode num)) :
  identity <$> alter (sub_velocity gx gy) j (alter (add_velocity fx fy) i ns)
  = identity <$> ns.
Proof. rewrite !fmap_alter_same; reflexivity. Qed.

Lemma identity_attract_edge (ns : list (SimNode num)) (e : GraphEdge num) :
  identity <$> attract_edge ns e = identity <$> ns.
Proof.
  unfold attract_edge.
  destruct (find_node (source e) ns) as [[i s]|]; [|reflexivity].
  destruct (find_node (target e) ns) as [[j t]|]; [|reflexivity].
  apply identity_push.
Qed.

Lemma identity_repel_pair (i j : nat) (ns : list (SimNode num)) :
  identity <$> repel_pair i j ns = identity <$> ns.
Proof.
  unfold repel_pair.
  destruct (ns !! i); [|reflexivity]. destruct (ns !! j); [|reflexivity].
  apply identity_push.
Qed.

(** X1: a tick keeps the nodes themselves: the same number of nodes in
    the same order, each with the id, type, risk and label it had.  Only
    positions and velocities are written. *)
Theorem tick_keeps_identity
  (edgeMap : list (GraphEdge num)) (localNodes : list (SimNode num)) :
  identity <$> tick edgeMap localNodes = identity <$> localNodes.
Proof.
  unfold tick, integrate, gravity. rewrite <- !list_fmap_compose.
  change (identity ∘ integrate_node ∘ gravity_node) with (@identity num).
  unfold attraction.
  rewrite (foldl_preserves (fmap identity) attract_edge)
    by (intros; apply identity_attract_edge).
  unfold repulsion. apply (foldl_preserves (fmap identity)). intros a i.
  unfold repel_row. apply (foldl_preserves (fmap identity)). intros b j.
  apply identity_repel_pair.
Qed.

End Identity.

(** ** Dimmed nodes, connection count, edge type counts *)

Section Panel.
Context {num : Type}.
Implicit Types (edges : list (GraphEdge num)) (e : GraphEdge num)
               (sel n : GraphNode num).

(** X3: with a node selected, a node is dimmed exactly when it is not the
    selected node and no edge joins it to the selected node; the
    selected node itself is never dimmed, with or without edges. *)
Theorem dimmed_iff_not_adjacent edges sel n :
  (dimmed edges (Some sel) n = true
   <-> id n <> id sel
       /\ forall e, e ∈ edges -> touches (id sel) e -> ~ touches (id n) e)
  /\ dimmed edges (Some sel) sel = false.
Proof.
  split.
  - unfold dimmed.
    rewrite andb_true_iff, !bool_decide_eq_true, elem_of_selNeighbors. split.
    + intros [Hn Hne]. split; [congruence|].
      intros e He Hs Ht. apply Hn. exists e. auto.
    + intros [Hne Hall]. split; [|congruence].
      intros (e & He & Hs & Ht). exact (Hall e He Hs Ht).
  - unfold dimmed. rewrite (bool_decide_eq_false_2 (id sel <> id sel)) by tauto.
    apply andb_false_r.
Qed.

Lemma connections_adjacent edges sel :
  connections edges sel = length (adjacent edges sel).
Proof. unfold connections, adjacent. rewrite length_fmap. reflexivity. Qed.

Lemma size_list_to_set_le (l : list string) :
  size (list_to_set l : gset string) <= length l.
Proof.
  induction l as [|k l IH]; cbn; [rewrite size_empty; lia|].
  rewrite size_union_alt, size_singleton.
  assert (size (list_to_set l ∖ {[k]} : gset string)
          <= size (list_to_set l : gset string))
    by (apply subseteq_size; set_solver).
  lia.
Qed.

(** X4: the "Connections" figure of the side panel and the highlighted
    set agree: the figure is 0 exactly when the set is empty (then every
    other node is dimmed), and the set never has more members than the
    figure plus one (the selected node itself). *)
Theorem connections_bound_neighbours edges sel :
  (connections edges sel = 0 <-> selNeighbors edges (Some sel) = ∅)
  /\ size (selNeighbors edges (Some sel)) <= S (connections edges sel).
Proof.
  rewrite connections_adjacent, selNeighbors_closed.
  pose proof (size_list_to_set_le (adjacent edges sel)) as Hle.
  destruct (adjacent edges sel) as [|k l] eqn:Hadj.
  - cbn. split; [split; [intros _; set_solver | reflexivity]|].
    rewrite union_empty_l_L, size_empty. lia.
  - split.
    + split; [discriminate|]. intros Hempty. exfalso.
      assert (Hin : id sel ∈ ({[id sel]} ∪ list_to_set (k :: l) : gset string))
        by set_solver.
      rewrite Hempty in Hin. set_solver.
    + rewrite size_union_alt, size_singleton.
      assert (size (list_to_set (k :: l) ∖ {[id sel]} : gset string)
              <= size (list_to_set (k :: l) : gset string))
        by (apply subseteq_size; set_solver).
      lia.
Qed.

(** X5: the counts of the "Edge Types" card, one per key of
    [EDGE_COLOR], add up to the "Edges" figure of "Graph Stats". *)
Theorem edge_type_counts_sum edges :
  foldr (fun t acc => edge_type_count edges t + acc) 0 EDGE_COLOR_keys
  = length edges.
Proof.
  unfold edge_type_count, EDGE_COLOR_keys. cbn.
  induction edges as [|e edges IH]; [reflexivity|].
  rewrite !filter_cons. cbn [length]. rewrite <- IH.
  destruct (etype e);
    repeat (destruct (decide _) as [?|?]; try discriminate; try congruence);
    cbn [length]; lia.
Qed.

Lemma obj_get_nodeMap (ns : list (GraphNode num)) (key : string) :
  obj_get (nodeMap ns) key
  = match last (filter (fun n => id n = key) ns) with
    | Some n => is_node n
    | None =>
        if bool_decide (key ∈ Object_prototype_keys) then is_inherited key
        else is_undefined
    end.
Proof.
  unfold obj_get. rewrite nodeMap_own.
  destruct (last (filter (fun n => id n = key) ns)); reflexivity.
Qed.

(** X6: [nodeMap[key]] is the last node of the list that carries the id
    [key] (so with pairwise distinct ids every node is found under its
    own id); where no node carries it the read falls through to
    [Object.prototype]: the inherited member for the names it defines,
    [undefined] for every other key. *)
Theorem nodeMap_last_wins (ns : list (GraphNode num)) (key : string) :
  obj_get (nodeMap ns) key
  = match last (filter (fun n => id n = key) ns) with
    | Some n => is_node n
    | None =>
        if bool_decide (key ∈ Object_prototype_keys) then is_inherited key
        else is_undefined
    end.
Proof.
  unfold obj_get. rewrite nodeMap_own.
  destruct (last (filter (fun n => id n = key) ns)); reflexivity.
Qed.

Lemma last_filter_id (ns : list (GraphNode num)) (key : string) :
  is_Some (last (filter (fun n => id n = key) ns)) <-> key ∈ id <$> ns.
Proof.
  pose proof (nodeMap_own_None ns key) as Hk. rewrite nodeMap_own in Hk.
  destruct (last (filter (fun n => id n = key) ns)) as [n|].
  - split; [intros _ | eauto].
    destruct (decide (key ∈ id <$> ns)) as [Hin|Hn]; [exact Hin|].
    apply Hk in Hn. discriminate.
  - split; [intros [? [=]] | intros Hin]. exfalso. exact (proj1 Hk eq_refl Hin).
Qed.

(** X7: an edge is drawn exactly when each of its two ids names a node
    or a member inherited from [Object.prototype] (for an id of the
    second kind the tick skips the edge, the renderer does not).  A drawn
    line starts at the last node carrying the source id and ends at the
    last node carrying the target id, an end without a node having
    [undefined] coordinates; its stroke width is the edge's weight and
    its dim flag is [dim]. *)
Theorem render_edge_drawn_iff_found (ns : list (GraphNode num)) edges
  (selected : option (GraphNode num)) e :
  (is_Some (render_edge ns edges selected e)
   <-> ((source e ∈ id <$> ns) \/ (source e ∈ Object_prototype_keys))
       /\ ((target e ∈ id <$> ns) \/ (target e ∈ Object_prototype_keys)))
  /\ (forall l, render_edge ns edges selected e = Some l ->
        x1 l = x <$> last (filter (fun n => id n = source e) ns)
        /\ y1 l = y <$> last (filter (fun n => id n = source e) ns)
        /\ x2 l = x <$> last (filter (fun n => id n = target e) ns)
        /\ y2 l = y <$> last (filter (fun n => id n = target e) ns)
        /\ strokeWidth l = weight e
        /\ line_dim l = dim edges selected e).
Proof.
  unfold render_edge. rewrite !obj_get_nodeMap.
  rewrite <- !last_filter_id.
  destruct (last (filter (fun n => id n = source e) ns)) as [s|];
    destruct (last (filter (fun n => id n = target e) ns)) as [t|];
    repeat case_bool_decide; cbn;
    (split;
     [ unfold is_Some; naive_solver
     | intros l Hl; try discriminate Hl; injection Hl as <-;
       repeat split; reflexivity ]).
Qed.

(** X8: hovering and selecting are independent: after any sequence of
    events the selection is what the clicks alone produce, and the
    hovered node is what the mouse-enter and mouse-leave events alone
    produce. *)
Theorem hover_and_selection_independent (u : @Ui num)
  (evs : list (@UiEvent num)) :
  selected (ui_run u evs) = selected (ui_run u (filter (fun ev => is_click ev = true) evs))
  /\ hovered (ui_run u evs)
     = hovered (ui_run u (filter (fun ev => is_click ev = false) evs)).
Proof.
  unfold ui_run. induction evs as [|ev evs IH] using rev_ind; [split; reflexivity|].
  rewrite !filter_app, !foldl_app, !filter_cons, !filter_nil.
  destruct IH as [IHs IHh].
  destruct ev; cbn; rewrite ?foldl_app; cbn; rewrite ?IHs, ?IHh, ?app_nil_r;
    split; try reflexivity; try assumption.
Qed.

End Panel.

(** ** The generated graph *)

Section Generated.
Context {num : Type} {JN : JsNumber num}.
Variable drawn : Z -> @Drawn num.

(** X9: whatever the random draws, [buildGraph] returns 20 nodes with
    pairwise distinct ids and 19 edges; the target of every edge is a
    node, and so is the source of all but two of them. *)
Theorem buildGraph_shape :
  let ids := id <$> (buildGraph drawn).1 in
  let edges := (buildGraph drawn).2 in
  length ids = 20 /\ NoDup ids /\ length edges = 19
  /\ Forall (fun e => target e ∈ ids) edges
  /\ length (filter (fun e => source e ∉ ids) edges) = 2.
Proof.
  cbv zeta.
  change (id <$> (buildGraph drawn).1)
    with ["D0"; "A1"; "M2"; "A3"; "A4"; "A5"; "A6"; "IP7"; "D8"; "A9"; "M10";
          "A11"; "A12"; "A13"; "IP14"; "D15"; "A16"; "M17"; "A18"; "A19"].
  split; [reflexivity|]. split; [apply (bool_decide_unpack _); vm_compute; exact I|].
  split; [reflexivity|]. split.
  - set (ids := [_; _; _; _; _; _; _; _; _; _; _; _; _; _; _; _; _; _; _; _]).
    assert (Ht : Forall (fun k => k ∈ ids) (target <$> (buildGraph drawn).2)).
    { change (target <$> (buildGraph drawn).2)
        with ["A1"; "M2"; "A3"; "A4"; "A5"; "A6"; "IP7"; "IP7"; "A9"; "M10";
              "A11"; "A12"; "A13"; "IP14"; "IP14"; "A16"; "M17"; "A18"; "A19"].
      apply (bool_decide_unpack _). vm_compute. exact I. }
    apply Forall_fmap in Ht. exact Ht.
  - set (ids := [_; _; _; _; _; _; _; _; _; _; _; _; _; _; _; _; _; _; _; _]).
    assert (Hsrc : forall l : list (GraphEdge num),
               length (filter (fun e => source e ∉ ids) l)
               = length (filter (fun k => k ∉ ids) (source <$> l))).
    { induction l as [|e l IH]; [reflexivity|]. cbn [fmap list_fmap].
      rewrite !filter_cons. destruct (decide (source e ∉ ids)); cbn; congruence. }
    rewrite Hsrc.
    change (source <$> (buildGraph drawn).2)
      with ["D0"; "A1"; "D0"; "D0"; "D0"; "D0"; "D0"; "D-3"; "D8"; "A9";
            "D8"; "D8"; "D8"; "D8"; "D6"; "D15"; "A16"; "D15"; "D15"].
    vm_compute. reflexivity.
Qed.

End Generated.

(** ** Frames and ticks *)

Section Frames.
Context {num : Type} {JN : JsNumber num}.
Variable edges : list (GraphEdge num).

(** X10: as long as neither the stop timer has fired nor the cleanup has
    run, every animation frame runs exactly one tick and leaves exactly
    one frame request behind: [k] frames after mounting, the node store
    and the React state both hold the [k]-fold tick of the initial
    nodes. *)
Theorem uncancelled_run_ticks_once_per_frame
  (initNodes : list (GraphNode num)) (k : nat) :
  let s := host_run edges (mount initNodes) (replicate k AnimationFrame) in
  localNodes s = Nat.iter k (tick edges) (init_local initNodes)
  /\ nodes s = Nat.iter k (tick edges) (init_local initNodes)
  /\ frame_queue s = [animRef s] /\ stop_armed s = true.
Proof.
  induction k as [|k IH].
  - repeat split; reflexivity.
  - cbn zeta in *. rewrite replicate_S_end. unfold host_run in *.
    rewrite foldl_app. cbn [foldl].
    destruct IH as (Hl & _ & Hq & Harm).
    destruct (frame_when_live edges _ Hq) as (Hl' & Hn' & Hq' & Harm').
    rewrite Hl', Hn', Hl, Harm'. repeat split; assumption.
Qed.

(** X11: whatever events have happened since mounting, at most one frame
    request is outstanding, so an animation frame never runs more than
    one tick: it either leaves the nodes alone (the run has been
    cancelled) or applies [tick] once. *)
Theorem never_two_ticks_per_frame
  (initNodes : list (GraphNode num)) (evs : list HostEvent) :
  let s := host_run edges (mount initNodes) evs in
  length (frame_queue s) <= 1
  /\ (localNodes (host_step edges s AnimationFrame) = localNodes s
      \/ localNodes (host_step edges s AnimationFrame)
         = tick edges (localNodes s)).
Proof.
  cbv zeta.
  pose proof (host_run_inv edges (mount initNodes) evs (mount_inv initNodes))
    as [[Hq|Hq] _].
  - rewrite Hq. split; [cbn; lia|]. left.
    rewrite frame_when_stopped by exact Hq. reflexivity.
  - rewrite Hq. split; [cbn; lia|]. right.
    destruct (frame_when_live edges _ Hq) as (Hl & _). exact Hl.
Qed.

End Frames.

(** * Properties of the alert manager *)

Module AlertsFacts.
Import Alerts.

(** ** Decimal ids *)

Lemma to_int_not_nil (z : Z) :
  Z.to_int z <> Decimal.Pos Decimal.Nil /\ Z.to_int z <> Decimal.Neg Decimal.Nil.
Proof.
  destruct z as [|p|p]; cbn; split; try discriminate;
    intros [= Hp]; exact (DecimalPos.Unsigned.to_uint_nonnil p Hp).
Qed.

Lemma string_of_Z_inj (z z' : Z) : string_of_Z z = string_of_Z z' -> z = z'.
Proof.
  unfold string_of_Z. intros Heq.
  apply (f_equal NilZero.int_of_string) in Heq.
  destruct (to_int_not_nil z) as [Hp Hn].
  destruct (to_int_not_nil z') as [Hp' Hn'].
  rewrite !NilZero.isi in Heq by assumption.
  injection Heq as Heq. apply DecimalZ.to_int_inj, Heq.
Qed.

(** ** The stable sort *)

Section Sorting.
Context {A : Type} (cmp : A -> A -> Z).

Lemma sort_insert_perm (a : A) (l : list A) : sort_insert cmp a l ≡ₚ a :: l.
Proof.
  induction l as [|b l IH]; cbn; [reflexivity|].
  destruct (0 <? cmp a b)%Z; [|reflexivity].
  rewrite IH. apply Permutation_swap.
Qed.

Lemma sort_perm (l : list A) : sort cmp l ≡ₚ l.
Proof.
  unfold sort. induction l as [|a l IH]; cbn; [reflexivity|].
  rewrite sort_insert_perm, IH. reflexivity.
Qed.

Hypothesis cmp_antisym : forall a b, cmp b a = (- cmp a b)%Z.

Lemma sort_insert_sorted (a : A) (l : list A) :
  Sorted (in_order cmp) l -> Sorted (in_order cmp) (sort_insert cmp a l).
Proof.
  induction 1 as [|b l Hl IH Hb]; cbn; [repeat constructor|].
  destruct (0 <? cmp a b)%Z eqn:Hab.
  - constructor; [exact IH|].
    apply Z.ltb_lt in Hab.
    destruct l as [|c l]; cbn.
    + constructor. unfold in_order. rewrite cmp_antisym. lia.
    + destruct (0 <? cmp a c)%Z.
      * inversion Hb; subst. constructor. assumption.
      * constructor. unfold in_order. rewrite cmp_antisym. lia.
  - apply Z.ltb_ge in Hab. constructor; [constructor; assumption|].
    constructor. exact Hab.
Qed.

Lemma sort_sorted (l : list A) : Sorted (in_order cmp) (sort cmp l).
Proof.
  unfold sort. induction l as [|a l IH]; cbn; [constructor|].
  apply sort_insert_sorted, IH.
Qed.

End Sorting.

(** ** [genAlerts] *)

Section Generated.
Variable getTime : string -> Z.
Variable draw : nat -> Draw.

Lemma gen_alert_id (i : nat) :
  id (gen_alert draw i) = "ALT-" +:+ string_of_Z (Z.of_nat i + 1000).
Proof. reflexivity. Qed.

Lemma gen_alert_id_inj (i j : nat) :
  id (gen_alert draw i) = id (gen_alert draw j) -> i = j.
Proof.
  rewrite !gen_alert_id. cbn. intros [= Heq].
  apply string_of_Z_inj in Heq. lia.
Qed.

(** X12: [genAlerts(count)] returns exactly [count] alerts: the generated
    ones rearranged, never dropped or doubled; newest first; with
    pairwise distinct ids ALT-1000, ALT-1001, ...; each titled and
    described after its type. *)
Theorem genAlerts_spec (count : nat) :
  genAlerts getTime draw count ≡ₚ gen_alert draw <$> seq 0 count
  /\ length (genAlerts getTime draw count) = count
  /\ Sorted (fun a b => (getTime (created_at b) <= getTime (created_at a))%Z)
            (genAlerts getTime draw count)
  /\ NoDup (id <$> genAlerts getTime draw count)
  /\ Forall (fun a => title a = typeLabel (type a)
                      /\ desc a = typeDesc (type a))
            (genAlerts getTime draw count).
Proof.
  assert (Hperm : genAlerts getTime draw count ≡ₚ gen_alert draw <$> seq 0 count)
    by apply sort_perm.
  split; [exact Hperm|]. split; [|split; [|split]].
  - rewrite Hperm, length_fmap, length_seq. reflexivity.
  - unfold genAlerts.
    eapply Sorted_ind with (P := Sorted _);
      [constructor| |apply (sort_sorted (newest_first getTime))].
    + intros a l _ IH Hhd. constructor; [exact IH|].
      destruct Hhd as [|b l Hab]; constructor.
      unfold in_order, newest_first in Hab. lia.
    + intros a b. unfold newest_first. lia.
  - rewrite Hperm. rewrite <- list_fmap_compose.
    apply NoDup_fmap_2_strong; [|apply NoDup_seq].
    intros i j _ _ Heq. apply gen_alert_id_inj, Heq.
  - rewrite Hperm. apply Forall_fmap, Forall_forall. intros i _. split; reflexivity.
Qed.

(** The alert the timer adds. *)
Lemma arrive_eq (prev : list Alert) :
  arrive getTime draw prev
  = take 50 (set_resolved false (gen_alert draw 0) :: prev).
Proof. reflexivity. Qed.

End Generated.

(** ** The component *)

Section ComponentFacts.
Variable getTime : string -> Z.
Implicit Types (l prev : list Alert) (a : Alert) (v : View) (key : string).

Lemma resolve_ids key l : id <$> resolve key l = id <$> l.
Proof.
  unfold resolve. rewrite <- list_fmap_compose. apply list_fmap_ext.
  intros i a _. cbn. destruct (decide (id a = key)); reflexivity.
Qed.

Lemma resolve_marks key l :
  Forall (fun a => id a = key -> resolved a = true) (resolve key l).
Proof.
  unfold resolve. apply Forall_fmap, Forall_forall. intros a _. cbn.
  destruct (decide (id a = key)); [reflexivity | tauto].
Qed.

Lemma resolve_others key l :
  filter (fun a => id a <> key) (resolve key l)
  = filter (fun a => id a <> key) l.
Proof.
  unfold resolve. induction l as [|a l IH]; [reflexivity|].
  rewrite fmap_cons, !filter_cons, IH.
  destruct (decide (id a = key)) as [He|Hne]; cbn.
  - rewrite !decide_False by tauto. reflexivity.
  - rewrite !decide_True by exact Hne. reflexivity.
Qed.

Lemma resolve_count key l :
  unresolved (resolve key l)
  + length (filter (fun a => id a = key /\ resolved a = false) l)
  = unresolved l.
Proof.
  unfold resolve, unresolved. induction l as [|a l IH]; [reflexivity|].
  rewrite fmap_cons, !filter_cons.
  destruct (decide (id a = key)) as [He|Hne]; cbn [resolved set_resolved].
  - rewrite (decide_False (P := true = false)) by discriminate.
    destruct (decide (resolved a = false)) as [Hr|Hr].
    + rewrite decide_True by tauto. cbn. lia.
    + rewrite decide_False by tauto. exact IH.
  - rewrite (decide_False (P := id a = key /\ _)) by tauto.
    destruct (decide (resolved a = false)); cbn; lia.
Qed.

Lemma resolve_idem key l : resolve key (resolve key l) = resolve key l.
Proof.
  unfold resolve. rewrite <- list_fmap_compose. apply list_fmap_ext.
  intros i a _. cbn. destruct (decide (id a = key)) as [He|Hne]; cbn.
  - rewrite decide_True by exact He. reflexivity.
  - rewrite decide_False by exact Hne. reflexivity.
Qed.

Lemma resolve_comm key key' l :
  resolve key (resolve key' l) = resolve key' (resolve key l).
Proof.
  unfold resolve. rewrite <- !list_fmap_compose. apply list_fmap_ext.
  intros i a _. cbn.
  destruct (decide (id a = key)), (decide (id a = key')); cbn;
    repeat (first [rewrite decide_True by assumption
                  | rewrite decide_False by assumption]); reflexivity.
Qed.

(** X13: resolving by id marks every alert carrying that id as resolved
    and touches nothing else: ids, order and the alerts with other ids
    stay as they are, and the number of unresolved alerts drops by the
    number of unresolved alerts with that id.  Resolving twice is
    resolving once, and resolutions commute. *)
Theorem resolve_laws key key' l :
  id <$> resolve key l = id <$> l
  /\ Forall (fun a => id a = key -> resolved a = true) (resolve key l)
  /\ filter (fun a => id a <> key) (resolve key l)
     = filter (fun a => id a <> key) l
  /\ unresolved (resolve key l)
     + length (filter (fun a => id a = key /\ resolved a = false) l)
     = unresolved l
  /\ resolve key (resolve key l) = resolve key l
  /\ resolve key (resolve key' l) = resolve key' (resolve key l).
Proof.
  repeat split;
    [ apply resolve_ids | apply resolve_marks | apply resolve_others
    | apply resolve_count | apply resolve_idem | apply resolve_comm ].
Qed.

(** X14: the four summary chips add up to the "unresolved" counter. *)
Theorem severity_chips_sum l :
  bySev l critical + bySev l high + bySev l medium + bySev l low
  = unresolved l.
Proof.
  unfold bySev, unresolved.
  induction l as [|a l IH]; [reflexivity|].
  rewrite !filter_cons.
  destruct (decide (resolved a = false)) as [Hr|Hr].
  - destruct (severity a) eqn:Hs;
      repeat match goal with
             | |- context [decide (?P /\ ?Q)] =>
                 first [rewrite (decide_True (P := P /\ Q)) by (split; congruence)
                       | rewrite (decide_False (P := P /\ Q))
                           by (intros [? ?]; congruence)]
             end; cbn [length]; lia.
  - repeat match goal with
           | |- context [decide (?P /\ ?Q)] =>
               rewrite (decide_False (P := P /\ Q)) by tauto
           end; lia.
Qed.

Lemma filter_all {A} (P : A -> Prop) `{forall z, Decision (P z)} (zs : list A) :
  (forall z, P z) -> filter P zs = zs.
Proof.
  intros HP. induction zs as [|z zs IH]; [reflexivity|].
  rewrite filter_cons, decide_True by apply HP. rewrite IH. reflexivity.
Qed.

(** X15: the visible list is the alert list with entries left out, in
    the same order; with "Show Resolved" off it never contains a
    resolved alert, so an alert goes from view once it is resolved; with
    both selects on "all" and "Show Resolved" on it is the whole list. *)
Theorem filtered_shows v key :
  filtered v `sublist_of` alerts v
  /\ (showResolved v = false ->
      Forall (fun a => resolved a = false) (filtered v)
      /\ Forall (fun a => id a <> key)
                (filtered (step getTime v (Resolve key))))
  /\ (sevFilter v = None -> typeFilter v = None -> showResolved v = true ->
      filtered v = alerts v).
Proof.
  unfold filtered. split; [apply sublist_filter|]. split.
  - intros Hoff. split.
    + apply Forall_forall. intros a Ha. apply list_elem_of_filter in Ha as [Hs _].
      unfold shown in Hs. rewrite Hoff in Hs. cbn in Hs.
      destruct (resolved a); [discriminate|reflexivity].
    + apply Forall_forall. intros a Ha. apply list_elem_of_filter in Ha as [Hs Ha].
      cbn in Ha. intros Hid.
      pose proof (proj1 (Forall_forall _ _) (resolve_marks key (alerts v)) a Ha Hid)
        as Hr.
      unfold shown in Hs. cbn in Hs. rewrite Hoff, Hr in Hs. discriminate.
  - intros Hsev Htype Hon. apply filter_all. intros a.
    unfold shown. rewrite Hsev, Htype, Hon. reflexivity.
Qed.

Lemma genAlerts_length (draw : nat -> Draw) (count : nat) :
  length (genAlerts getTime draw count) = count.
Proof.
  unfold genAlerts. rewrite sort_perm, length_fmap, length_seq. reflexivity.
Qed.

(** X16: what the 10 s timer does to the list: the new alert goes in
    front, unresolved, and the list is cut to 50 entries, so its length
    becomes [min 50 (length + 1)]; while the list is below 50 nothing is
    lost and the unresolved counter goes up by one. *)
Theorem arrive_spec (draw : nat -> Draw) prev :
  head (arrive getTime draw prev) = Some (set_resolved false (gen_alert draw 0))
  /\ length (arrive getTime draw prev) = Nat.min 50 (S (length prev))
  /\ (length prev < 50 ->
      arrive getTime draw prev = set_resolved false (gen_alert draw 0) :: prev
      /\ unresolved (arrive getTime draw prev) = S (unresolved prev)).
Proof.
  rewrite arrive_eq. split; [reflexivity|]. split.
  - rewrite length_take. cbn [length]. reflexivity.
  - intros Hlt. rewrite take_ge by (cbn [length]; lia).
    split; [reflexivity|]. unfold unresolved. rewrite filter_cons. reflexivity.
Qed.

(** X17: the alert list never holds more than 50 entries, whatever
    sequence of loads, timer arrivals, resolutions and filter changes
    happens after mounting. *)
Theorem alert_list_capped (evs : list Event) :
  length (alerts (run getTime initial evs)) <= 50.
Proof.
  unfold run.
  enough (Hgen : forall v, length (alerts v) <= 50 ->
                           length (alerts (foldl (step getTime) v evs)) <= 50)
    by (apply Hgen; cbn; lia).
  induction evs as [|ev evs IH]; intros v Hv; [exact Hv|].
  cbn [foldl]. apply IH. destruct ev; cbn [step with_alerts alerts].
  - rewrite genAlerts_length. lia.
  - rewrite arrive_eq, length_take. lia.
  - unfold resolve. rewrite length_fmap. exact Hv.
  - exact Hv.
  - exact Hv.
  - exact Hv.
Qed.

Lemma count_by_id key l :
  length (filter (fun a => id a = key) l)
  = length (filter (fun k => k = key) (id <$> l)).
Proof.
  induction l as [|a l IH]; [reflexivity|].
  rewrite fmap_cons, !filter_cons.
  destruct (decide (id a = key)); cbn [length]; rewrite IH; reflexivity.
Qed.

Lemma count_present key (ks : list string) :
  key ∈ ks -> 1 <= length (filter (fun k => k = key) ks).
Proof.
  intros Hin. apply list_elem_of_split in Hin as (l1 & l2 & ->).
  rewrite filter_app, filter_cons, decide_True by reflexivity.
  rewrite length_app. cbn [length]. lia.
Qed.

(** X18: every alert the timer adds has the id "ALT-1000"
    ([genAlerts(1)] numbers its only alert 1000), the id of one of the 30
    loaded alerts.  So after a load and one timer arrival the 31 ids are
    not pairwise distinct, and resolving "ALT-1000" resolves both. *)
Theorem timer_alert_repeats_an_id (draw draw' : nat -> Draw) v :
  let v' := step getTime (step getTime v (Load draw)) (TimerFires draw') in
  head (id <$> alerts v') = Some "ALT-1000"
  /\ length (alerts v') = 31
  /\ ~ NoDup (id <$> alerts v')
  /\ length (filter (fun a => id a = "ALT-1000")
                    (alerts (step getTime v' (Resolve "ALT-1000")))) >= 2
  /\ Forall (fun a => id a = "ALT-1000" -> resolved a = true)
            (alerts (step getTime v' (Resolve "ALT-1000"))).
Proof.
  cbv zeta. cbn [step with_alerts alerts].
  rewrite arrive_eq, take_ge by (cbn [length]; rewrite genAlerts_length; lia).
  assert (Hin : "ALT-1000" ∈ id <$> genAlerts getTime draw 30).
  { unfold genAlerts. rewrite sort_perm. apply list_elem_of_fmap.
    exists (gen_alert draw 0). split; [reflexivity|].
    apply list_elem_of_fmap. exists 0. split; [reflexivity|].
    apply elem_of_seq. lia. }
  split; [reflexivity|]. split; [cbn [length]; rewrite genAlerts_length; reflexivity|].
  split; [|split].
  - cbn. intros Hnd. apply NoDup_cons in Hnd as [Hnot _]. exact (Hnot Hin).
  - rewrite count_by_id, resolve_ids, fmap_cons, filter_cons.
    cbn [id set_resolved gen_alert]. rewrite decide_True by reflexivity.
    pose proof (count_present "ALT-1000" _ Hin). cbn [length]. lia.
  - apply resolve_marks.
Qed.

End ComponentFacts.

Lemma filtered_shows_witness :
  let v := step sample_time initial (Load sample_alert_draw) in
  Forall (fun a => resolved a = false) (filtered v)
  /\ Forall (fun a => id a <> "ALT-1001")
            (filtered (step sample_time v (Resolve "ALT-1001"))).
Proof.
  intros v.
  apply (proj1 (proj2 (filtered_shows sample_time v "ALT-1001"))).
  reflexivity.
Defined.

Lemma arrive_spec_witness :
  let prev := genAlerts sample_time sample_alert_draw 30 in
  arrive sample_time sample_alert_draw prev
  = set_resolved false (gen_alert sample_alert_draw 0) :: prev
  /\ unresolved (arrive sample_time sample_alert_draw prev)
     = S (unresolved prev).
Proof.
  intros prev.
  apply (proj2 (proj2 (arrive_spec sample_time sample_alert_draw prev))).
  vm_compute. lia.
Defined.

End AlertsFacts.

(** * Properties of the transaction monitor *)

Module TransactionsFacts.
Import Transactions.

Lemma ceil_div_covers (n : nat) : n <= ceil_div n PAGE_SIZE * PAGE_SIZE.
Proof.
  unfold ceil_div, PAGE_SIZE. cbn [Nat.sub].
  pose proof (Nat.div_mod_eq (n + 11) 12) as Hdm.
  pose proof (Nat.mod_upper_bound (n + 11) 12 ltac:(lia)). lia.
Qed.

Lemma ceil_div_tight (n : nat) : ceil_div n PAGE_SIZE * PAGE_SIZE < n + PAGE_SIZE.
Proof.
  unfold ceil_div, PAGE_SIZE. cbn [Nat.sub].
  pose proof (Nat.div_mod_eq (n + 11) 12) as Hdm.
  pose proof (Nat.mod_upper_bound (n + 11) 12 ltac:(lia)). lia.
Qed.

Lemma slice_page {A} (p : nat) (l : list A) :
  slice (p * PAGE_SIZE) ((p + 1) * PAGE_SIZE) l
  = take PAGE_SIZE (drop (p * PAGE_SIZE) l).
Proof. unfold slice. f_equal. lia. Qed.

Lemma chunks_concat {A} (k n : nat) (l : list A) :
  length l <= n * k ->
  concat ((fun p => take k (drop (p * k) l)) <$> seq 0 n) = l.
Proof.
  revert l. induction n as [|n IH]; intros l Hl.
  - destruct l; [reflexivity | cbn in Hl; lia].
  - rewrite <- cons_seq, fmap_cons. cbn [concat].
    change (0 * k) with 0. rewrite drop_0.
    transitivity (take k l ++ drop k l)%list; [|apply take_drop]. f_equal.
    rewrite <- fmap_S_seq, <- list_fmap_compose.
    etransitivity; [|apply (IH (drop k l)); rewrite length_drop; lia].
    f_equal. apply list_fmap_ext. intros i p _. cbn.
    rewrite drop_drop. reflexivity.
Qed.

Section Pages.
Context {num : Type}.
Variable includes_lower : string -> string -> bool.
Implicit Types (v : @View num).

(** X19: the pages cut the filtered list into consecutive pieces: the
    pages 0 .. totalPages - 1 put end to end are the filtered list; a
    page never has more than 12 rows, every page before the last has
    exactly 12, every page below [totalPages] has at least one row, and
    a page from [totalPages] on is empty. *)
Theorem pages_partition v :
  let l := filtered includes_lower v in
  let n := totalPages includes_lower v in
  concat ((fun p => slice (p * PAGE_SIZE) ((p + 1) * PAGE_SIZE) l) <$> seq 0 n)
  = l
  /\ forall p,
       length (slice (p * PAGE_SIZE) ((p + 1) * PAGE_SIZE) l) <= PAGE_SIZE
       /\ (p + 1 < n ->
           length (slice (p * PAGE_SIZE) ((p + 1) * PAGE_SIZE) l) = PAGE_SIZE)
       /\ (p < n -> slice (p * PAGE_SIZE) ((p + 1) * PAGE_SIZE) l <> [])
       /\ (n <= p -> slice (p * PAGE_SIZE) ((p + 1) * PAGE_SIZE) l = []).
Proof.
  cbv zeta. unfold totalPages.
  generalize (filtered includes_lower v). intros l.
  pose proof (ceil_div_covers (length l)) as Hcov.
  split.
  - erewrite list_fmap_ext; [apply (chunks_concat PAGE_SIZE), Hcov|].
    intros i p _. apply slice_page.
  - intros p. rewrite slice_page.
    pose proof (ceil_div_tight (length l)) as Htight.
    assert (Hlen : length (take PAGE_SIZE (drop (p * PAGE_SIZE) l))
                   = Nat.min PAGE_SIZE (length l - p * PAGE_SIZE))
      by (rewrite length_take, length_drop; reflexivity).
    unfold PAGE_SIZE in *. repeat split.
    + lia.
    + intros Hp. nia.
    + intros Hp Hnil. rewrite Hnil in Hlen. cbn [length] in Hlen. nia.
    + intros Hp. apply length_zero_iff_nil. nia.
Qed.

(** X20: as long as the transactions are not regenerated, the page
    stays in range: from a page below [max 1 totalPages] (page 0 at the
    start) any sequence of searches, filter changes and Prev / Next
    clicks ends on such a page, and the table shows at least one row
    whenever any transaction matches. *)
Theorem page_stays_in_range v (evs : list (@Event num)) :
  Forall (fun ev => is_refresh ev = false) evs ->
  page v < Nat.max 1 (totalPages includes_lower v) ->
  let v' := run includes_lower v evs in
  page v' < Nat.max 1 (totalPages includes_lower v')
  /\ (filtered includes_lower v' <> [] -> paginated includes_lower v' <> []).
Proof.
  intros Hevs Hv. cbv zeta.
  assert (Hin : page (run includes_lower v evs)
                < Nat.max 1 (totalPages includes_lower (run includes_lower v evs))).
  { unfold run. revert v Hv.
    induction Hevs as [|ev evs Hev _ IH]; intros v Hv; [exact Hv|].
    cbn [foldl]. apply IH. destruct ev; try discriminate; cbn [step].
    - cbn [page]. lia.
    - cbn [page]. lia.
    - destruct (decide (page v = 0)); [exact Hv|].
      change (totalPages includes_lower (mkView _ _ _ _))
        with (totalPages includes_lower v). cbn [page]. lia.
    - destruct (decide _) as [Hd|Hd]; [exact Hv|].
      change (totalPages includes_lower (mkView _ _ _ _))
        with (totalPages includes_lower v). cbn [page]. lia. }
  split; [exact Hin|].
  revert Hin. generalize (run includes_lower v evs). clear. intros v.
  unfold paginated, totalPages. rewrite slice_page.
  generalize (filtered includes_lower v). intros l Hin Hne Hnil.
  apply (f_equal length) in Hnil.
  rewrite length_take, length_drop in Hnil. cbn [length] in Hnil.
  pose proof (ceil_div_tight (length l)) as Htight.
  pose proof (ceil_div_covers (length l)) as Hcov.
  assert (0 < length l) by (destruct l; [congruence | cbn; lia]).
  unfold PAGE_SIZE in *. nia.
Qed.

End Pages.

Lemma pages_partition_witness :
  let same := fun hay needle : string => bool_decide (hay = needle) in
  let t := mkTransaction "TXN-1" "USR-1" 12.5%float "USD" "Stripe" "flagged"
                         0.5%float "US" false 80%float "2026-01-01" None in
  let l := filtered same (mkView (replicate 30 t) "" "all" 0) in
  length (slice (1 * PAGE_SIZE) ((1 + 1) * PAGE_SIZE) l) = PAGE_SIZE
  /\ slice (2 * PAGE_SIZE) ((2 + 1) * PAGE_SIZE) l <> []
  /\ slice (3 * PAGE_SIZE) ((3 + 1) * PAGE_SIZE) l = [].
Proof.
  intros same t l.
  pose proof (pages_partition same (mkView (replicate 30 t) "" "all" 0)) as Hp.
  cbv zeta in Hp. destruct Hp as [_ Hp]. fold l in Hp.
  split; [|split].
  - apply (proj1 (proj2 (Hp 1))). vm_compute. lia.
  - apply (proj1 (proj2 (proj2 (Hp 2)))). vm_compute. lia.
  - apply (proj2 (proj2 (proj2 (Hp 3)))). vm_compute. lia.
Defined.

Lemma page_stays_in_range_witness :
  let same := fun hay needle : string => bool_decide (hay = needle) in
  let t := mkTransaction "TXN-1" "USR-1" 12.5%float "USD" "Stripe" "flagged"
                         0.5%float "US" false 80%float "2026-01-01" None in
  let v := mkView (replicate 30 t) "" "all" 0 in
  let v' := run same v [Next; Prev; SetDecisionFilter "flagged"; Next] in
  page v' < Nat.max 1 (totalPages same v')
  /\ (filtered same v' <> [] -> paginated same v' <> []).
Proof.
  intros same t v.
  apply (page_stays_in_range same v
           [Next; Prev; SetDecisionFilter "flagged"; Next]).
  - repeat constructor.
  - vm_compute. lia.
Defined.

End TransactionsFacts.

(** * Properties of the KYC console *)

Module KYCFacts.
Import KYC.

Section Console.
Context {num : Type}.
Implicit Types (v : @View num) (r : @KYCRecord num) (key : string).

Lemma genKYCQueue_ids (draw : nat -> @Draw num) (count : nat) :
  id <$> genKYCQueue draw count
  = (fun i => "KYC-" +:+ string_of_Z (1000 + Z.of_nat i)) <$> seq 0 count.
Proof.
  unfold genKYCQueue. rewrite <- list_fmap_compose. reflexivity.
Qed.

Lemma genKYCQueue_NoDup (draw : nat -> @Draw num) (count : nat) :
  NoDup (id <$> genKYCQueue draw count).
Proof.
  rewrite genKYCQueue_ids. apply NoDup_fmap_2_strong; [|apply NoDup_seq].
  intros i j _ _ Heq. cbn in Heq. injection Heq as Heq.
  apply AlertsFacts.string_of_Z_inj in Heq. lia.
Qed.

Lemma decide_unique_row (st : Status) (q : list (@KYCRecord num)) (i : nat) r :
  NoDup (id <$> q) -> q !! i = Some r ->
  (fun r' => if decide (id r' = id r) then set_status st r' else r') <$> q
  = <[i := set_status st r]> q.
Proof.
  revert i. induction q as [|a q IH]; intros [|i] Hnd Hi; try discriminate.
  - injection Hi as ->. cbn. rewrite decide_True by reflexivity. f_equal.
    cbn in Hnd. apply NoDup_cons in Hnd as [Hnot _].
    clear IH. induction q as [|b q IHq]; [reflexivity|].
    cbn. rewrite decide_False.
    + f_equal. apply IHq. intros Hin. apply Hnot. cbn. right. exact Hin.
    + intros Heq. apply Hnot. cbn. rewrite Heq. left.
  - cbn in Hi, Hnd. apply NoDup_cons in Hnd as [Hnot Hnd]. cbn.
    rewrite decide_False.
    + f_equal. apply IH; assumption.
    + intros Heq. apply Hnot. rewrite Heq. apply list_elem_of_fmap.
      exists r. split; [reflexivity|]. eapply list_elem_of_lookup_2, Hi.
Qed.

(** X21: a freshly loaded queue has 16 records with pairwise distinct
    ids KYC-1000 ... KYC-1015, so approving or rejecting the record of a
    row changes the status of that one row and leaves the other 15
    records as they are. *)
Theorem decision_changes_one_row (draw : nat -> @Draw num) v (i : nat) r :
  let loaded := step v (Load draw) in
  queue loaded !! i = Some r ->
  length (queue loaded) = 16
  /\ NoDup (id <$> queue loaded)
  /\ queue (step loaded (Approve (id r)))
     = <[i := set_status approved r]> (queue loaded)
  /\ queue (step loaded (Reject (id r)))
     = <[i := set_status rejected r]> (queue loaded).
Proof.
  cbv zeta. cbn [step queue]. intros Hi.
  pose proof (genKYCQueue_NoDup draw 16) as Hnd.
  split; [unfold genKYCQueue; rewrite length_fmap, length_seq; reflexivity|].
  split; [exact Hnd|].
  split; apply decide_unique_row; assumption.
Qed.

Lemma decide_record_in_sync (st : Status) key v :
  panel_in_sync v -> panel_in_sync (decide_record st key v).
Proof.
  unfold panel_in_sync, decide_record. cbn [selected queue].
  destruct (selected v) as [sel|]; [|tauto]. intros Hin.
  set (f := fun r' => if decide (id r' = key) then set_status st r' else r').
  assert (Hf : f sel ∈ f <$> queue v) by (apply list_elem_of_fmap_2; exact Hin).
  unfold f in Hf at 1. destruct (decide (id sel = key)); exact Hf.
Qed.

Lemma step_in_sync v (ev : @Event num) :
  is_load ev = false -> panel_in_sync v -> panel_in_sync (step v ev).
Proof.
  intros Hev Hv. destruct ev; try discriminate; cbn [step].
  - destruct (filtered v !! row) as [rec|] eqn:Hrow; [|exact Hv].
    unfold panel_in_sync. cbn [selected queue].
    apply list_elem_of_lookup_2 in Hrow.
    unfold filtered in Hrow. apply list_elem_of_filter in Hrow as [_ Hin]. exact Hin.
  - apply decide_record_in_sync, Hv.
  - apply decide_record_in_sync, Hv.
  - exact Hv.
Qed.

(** X22: between two loads of the queue the detail panel stays in step
    with the list: whatever rows are clicked, records approved or
    rejected and filters set, the record shown in the panel (if any) is
    one of the queue's records as it is now, so it carries the current
    status of that record. *)
Theorem panel_stays_in_sync v (evs : list (@Event num)) :
  Forall (fun ev => is_load ev = false) evs ->
  panel_in_sync v -> panel_in_sync (run v evs).
Proof.
  unfold run. intros Hevs. revert v.
  induction Hevs as [|ev evs Hev _ IH]; intros v Hv; [exact Hv|].
  cbn [foldl]. apply IH, step_in_sync; assumption.
Qed.

Lemma stat_sum (q : list (@KYCRecord num)) :
  stat pending q + stat in_review q + stat approved q + stat rejected q
  = length q.
Proof.
  unfold stat. induction q as [|r q IH]; [reflexivity|].
  rewrite !filter_cons. cbn [length].
  destruct (status r) eqn:Hr;
    repeat (destruct (decide _) as [?|?]; try discriminate; try congruence);
    cbn [length]; lia.
Qed.

Lemma stat_insert (s st : Status) (q : list (@KYCRecord num)) (i : nat) r :
  q !! i = Some r ->
  stat s (<[i := set_status st r]> q) + (if decide (status r = s) then 1 else 0)
  = stat s q + (if decide (st = s) then 1 else 0).
Proof.
  unfold stat. revert i. induction q as [|a q IH]; intros [|i] Hi; try discriminate.
  - injection Hi as ->. change (<[0 := set_status st r]> (r :: q)) with (set_status st r :: q).
    rewrite !filter_cons. cbn [status set_status].
    destruct (decide (st = s)), (decide (status r = s)); cbn [length]; lia.
  - cbn in Hi.
    change (<[S i := set_status st r]> (a :: q)) with (a :: <[i := set_status st r]> q).
    rewrite !filter_cons.
    specialize (IH i Hi).
    destruct (decide (status a = s)); cbn [length]; lia.
Qed.

(** X23: the four counters of the header account for the whole queue, 16
    after a load; approving the record of a row takes one off the counter
    of the status it had and adds one to "approved", rejecting adds one
    to "rejected", and the counters of the other statuses stay. *)
Theorem counters_follow_decisions (draw : nat -> @Draw num) v (i : nat) r
  (s : Status) :
  let loaded := step v (Load draw) in
  queue loaded !! i = Some r ->
  stat pending (queue loaded) + stat in_review (queue loaded)
  + stat approved (queue loaded) + stat rejected (queue loaded) = 16
  /\ stat s (queue (step loaded (Approve (id r))))
     + (if decide (status r = s) then 1 else 0)
     = stat s (queue loaded) + (if decide (approved = s) then 1 else 0)
  /\ stat s (queue (step loaded (Reject (id r))))
     + (if decide (status r = s) then 1 else 0)
     = stat s (queue loaded) + (if decide (rejected = s) then 1 else 0).
Proof.
  cbv zeta. cbn [step queue approve reject decide_record]. intros Hi.
  pose proof (genKYCQueue_NoDup draw 16) as Hnd.
  split.
  - rewrite stat_sum. unfold genKYCQueue. rewrite length_fmap, length_seq.
    reflexivity.
  - rewrite !(decide_unique_row _ _ i r Hnd Hi).
    split; apply stat_insert; exact Hi.
Qed.

End Console.

Lemma decision_changes_one_row_witness :
  let loaded := step (mkView [] None None) (Load sample_kyc_draw) in
  let r := mkRecord "KYC-1002" "USR-AB12CD" "Alice Chen" passport
                    "2026-01-01T00:00:00.000Z" pending [] 0.8%float in
  length (queue loaded) = 16
  /\ NoDup (id <$> queue loaded)
  /\ queue (step loaded (Approve "KYC-1002"))
     = <[2 := set_status approved r]> (queue loaded)
  /\ queue (step loaded (Reject "KYC-1002"))
     = <[2 := set_status rejected r]> (queue loaded).
Proof.
  intros loaded r.
  apply (decision_changes_one_row sample_kyc_draw (mkView [] None None) 2 r).
  reflexivity.
Defined.

Lemma counters_follow_decisions_witness :
  let loaded := step (mkView [] None None) (Load sample_kyc_draw) in
  stat pending (queue loaded) + stat in_review (queue loaded)
  + stat approved (queue loaded) + stat rejected (queue loaded) = 16
  /\ stat approved (queue (step loaded (Approve "KYC-1002"))) + 0
     = stat approved (queue loaded) + 1
  /\ stat approved (queue (step loaded (Reject "KYC-1002"))) + 0
     = stat approved (queue loaded) + 0.
Proof.
  intros loaded.
  apply (counters_follow_decisions sample_kyc_draw (mkView [] None None) 2
           (mkRecord "KYC-1002" "USR-AB12CD" "Alice Chen" passport
                     "2026-01-01T00:00:00.000Z" pending [] 0.8%float)
           approved).
  reflexivity.
Defined.

Lemma panel_stays_in_sync_witness :
  panel_in_sync
    (run (step (mkView [] None None) (Load sample_kyc_draw))
         [Select 2; Approve "KYC-1002"; SetStatusFilter (Some approved);
          Select 0; Reject "KYC-1002"]).
Proof.
  apply panel_stays_in_sync.
  - repeat constructor.
  - exact I.
Defined.

End KYCFacts.
